(** * AxiomOne kernel module system: a shallow embedding and its properties

    The development follows [src/kernel/modules/modules.ts] (the four-stage
    pipeline discover, validate, load, initialize), [errors.ts] (the typed
    errors) and [types.ts] (the status records).

    Conventions of the embedding:
    - a JavaScript string, a sequence of 16-bit code units, is the [string]
      that writes each code unit in the manner of UTF-8 ([js_string]); text
      in ASCII is written as it is, and equality, concatenation, [endsWith]
      and the order used by [Array.prototype.sort], which compares code
      units, are equality, [++], [endsWith] and [String_as_OT.lt] on these
      strings ([js_string_injective], [js_string_app],
      [js_string_endsWith], [js_string_lt]);
    - a JavaScript [Map] is an association list in insertion order
      ([Map.set] on a present key keeps the key's position);
    - the module-level variables of [modules.ts] form the record [State];
      functions of the source are computations in a state-and-exception monad
      [M], so that [try]/[catch] and a rejected promise are explicit;
    - everything the program asks of its environment (directory listing, file
      contents, [JSON.parse], [existsSync], dynamic [import], the behaviour of
      an initializer, [Date.now]) is a field of the record [World];
    - every awaited operation settles: it resolves or it rejects.  A promise
      that never settles suspends [setup] for ever and is outside the
      model. *)

From Stdlib Require Import List String Ascii ZArith Bool Lia.
From Stdlib Require Import Sorting.Sorted Sorting.Permutation Structures.OrdersEx.
From Stdlib Require Import Classes.RelationClasses.
Import ListNotations.

Open Scope string_scope.
Open Scope list_scope.

(* ------------------------------------------------------------------ *)
(** ** JavaScript values produced by [JSON.parse] *)

(** Objects and arrays carry the flag that [Object.freeze] sets; the flag is
    that of the node itself, as [Object.freeze] is not recursive. *)
#[warnings="-register-all"]
Inductive Json : Type :=
| JNull
| JBool (b : bool)
| JNum (n : Z)
| JStr (s : string)
| JArr (frozen : bool) (elems : list Json)
| JObj (frozen : bool) (props : list (string * Json)).

Inductive JsType : Type :=
| TUndefined | TObject | TBoolean | TNumber | TString | TFunction.

Definition JsType_eqb (a b : JsType) : bool :=
  match a, b with
  | TUndefined, TUndefined | TObject, TObject | TBoolean, TBoolean
  | TNumber, TNumber | TString, TString | TFunction, TFunction => true
  | _, _ => false
  end.

(** A value read from a property is [None] when the property is absent
    ([undefined]). *)
Definition JsValue := option Json.

(** [typeof v]; note [typeof null] is ["object"]. *)
Definition typeof (v : JsValue) : JsType :=
  match v with
  | None => TUndefined
  | Some JNull => TObject
  | Some (JBool _) => TBoolean
  | Some (JNum _) => TNumber
  | Some (JStr _) => TString
  | Some (JArr _ _) => TObject
  | Some (JObj _ _) => TObject
  end.

Definition Array_isArray (v : Json) : bool :=
  match v with JArr _ _ => true | _ => false end.

(** [Object.freeze v]: freezes the object itself and returns it; a value that
    is not an object is returned as it is. *)
Definition Object_freeze (v : Json) : Json :=
  match v with
  | JArr _ l => JArr true l
  | JObj _ p => JObj true p
  | _ => v
  end.

Definition Object_isFrozen (v : Json) : bool :=
  match v with
  | JArr f _ => f
  | JObj f _ => f
  | _ => true
  end.

(** Truthiness, as tested by [!v]. *)
Definition truthy (v : JsValue) : bool :=
  match v with
  | None => false
  | Some JNull => false
  | Some (JBool b) => b
  | Some (JNum n) => negb (Z.eqb n 0)
  | Some (JStr s) => negb (String.eqb s EmptyString)
  | Some (JArr _ _) => true
  | Some (JObj _ _) => true
  end.

Fixpoint assoc {V : Type} (k : string) (l : list (string * V)) : option V :=
  match l with
  | [] => None
  | (k', v) :: l' => if String.eqb k k' then Some v else assoc k l'
  end.

(** Reading the property [key] of [v], for the keys the program reads
    ([name] and [entry]).  The outer [None] is the [TypeError] raised when
    [v] is [null]; primitives and arrays have no such property. *)
Definition get_prop (v : Json) (key : string) : option JsValue :=
  match v with
  | JNull => None
  | JObj _ props => Some (assoc key props)
  | _ => Some None
  end.

(** The string held by a value that the code has narrowed to a string. *)
Definition as_string (v : JsValue) : string :=
  match v with
  | Some (JStr s) => s
  | _ => EmptyString
  end.

(** [a !== b] where [b] is a string. *)
Definition strict_neq_string (a : JsValue) (b : string) : bool :=
  match a with
  | Some (JStr s) => negb (String.eqb s b)
  | _ => true
  end.

(** [s.endsWith(suffix)] *)
Definition endsWith (s suffix : string) : bool :=
  let n := String.length s in
  let k := String.length suffix in
  Nat.leb k n && String.eqb (substring (n - k) k s) suffix.

(** An assignment [obj[key] = v], and a [delete obj[key]], attempted by a
    caller holding a reference to the plain object [obj]: a frozen object
    ignores it (or raises in strict mode), and either way the object is
    unchanged.  On [null] and on primitives there is nothing to change;
    arrays are not covered (the registry never holds one as a manifest). *)
Fixpoint assoc_set {V : Type} (k : string) (v : V) (l : list (string * V))
  : list (string * V) :=
  match l with
  | [] => [(k, v)]
  | (k', v') :: l' =>
      if String.eqb k k' then (k', v) :: l' else (k', v') :: assoc_set k v l'
  end.

Fixpoint assoc_remove {V : Type} (k : string) (l : list (string * V))
  : list (string * V) :=
  match l with
  | [] => []
  | (k', v') :: l' =>
      if String.eqb k k' then l' else (k', v') :: assoc_remove k l'
  end.

Definition js_assign (obj : Json) (key : string) (v : Json) : Json :=
  match obj with
  | JObj false props => JObj false (assoc_set key v props)
  | _ => obj
  end.

Definition js_delete (obj : Json) (key : string) : Json :=
  match obj with
  | JObj false props => JObj false (assoc_remove key props)
  | _ => obj
  end.

(** The same two operations made below the object, as in
    [obj.a.b[key] = v]: the path is followed through the properties, the
    operation is made on the object it reaches, and only that object's own
    flag counts.  The objects above hold the one it reached, frozen or not,
    so they show the change.  A path that leaves the objects ends in a
    [TypeError] or in a primitive, and nothing changes. *)
Fixpoint js_update_in (path : list string) (op : Json -> Json) (obj : Json)
  : Json :=
  match path with
  | [] => op obj
  | p :: path' =>
      match obj with
      | JObj f props =>
          match assoc p props with
          | Some child =>
              JObj f (assoc_set p (js_update_in path' op child) props)
          | None => obj
          end
      | _ => obj
      end
  end.

Definition js_assign_at (path : list string) (obj : Json) (key : string)
    (v : Json) : Json :=
  js_update_in path (fun o => js_assign o key v) obj.

Definition js_delete_at (path : list string) (obj : Json) (key : string)
  : Json :=
  js_update_in path (fun o => js_delete o key) obj.

(** A value that is thrown, caught, or kept as the cause of an error: an
    [Error] object (class name and message) or any other value. *)
Inductive Thrown : Type :=
| ErrorObj (name message : string)
| ThrownValue (v : Json).

(* ------------------------------------------------------------------ *)
(** ** [types.ts] and [errors.ts] *)

Inductive ModuleSetupStage : Type :=
| discovery | validation | loading | initialization.

Definition stage_eqb (a b : ModuleSetupStage) : bool :=
  match a, b with
  | discovery, discovery | validation, validation
  | loading, loading | initialization, initialization => true
  | _, _ => false
  end.


Module Errors.

(** The class of an error object (what [instanceof] and [name] tell). *)
Inductive ErrorClass : Type :=
| CModuleSetupError
| CModuleDiscoveryError
| CModuleValidationError
| CManifestMissingFieldError
| CManifestNameMismatchError
| CManifestEntryNotFoundError
| CModuleLoadError
| CEntryPointMissingInitError
| CModuleInitializationError.

Record SetupError : Type := mkSetupError {
  class : ErrorClass;
  message : string;
  module : string;
  stage : ModuleSetupStage;
  cause : option Thrown
}.

Definition dquote : string := String (ascii_of_nat 34) EmptyString.
Definition squote : string := String (ascii_of_nat 39) EmptyString.

(** [new ModuleSetupError(message, module, stage, cause)] *)
Definition ModuleSetupError (message module : string)
    (stage : ModuleSetupStage) (cause : option Thrown) : SetupError :=
  mkSetupError CModuleSetupError message module stage cause.

Definition with_class (c : ErrorClass) (e : SetupError) : SetupError :=
  mkSetupError c (message e) (module e) (stage e) (cause e).

Definition with_message (m : string) (e : SetupError) : SetupError :=
  mkSetupError (class e) m (module e) (stage e) (cause e).

Definition ModuleDiscoveryError (module : string) (cause : option Thrown)
  : SetupError :=
  with_class CModuleDiscoveryError
    (ModuleSetupError
       ("Failed to discover module " ++ dquote ++ module ++ dquote)
       module discovery cause).

(** [new ModuleValidationError(message, module, cause)] *)
Definition ModuleValidationError (message module : string)
    (cause : option Thrown) : SetupError :=
  with_class CModuleValidationError
    (ModuleSetupError message module validation cause).

Definition ManifestMissingFieldError (module field : string) : SetupError :=
  with_class CManifestMissingFieldError
    (ModuleValidationError
       ("Manifest for module " ++ dquote ++ module ++ dquote
          ++ " is missing required field " ++ dquote ++ field ++ dquote)
       module None).

Definition ManifestNameMismatchError (dirName manifestName : string)
  : SetupError :=
  with_class CManifestNameMismatchError
    (ModuleValidationError
       ("Manifest name " ++ dquote ++ manifestName ++ dquote
          ++ " does not match folder name " ++ dquote ++ dirName ++ dquote)
       dirName None).

Definition ManifestEntryNotFoundError (module entry : string) : SetupError :=
  with_class CManifestEntryNotFoundError
    (ModuleValidationError
       ("Manifest entry file " ++ dquote ++ entry ++ dquote
          ++ " not found for module " ++ dquote ++ module ++ dquote)
       module None).

Definition ModuleLoadError (module : string) (cause : option Thrown)
  : SetupError :=
  with_class CModuleLoadError
    (ModuleSetupError
       ("Failed to load module " ++ dquote ++ module ++ dquote)
       module loading cause).

Definition EntryPointMissingInitError (module : string) : SetupError :=
  with_class CEntryPointMissingInitError
    (with_message
       ("Entry point for module " ++ dquote ++ module ++ dquote
          ++ " does not export an " ++ squote ++ "init" ++ squote
          ++ " function")
       (ModuleLoadError module None)).

Definition ModuleInitializationError (module : string)
    (cause : option Thrown) : SetupError :=
  with_class CModuleInitializationError
    (ModuleSetupError
       ("Initialization failed for module " ++ dquote ++ module ++ dquote)
       module initialization cause).

(** [e instanceof C]: the class of [e] is [C] or extends it. *)
Definition instanceof (e : SetupError) (c : ErrorClass) : bool :=
  match c, class e with
  | CModuleSetupError, _ => true
  | CModuleDiscoveryError, CModuleDiscoveryError => true
  | CModuleValidationError,
    (CModuleValidationError | CManifestMissingFieldError
     | CManifestNameMismatchError | CManifestEntryNotFoundError) => true
  | CManifestMissingFieldError, CManifestMissingFieldError => true
  | CManifestNameMismatchError, CManifestNameMismatchError => true
  | CManifestEntryNotFoundError, CManifestEntryNotFoundError => true
  | CModuleLoadError, (CModuleLoadError | CEntryPointMissingInitError) => true
  | CEntryPointMissingInitError, CEntryPointMissingInitError => true
  | CModuleInitializationError, CModuleInitializationError => true
  | _, _ => false
  end.

End Errors.

(** [ModuleInfo]: every record the program writes has [stage] and [success];
    the other properties are present or absent according to the stage. *)
Record ModuleInfo : Type := mkModuleInfo {
  name : option string;
  stage : ModuleSetupStage;
  success : bool;
  manifest : option Json;
  error : option Errors.SetupError;
  initTime : option Z
}.

(** The [Partial<ModuleInfo>] passed to [setModuleInfo]; all call sites give
    [success] and [stage]. *)
Record ModuleInfoUpdate : Type := mkUpdate {
  u_name : option string;
  u_stage : ModuleSetupStage;
  u_success : bool;
  u_manifest : option Json;
  u_error : option Errors.SetupError;
  u_initTime : option Z
}.

(** What calling and awaiting a module's [init] does. *)
Inductive ModuleInit : Type :=
| InitCompletes
| InitFails (e : Thrown).

(** The value of the [init] export of an imported entry file. *)
Inductive InitExport : Type :=
| NoExport
| NotAFunction (v : Json)
| InitFunction (f : ModuleInit).

Record ModuleSystemDiagnostics : Type := mkDiagnostics {
  discovered : nat;
  validated : nat;
  loaded : nat;
  initialized : nat;
  failed : nat;
  r_setupTime : Z;
  moduleDetails : list ModuleInfo;
  errors : list (option Errors.SetupError)
}.

(* ------------------------------------------------------------------ *)
(** ** Insertion-ordered maps *)

Definition Map (V : Type) : Type := list (string * V).

Definition map_get {V : Type} (m : Map V) (k : string) : option V := assoc k m.

Definition map_set {V : Type} (m : Map V) (k : string) (v : V) : Map V :=
  assoc_set k v m.

Definition map_keys {V : Type} (m : Map V) : list string := map fst m.
Definition map_values {V : Type} (m : Map V) : list V := map snd m.

(* ------------------------------------------------------------------ *)
(** ** JavaScript strings as [string]s

    A JavaScript string is a sequence of 16-bit code units.  It is kept as
    the [string] that writes each code unit in the manner of UTF-8: one
    character for a code unit below 128, two below 2048, three otherwise.
    Text in ASCII is its own representation, two strings have the same
    representation only if they are the same, and what the program does
    with strings (concatenating, testing for a suffix, comparing, sorting)
    is read on the representations; the facts are proved in the section on
    the order of names. *)

Definition code_units : Type := list N.

Definition well_formed (s : code_units) : Prop :=
  Forall (fun u => (u < 65536)%N) s.

Definition unit_chars (u : N) : string :=
  if (u <? 128)%N then String (ascii_of_N u) ""
  else if (u <? 2048)%N
  then String (ascii_of_N (192 + u / 64))
         (String (ascii_of_N (128 + u mod 64)) "")
  else String (ascii_of_N (224 + u / 64 / 64))
         (String (ascii_of_N (128 + (u / 64) mod 64))
            (String (ascii_of_N (128 + u mod 64)) "")).

Fixpoint js_string (s : code_units) : string :=
  match s with
  | [] => ""
  | u :: s' => unit_chars u ++ js_string s'
  end.

(** The comparison of [Array.prototype.sort] without a comparator: code
    unit by code unit, a proper prefix first. *)
Fixpoint units_compare (a b : code_units) : comparison :=
  match a, b with
  | [], [] => Eq
  | [], _ :: _ => Lt
  | _ :: _, [] => Gt
  | u :: a', v :: b' =>
      match (u ?= v)%N with
      | Eq => units_compare a' b'
      | c => c
      end
  end.

(** The bytes of a name on disk: its UTF-8 form, one character per byte.
    A high surrogate followed by a low one is one code point beyond U+FFFF
    and takes four bytes; every other code unit is a code point of its own
    (a surrogate on its own has no UTF-8 form and is written like the
    others). *)
Definition is_high_surrogate (u : N) : bool :=
  (55296 <=? u)%N && (u <? 56320)%N.
Definition is_low_surrogate (u : N) : bool :=
  (56320 <=? u)%N && (u <? 57344)%N.

Definition code_point (hi lo : N) : N :=
  (65536 + (hi - 55296) * 1024 + (lo - 56320))%N.

Definition supplementary_bytes (c : N) : string :=
  String (ascii_of_N (240 + c / 64 / 64 / 64))
    (String (ascii_of_N (128 + (c / 64 / 64) mod 64))
       (String (ascii_of_N (128 + (c / 64) mod 64))
          (String (ascii_of_N (128 + c mod 64)) ""))).

Fixpoint utf8 (s : code_units) : string :=
  match s with
  | [] => ""
  | u :: s' =>
      match s' with
      | l :: s'' =>
          if is_high_surrogate u && is_low_surrogate l
          then supplementary_bytes (code_point u l) ++ utf8 s''
          else unit_chars u ++ utf8 s'
      | [] => unit_chars u
      end
  end.

(** No code unit of the name is a surrogate: the name is within the Basic
    Multilingual Plane. *)
Definition in_bmp (s : code_units) : Prop :=
  Forall (fun u => is_high_surrogate u = false /\ is_low_surrogate u = false) s.

(** [x] comes before [y] in [l]. *)
Definition precedes (x y : string) (l : list string) : Prop :=
  exists l1 l2 l3, l = l1 ++ x :: l2 ++ y :: l3.

(* ------------------------------------------------------------------ *)
(** ** Sorting directory names: [Array.prototype.sort] without a comparator

    Without a comparator the elements are compared as strings, code unit by
    code unit; on the strings of this development that is
    [String_as_OT.compare] ([js_string_compare]).  The order is total and
    two names that compare equal are the same name, so every sorting
    algorithm returns the same list; insertion sort stands for the
    engine's. *)

Definition str_leb (a b : string) : bool :=
  match String_as_OT.compare a b with
  | Gt => false
  | _ => true
  end.

Fixpoint insert_sorted (x : string) (l : list string) : list string :=
  match l with
  | [] => [x]
  | y :: l' => if str_leb x y then x :: l else y :: insert_sorted x l'
  end.

Fixpoint sort (l : list string) : list string :=
  match l with
  | [] => []
  | x :: l' => insert_sorted x (sort l')
  end.

(* ------------------------------------------------------------------ *)
(** ** The environment *)

Record Dirent : Type := mkDirent {
  d_name : string;
  d_isDirectory : bool
}.

Record World : Type := mkWorld {
  (** [readdir(absoluteModulePath, { withFileTypes: true })] *)
  fs_readdir : Thrown + list Dirent;
  (** [readFile(join(absoluteModulePath, dir, "manifest.json"))] *)
  fs_readFile : string -> Thrown + string;
  (** [JSON.parse(text)] *)
  JSON_parse : string -> Thrown + Json;
  (** [existsSync(join(absoluteModulePath, dirName, entry))] *)
  fs_existsSync : string -> string -> bool;
  (** [(await import(path)).init] for the path made of a module name and
      its entry *)
  import_init : string -> string -> Thrown + InitExport;
  (** the value of the n-th reading of [Date.now()] *)
  clock : nat -> Z
}.

(* ------------------------------------------------------------------ *)
(** ** Program state and the monad of computations *)

Record State : Type := mkState {
  modules : Map ModuleInfo;
  initOrder : list string;
  setupTime : Z;
  isSetupComplete : bool;
  isSetupInProgress : bool;
  (** number of readings of the clock so far (environment, not program) *)
  clockReads : nat
}.

(** The state at process start and after [__resetState()]: everything the
    program owns is empty; only the environment's count of clock readings
    may differ. *)
Definition fresh_state (reads : nat) : State := mkState [] [] 0 false false reads.

Definition initial_state : State := fresh_state 0.

Inductive Outcome (A : Type) : Type :=
| Ok (a : A) (st : State)
| Throw (e : Thrown) (st : State).

Arguments Ok {A} a st.
Arguments Throw {A} e st.

Definition M (A : Type) : Type := State -> Outcome A.

Definition ret {A : Type} (a : A) : M A := fun st => Ok a st.

Definition bind {A B : Type} (m : M A) (f : A -> M B) : M B :=
  fun st =>
    match m st with
    | Ok a st' => f a st'
    | Throw e st' => Throw e st'
    end.

Definition throw {A : Type} (e : Thrown) : M A := fun st => Throw e st.

Definition try_catch {A : Type} (body : M A) (handler : Thrown -> M A) : M A :=
  fun st =>
    match body st with
    | Ok a st' => Ok a st'
    | Throw e st' => handler e st'
    end.

Definition lift {A : Type} (r : Thrown + A) : M A :=
  match r with
  | inl e => throw e
  | inr a => ret a
  end.

Definition modify (f : State -> State) : M unit := fun st => Ok tt (f st).

Declare Scope monad_scope.
Delimit Scope monad_scope with monad.
Notation "x <- m ;; k" := (bind m (fun x => k))
  (at level 61, m at next level, right associativity) : monad_scope.
Notation "m ;; k" := (bind m (fun _ => k))
  (at level 61, right associativity) : monad_scope.
Open Scope monad_scope.

(** [for (const x of l) acc = body(acc, x)] *)
Fixpoint foldM {A X : Type} (f : A -> X -> M A) (l : list X) (acc : A) : M A :=
  match l with
  | [] => ret acc
  | x :: l' => acc' <- f acc x ;; foldM f l' acc'
  end.

(** [for (const x of l) body(x)] *)
Fixpoint forM_ {X : Type} (f : X -> M unit) (l : list X) : M unit :=
  match l with
  | [] => ret tt
  | x :: l' => f x ;; forM_ f l'
  end.

(** The state an outcome leaves behind. *)
Definition state_of {A : Type} (o : Outcome A) : State :=
  match o with
  | Ok _ st => st
  | Throw _ st => st
  end.

Definition returns {A : Type} (o : Outcome A) : bool :=
  match o with
  | Ok _ _ => true
  | Throw _ _ => false
  end.

(* ------------------------------------------------------------------ *)
(** ** [modules.ts] *)

Definition orElse {A : Type} (a b : option A) : option A :=
  match a with
  | Some _ => a
  | None => b
  end.

(** [{ ...(old || {}), ...update }] *)
Definition merge (old : option ModuleInfo) (update : ModuleInfoUpdate)
  : ModuleInfo :=
  match old with
  | None =>
      mkModuleInfo (u_name update) (u_stage update) (u_success update)
        (u_manifest update) (u_error update) (u_initTime update)
  | Some o =>
      mkModuleInfo (orElse (u_name update) (name o)) (u_stage update)
        (u_success update) (orElse (u_manifest update) (manifest o))
        (orElse (u_error update) (error o))
        (orElse (u_initTime update) (initTime o))
  end.

Definition set_modules (m : Map ModuleInfo) (st : State) : State :=
  mkState m (initOrder st) (setupTime st) (isSetupComplete st)
    (isSetupInProgress st) (clockReads st).

Definition set_initOrder (l : list string) (st : State) : State :=
  mkState (modules st) l (setupTime st) (isSetupComplete st)
    (isSetupInProgress st) (clockReads st).

Definition set_setupTime (t : Z) (st : State) : State :=
  mkState (modules st) (initOrder st) t (isSetupComplete st)
    (isSetupInProgress st) (clockReads st).

Definition set_isSetupComplete (b : bool) (st : State) : State :=
  mkState (modules st) (initOrder st) (setupTime st) b
    (isSetupInProgress st) (clockReads st).

Definition set_isSetupInProgress (b : bool) (st : State) : State :=
  mkState (modules st) (initOrder st) (setupTime st) (isSetupComplete st)
    b (clockReads st).

Definition set_clockReads (n : nat) (st : State) : State :=
  mkState (modules st) (initOrder st) (setupTime st) (isSetupComplete st)
    (isSetupInProgress st) n.

Definition setModuleInfo_state (name : string) (update : ModuleInfoUpdate)
    (st : State) : State :=
  set_modules
    (map_set (modules st) name (merge (map_get (modules st) name) update)) st.

Definition setModuleInfo (name : string) (update : ModuleInfoUpdate) : M unit :=
  modify (setModuleInfo_state name update).

Section Pipeline.

Variable w : World.

Definition Date_now : M Z :=
  fun st => Ok (clock w (clockReads st)) (set_clockReads (S (clockReads st)) st).

Definition readdir : M (list Dirent) := lift (fs_readdir w).
Definition readFile (dir : string) : M string := lift (fs_readFile w dir).
Definition parse (text : string) : M Json := lift (JSON_parse w text).

(** The body of the [try] block of [discover] for one directory. *)
Definition discover_one (output : Map Json) (dir : string) : M (Map Json) :=
  manifestRaw <- readFile dir ;;
  parsed <- parse manifestRaw ;;
  let manifest := Object_freeze parsed in
  if negb (JsType_eqb (typeof (Some manifest)) TObject)
     || Array_isArray manifest
  then throw (ErrorObj "Error" "manifest JSON must be an object")
  else ret (map_set output dir manifest).

Definition discover : M (Map Json) :=
  ents <- readdir ;;
  let directories :=
    sort (map d_name (filter d_isDirectory ents)) in
  output <-
    foldM
      (fun output dir =>
         try_catch (discover_one output dir)
           (fun error =>
              setModuleInfo dir
                (mkUpdate (Some dir) discovery false None
                   (Some (Errors.ModuleDiscoveryError dir (Some error)))
                   None) ;;
              ret output))
      directories [] ;;
  forM_
    (fun '(name, manifest) =>
       setModuleInfo name
         (mkUpdate (Some name) discovery true (Some manifest) None None))
    output ;;
  ret output.

(** The chain of checks of [validate], once [name] and [entry] have been
    read from the manifest. *)
Definition validate_error (dirName : string) (name entry : JsValue)
  : option Errors.SetupError :=
  if negb (truthy name) || negb (JsType_eqb (typeof name) TString)
  then Some (Errors.ManifestMissingFieldError dirName "name")
  else if negb (truthy entry) || negb (JsType_eqb (typeof entry) TString)
  then Some (Errors.ManifestMissingFieldError dirName "entry")
  else if strict_neq_string name dirName
  then Some (Errors.ManifestNameMismatchError dirName (as_string name))
  else if truthy entry
          && negb (endsWith (as_string entry) ".ts"
                   || endsWith (as_string entry) ".js")
  then Some (Errors.ModuleValidationError dirName (as_string entry)
               (Some (ThrownValue
                        (JStr "Entrypoint must be TypeScript or JavaScript"))))
  else if truthy entry && negb (fs_existsSync w dirName (as_string entry))
  then Some (Errors.ManifestEntryNotFoundError dirName (as_string entry))
  else None.

(** [const { name, entry } = manifest] raises when [manifest] is [null]. *)
Definition destructuring_TypeError : Thrown :=
  ErrorObj "TypeError" "Cannot destructure property of null".

Definition validate (dirName : string) (manifest : Json) : M bool :=
  match get_prop manifest "name", get_prop manifest "entry" with
  | Some name, Some entry =>
      match validate_error dirName name entry with
      | Some error =>
          setModuleInfo dirName
            (mkUpdate None validation false None (Some error) None) ;;
          ret false
      | None =>
          setModuleInfo dirName
            (mkUpdate None validation true None None None) ;;
          ret true
      end
  | _, _ => throw destructuring_TypeError
  end.

(** [manifest.name] and [manifest.entry] of a validated manifest. *)
Definition manifest_name (manifest : Json) : string :=
  match get_prop manifest "name" with
  | Some v => as_string v
  | None => EmptyString
  end.

Definition manifest_entry (manifest : Json) : string :=
  match get_prop manifest "entry" with
  | Some v => as_string v
  | None => EmptyString
  end.

Definition load (manifest : Json) : M (option ModuleInit) :=
  match import_init w (manifest_name manifest) (manifest_entry manifest) with
  | inl error =>
      setModuleInfo (manifest_name manifest)
        (mkUpdate None loading false None
           (Some (Errors.ModuleLoadError (manifest_name manifest)
                    (Some error)))
           None) ;;
      ret None
  | inr (InitFunction init) =>
      setModuleInfo (manifest_name manifest)
        (mkUpdate None loading true None None None) ;;
      ret (Some init)
  | inr _ =>
      setModuleInfo (manifest_name manifest)
        (mkUpdate None loading false None
           (Some (Errors.EntryPointMissingInitError (manifest_name manifest)))
           None) ;;
      ret None
  end.

(** [await init()] *)
Definition await_init (init : ModuleInit) : M unit :=
  match init with
  | InitCompletes => ret tt
  | InitFails e => throw e
  end.

Definition initialize (name : string) (init : ModuleInit) : M unit :=
  try_catch
    (startDate <- Date_now ;;
     await_init init ;;
     now <- Date_now ;;
     let initTime := (now - startDate)%Z in
     modify (fun st => set_initOrder (initOrder st ++ [name]) st) ;;
     setModuleInfo name
       (mkUpdate None initialization true None None (Some initTime)))
    (fun error =>
       setModuleInfo name
         (mkUpdate None initialization false None
            (Some (Errors.ModuleInitializationError name (Some error)))
            None)).

Definition setup : M unit :=
  fun st =>
    if isSetupComplete st || isSetupInProgress st then Ok tt st
    else
      (modify (set_isSetupInProgress true) ;;
       startDate <- Date_now ;;
       discoveredModules <- discover ;;
       moduleManifests <-
         foldM
           (fun moduleManifests '(name, manifest) =>
              valid <- validate name manifest ;;
              ret (if valid : bool
                   then map_set moduleManifests name manifest
                   else moduleManifests))
           discoveredModules [] ;;
       moduleInits <-
         foldM
           (fun moduleInits '(name, manifest) =>
              init <- load manifest ;;
              ret (match init with
                   | Some f => map_set moduleInits name f
                   | None => moduleInits
                   end))
           moduleManifests [] ;;
       forM_ (fun '(name, init) => initialize name init) moduleInits ;;
       now <- Date_now ;;
       modify (set_setupTime (now - startDate)%Z) ;;
       modify (set_isSetupInProgress false) ;;
       modify (set_isSetupComplete true)) st.

End Pipeline.

(** *** Queries *)

Definition getManifests (st : State) : list (option Json) :=
  map manifest
    (filter (fun m => success m && stage_eqb (stage m) initialization)
       (map_values (modules st))).

Definition getReport (st : State) : ModuleSystemDiagnostics :=
  let moduleInfo := map_values (modules st) in
  mkDiagnostics
    (List.length moduleInfo)
    (List.length
       (filter
          (fun m =>
             (stage_eqb (stage m) validation && success m)
             || stage_eqb (stage m) loading
             || stage_eqb (stage m) initialization)
          moduleInfo))
    (List.length
       (filter
          (fun m =>
             (stage_eqb (stage m) loading && success m)
             || stage_eqb (stage m) initialization)
          moduleInfo))
    (List.length
       (filter (fun m => stage_eqb (stage m) initialization && success m)
          moduleInfo))
    (List.length (filter (fun m => negb (success m)) moduleInfo))
    (setupTime st)
    (map_values (modules st))
    (map error (filter (fun m => negb (success m)) moduleInfo)).

Definition getLoadOrder (st : State) : list string := initOrder st.

Definition isModuleSetUp (st : State) (moduleName : string) : bool :=
  match map_get (modules st) moduleName with
  | Some m => success m
  | None => false
  end.

Definition getModuleInfo (st : State) (moduleName : string)
  : option ModuleInfo :=
  map_get (modules st) moduleName.

(** [__resetState()]; [test_active] is [__test?.active]. *)
Definition __resetState (test_active : bool) : M unit :=
  if test_active then modify (fun st => fresh_state (clockReads st))
  else throw (ErrorObj "Error" "Not in a testing environment!").

(* ------------------------------------------------------------------ *)
(** ** Concrete environments used by the examples *)

Module Fixtures.

Definition q (s : string) : string := Errors.dquote ++ s ++ Errors.dquote.

(** The text of a manifest with the fields [name] and [entry]. *)
Definition manifest_text (name entry : string) : string :=
  "{" ++ q "name" ++ ":" ++ q name ++ "," ++ q "entry" ++ ":" ++ q entry ++ "}".

Definition manifest_object (name entry : string) : Json :=
  JObj false [("name", JStr name); ("entry", JStr entry)].

Definition ENOENT : Thrown := ErrorObj "Error" "ENOENT: no such file or directory".
Definition SyntaxError : Thrown := ErrorObj "SyntaxError" "Unexpected token".

(** A modules directory whose only subdirectory [a] holds a
    [manifest.json] with the text [null]. *)
Definition null_manifest_world : World :=
  mkWorld
    (inr [mkDirent "a" true])
    (fun dir => if String.eqb dir "a" then inr "null" else inl ENOENT)
    (fun text => if String.eqb text "null" then inr JNull else inl SyntaxError)
    (fun _ _ => false)
    (fun _ _ => inl ENOENT)
    (fun n => Z.of_nat n).

(** No modules directory at all: [readdir] rejects. *)
Definition missing_directory_world : World :=
  mkWorld
    (inl ENOENT)
    (fun _ => inl ENOENT)
    (fun _ => inl SyntaxError)
    (fun _ _ => false)
    (fun _ _ => inl ENOENT)
    (fun n => Z.of_nat n).

(** Four subdirectories and a plain file, listed out of order:
    - [alpha] and [gamma] are valid and their initializers complete;
    - [beta] is valid but its initializer throws;
    - [delta] declares an entry that does not exist;
    - [epsilon] has no manifest;
    - [README.md] is a file. *)
Definition mixed_world : World :=
  mkWorld
    (inr [mkDirent "gamma" true; mkDirent "README.md" false;
          mkDirent "alpha" true; mkDirent "epsilon" true;
          mkDirent "delta" true; mkDirent "beta" true])
    (fun dir =>
       if String.eqb dir "alpha" then inr (manifest_text "alpha" "index.ts")
       else if String.eqb dir "beta" then inr (manifest_text "beta" "index.ts")
       else if String.eqb dir "gamma" then inr (manifest_text "gamma" "main.js")
       else if String.eqb dir "delta" then inr (manifest_text "delta" "index.ts")
       else inl ENOENT)
    (fun text =>
       if String.eqb text (manifest_text "alpha" "index.ts")
       then inr (manifest_object "alpha" "index.ts")
       else if String.eqb text (manifest_text "beta" "index.ts")
       then inr (manifest_object "beta" "index.ts")
       else if String.eqb text (manifest_text "gamma" "main.js")
       then inr (manifest_object "gamma" "main.js")
       else if String.eqb text (manifest_text "delta" "index.ts")
       then inr (manifest_object "delta" "index.ts")
       else inl SyntaxError)
    (fun dir entry =>
       (String.eqb dir "alpha" && String.eqb entry "index.ts")
       || (String.eqb dir "beta" && String.eqb entry "index.ts")
       || (String.eqb dir "gamma" && String.eqb entry "main.js"))
    (fun name entry =>
       if String.eqb name "alpha" then inr (InitFunction InitCompletes)
       else if String.eqb name "beta"
       then inr (InitFunction (InitFails (ErrorObj "Error" "boom")))
       else if String.eqb name "gamma" then inr (InitFunction InitCompletes)
       else inl ENOENT)
    (fun n => Z.of_nat (10 * n)).

End Fixtures.

(* ------------------------------------------------------------------ *)
(** ** Facts about insertion-ordered maps *)

Section MapFacts.

Context {V : Type}.
Implicit Types (m : Map V) (k : string) (v : V).

Lemma map_get_set_same m k v : map_get (map_set m k v) k = Some v.
Proof.
  unfold map_get, map_set.
  induction m as [|[k' v'] m IH]; simpl.
  - now rewrite String.eqb_refl.
  - destruct (String.eqb k k') eqn:E; simpl; rewrite E; auto.
Qed.

Lemma map_get_set_other m k k' v :
  k <> k' -> map_get (map_set m k v) k' = map_get m k'.
Proof.
  unfold map_get, map_set. intros Hne.
  induction m as [|[k0 v0] m IH]; simpl.
  - destruct (String.eqb k' k) eqn:E; auto.
    apply String.eqb_eq in E. congruence.
  - destruct (String.eqb k k0) eqn:E; simpl.
    + apply String.eqb_eq in E; subst k0.
      destruct (String.eqb k' k) eqn:E'; auto.
      apply String.eqb_eq in E'. congruence.
    + destruct (String.eqb k' k0); auto.
Qed.

Lemma map_get_None m k : map_get m k = None <-> ~ In k (map_keys m).
Proof.
  unfold map_get, map_keys.
  induction m as [|[k' v'] m IH]; simpl.
  - tauto.
  - destruct (String.eqb k k') eqn:E.
    + apply String.eqb_eq in E; subst. split; [discriminate | tauto].
    + apply String.eqb_neq in E. rewrite IH. split.
      * intros H [H'|H']; [congruence | tauto].
      * tauto.
Qed.

Lemma map_get_In m k v : map_get m k = Some v -> In (k, v) m.
Proof.
  unfold map_get.
  induction m as [|[k' v'] m IH]; simpl; [discriminate|].
  destruct (String.eqb k k') eqn:E.
  - apply String.eqb_eq in E; subst. intros [= ->]. now left.
  - auto.
Qed.

Lemma map_get_Some_key m k v : map_get m k = Some v -> In k (map_keys m).
Proof.
  intros H. apply map_get_In in H. unfold map_keys.
  change k with (fst (k, v)). now apply in_map.
Qed.

Lemma In_map_get m k v :
  NoDup (map_keys m) -> In (k, v) m -> map_get m k = Some v.
Proof.
  unfold map_get, map_keys.
  induction m as [|[k' v'] m IH]; simpl; [tauto|].
  intros Hnd [H|H].
  - injection H as -> ->. now rewrite String.eqb_refl.
  - inversion Hnd as [|? ? Hnot Hnd']; subst.
    destruct (String.eqb k k') eqn:E.
    + apply String.eqb_eq in E; subst. exfalso. apply Hnot.
      change k' with (fst (k', v)). now apply in_map.
    + auto.
Qed.

(** Setting an absent key appends the binding. *)
Lemma map_set_fresh m k v :
  ~ In k (map_keys m) -> map_set m k v = m ++ [(k, v)].
Proof.
  unfold map_set, map_keys.
  induction m as [|[k' v'] m IH]; simpl; intros H; auto.
  destruct (String.eqb k k') eqn:E.
  - apply String.eqb_eq in E. subst. tauto.
  - f_equal. apply IH. tauto.
Qed.

(** Setting a present key keeps the keys and their order. *)
Lemma map_keys_set_present m k v :
  In k (map_keys m) -> map_keys (map_set m k v) = map_keys m.
Proof.
  unfold map_set, map_keys.
  induction m as [|[k' v'] m IH]; simpl; [tauto|].
  intros H. destruct (String.eqb k k') eqn:E; simpl; auto.
  f_equal. apply IH. destruct H as [H|H]; auto.
  apply String.eqb_neq in E. congruence.
Qed.

Lemma map_keys_set m k v :
  forall k', In k' (map_keys (map_set m k v)) <-> k' = k \/ In k' (map_keys m).
Proof.
  intros k'. destruct (in_dec string_dec k (map_keys m)) as [Hin|Hnin].
  - rewrite map_keys_set_present by assumption.
    split; [tauto|]. intros [->|H]; auto.
  - rewrite map_set_fresh by assumption. unfold map_keys.
    rewrite map_app, in_app_iff. simpl. intuition.
Qed.

Lemma map_set_NoDup m k v :
  NoDup (map_keys m) -> NoDup (map_keys (map_set m k v)).
Proof.
  intros Hnd. destruct (in_dec string_dec k (map_keys m)) as [Hin|Hnin].
  - now rewrite map_keys_set_present.
  - rewrite map_set_fresh by assumption. unfold map_keys in *.
    rewrite map_app. simpl.
    apply NoDup_app; auto.
    + repeat constructor. simpl. tauto.
    + intros x Hx [<-|[]]. tauto.
Qed.

End MapFacts.

(* ------------------------------------------------------------------ *)
(** ** The manifest validator *)

Lemma truthy_string (s : string) :
  s <> EmptyString -> truthy (Some (JStr s)) = true.
Proof.
  intros H. simpl. apply String.eqb_neq in H. now rewrite H.
Qed.

Lemma getModuleInfo_setModuleInfo (st : State) (k : string) (u : ModuleInfoUpdate) :
  getModuleInfo (setModuleInfo_state k u st) k
  = Some (merge (getModuleInfo st k) u).
Proof.
  unfold getModuleInfo, setModuleInfo_state. simpl. apply map_get_set_same.
Qed.

Lemma getModuleInfo_setModuleInfo_other (st : State) (k k' : string)
    (u : ModuleInfoUpdate) :
  k <> k' ->
  getModuleInfo (setModuleInfo_state k u st) k' = getModuleInfo st k'.
Proof.
  unfold getModuleInfo, setModuleInfo_state. simpl. apply map_get_set_other.
Qed.

Lemma merge_stage old u : stage (merge old u) = u_stage u.
Proof. destruct old; reflexivity. Qed.

Lemma merge_success old u : success (merge old u) = u_success u.
Proof. destruct old; reflexivity. Qed.

Lemma merge_error old u e : u_error u = Some e -> error (merge old u) = Some e.
Proof. destruct old; simpl; intros ->; reflexivity. Qed.

(** [validate] returns [false] and leaves for [dirName] a validation-failure
    record whose error has class [c]. *)
Definition validation_fails_with (w : World) (dirName : string)
    (manifest : Json) (st : State) (c : Errors.ErrorClass) : Prop :=
  exists st' r e,
    validate w dirName manifest st = Ok false st'
    /\ getModuleInfo st' dirName = Some r
    /\ stage r = validation
    /\ success r = false
    /\ error r = Some e
    /\ Errors.class e = c.

(** What [validate] does when the chain of checks yields an error. *)
Lemma validate_error_recorded (w : World) (dirName : string) (manifest : Json)
    (st : State) (nm en : JsValue) (e : Errors.SetupError) :
  get_prop manifest "name" = Some nm ->
  get_prop manifest "entry" = Some en ->
  validate_error w dirName nm en = Some e ->
  validation_fails_with w dirName manifest st (Errors.class e).
Proof.
  intros Hn He Hv.
  exists (setModuleInfo_state dirName
            (mkUpdate None validation false None (Some e) None) st).
  eexists. exists e.
  unfold validate. rewrite Hn, He, Hv.
  split; [reflexivity|].
  split; [apply getModuleInfo_setModuleInfo|].
  rewrite merge_stage, merge_success.
  repeat split; auto. now apply merge_error.
Qed.

(** C4, as the code has it: a non-empty [name] that differs from the
    directory name, in a manifest whose [entry] is a non-empty string, makes
    [validate] return [false] and record a [ManifestNameMismatchError]. *)
Theorem validate_name_mismatch (w : World) (st : State)
    (dirName nm en : string) (manifest : Json) :
  get_prop manifest "name" = Some (Some (JStr nm)) ->
  get_prop manifest "entry" = Some (Some (JStr en)) ->
  nm <> EmptyString ->
  en <> EmptyString ->
  nm <> dirName ->
  validation_fails_with w dirName manifest st Errors.CManifestNameMismatchError.
Proof.
  intros Hn He Hnm Hen Hneq.
  apply (validate_error_recorded w dirName manifest st _ _
           (Errors.ManifestNameMismatchError dirName nm) Hn He).
  unfold validate_error.
  rewrite (truthy_string nm Hnm), (truthy_string en Hen). simpl.
  apply String.eqb_neq in Hneq. now rewrite Hneq.
Qed.

Lemma validate_name_mismatch_witness :
  validation_fails_with Fixtures.mixed_world "name-mismatch"
    (Fixtures.manifest_object "different-name" "index.ts") initial_state
    Errors.CManifestNameMismatchError.
Proof.
  apply (validate_name_mismatch Fixtures.mixed_world initial_state
           "name-mismatch" "different-name" "index.ts");
    first [reflexivity | discriminate].
Defined.

(** The claim of C4 read literally fails: an empty [name] differs from the
    directory name [a], yet the failure recorded is a missing-field error,
    because the presence checks come first. *)
Lemma validate_name_mismatch_counterexample :
  EmptyString <> "a"
  /\ validation_fails_with Fixtures.mixed_world "a"
       (Fixtures.manifest_object EmptyString "index.ts") initial_state
       Errors.CManifestMissingFieldError
  /\ ~ validation_fails_with Fixtures.mixed_world "a"
       (Fixtures.manifest_object EmptyString "index.ts") initial_state
       Errors.CManifestNameMismatchError.
Proof.
  split; [discriminate|]. split.
  - eapply (validate_error_recorded _ _ _ _ _ _
              (Errors.ManifestMissingFieldError "a" "name"));
      reflexivity.
  - intros (st' & r & e & Hv & Hg & _ & _ & He & Hc).
    vm_compute in Hv. injection Hv as <-.
    vm_compute in Hg. injection Hg as <-.
    simpl in He. injection He as <-. discriminate Hc.
Qed.

(** The same precedence with a missing [entry]: the mismatching name is
    reported as a missing [entry] field. *)
Example validate_mismatch_without_entry :
  validation_fails_with Fixtures.mixed_world "test-module-1.5"
    (JObj false [("name", JStr "different-name")]) initial_state
    Errors.CManifestMissingFieldError.
Proof.
  eapply (validate_error_recorded _ _ _ _ _ _
            (Errors.ManifestMissingFieldError "test-module-1.5" "entry"));
    reflexivity.
Qed.

(** C5, as the code has it: when [name] is the directory name and [entry] is
    a non-empty string that ends neither in [.ts] nor in [.js], [validate]
    returns [false] and records a plain [ModuleValidationError]; the outcome
    is the same in every environment, so it does not depend on whether the
    entry file exists. *)
Theorem validate_extension_gate (w : World) (st : State)
    (dirName en : string) (manifest : Json) :
  get_prop manifest "name" = Some (Some (JStr dirName)) ->
  get_prop manifest "entry" = Some (Some (JStr en)) ->
  dirName <> EmptyString ->
  en <> EmptyString ->
  endsWith en ".ts" = false ->
  endsWith en ".js" = false ->
  validation_fails_with w dirName manifest st Errors.CModuleValidationError
  /\ forall w' : World,
       validate w' dirName manifest st = validate w dirName manifest st.
Proof.
  intros Hn He Hnm Hen Hts Hjs.
  assert (Hv : forall w0, validate_error w0 dirName (Some (JStr dirName))
                 (Some (JStr en))
               = Some (Errors.ModuleValidationError dirName en
                   (Some (ThrownValue
                      (JStr "Entrypoint must be TypeScript or JavaScript"))))).
  { intros w0. unfold validate_error.
    rewrite (truthy_string dirName Hnm), (truthy_string en Hen). simpl.
    rewrite String.eqb_refl. simpl. rewrite Hts, Hjs. reflexivity. }
  split.
  - apply (validate_error_recorded w dirName manifest st _ _ _ Hn He (Hv w)).
  - intros w'. unfold validate. rewrite Hn, He, (Hv w), (Hv w'). reflexivity.
Qed.

Lemma validate_extension_gate_witness :
  validation_fails_with Fixtures.mixed_world "alpha"
    (Fixtures.manifest_object "alpha" "index.py") initial_state
    Errors.CModuleValidationError
  /\ forall w' : World,
       validate w' "alpha" (Fixtures.manifest_object "alpha" "index.py")
         initial_state
       = validate Fixtures.mixed_world "alpha"
           (Fixtures.manifest_object "alpha" "index.py") initial_state.
Proof.
  apply (validate_extension_gate Fixtures.mixed_world initial_state
           "alpha" "index.py");
    first [reflexivity | discriminate].
Defined.

(** The claim of C5 read literally fails: [index.py] has no recognized
    extension, but in a manifest whose [name] is not the directory name the
    failure recorded is the name mismatch, which is checked first. *)
Lemma validate_extension_gate_counterexample :
  endsWith "index.py" ".ts" = false
  /\ endsWith "index.py" ".js" = false
  /\ validation_fails_with Fixtures.mixed_world "alpha"
       (Fixtures.manifest_object "other" "index.py") initial_state
       Errors.CManifestNameMismatchError
  /\ ~ validation_fails_with Fixtures.mixed_world "alpha"
       (Fixtures.manifest_object "other" "index.py") initial_state
       Errors.CModuleValidationError.
Proof.
  split; [reflexivity|]. split; [reflexivity|]. split.
  - eapply (validate_error_recorded _ _ _ _ _ _
              (Errors.ManifestNameMismatchError "alpha" "other"));
      reflexivity.
  - intros (st' & r & e & Hv & Hg & _ & _ & He & Hc).
    vm_compute in Hv. injection Hv as <-.
    vm_compute in Hg. injection Hg as <-.
    simpl in He. injection He as <-. discriminate Hc.
Qed.

(** An empty [entry] is not an extension violation either: it is reported
    as a missing field. *)
Example validate_empty_entry :
  validation_fails_with Fixtures.mixed_world "alpha"
    (Fixtures.manifest_object "alpha" EmptyString) initial_state
    Errors.CManifestMissingFieldError.
Proof.
  eapply (validate_error_recorded _ _ _ _ _ _
            (Errors.ManifestMissingFieldError "alpha" "entry"));
    reflexivity.
Qed.

(** In the extension case the source calls
    [new ModuleValidationError(dirName, entry, text)] on a constructor whose
    parameters are [(message, module, cause)]; the record shows where each
    argument lands. *)
Example extension_error_fields :
  validate_error Fixtures.mixed_world "alpha" (Some (JStr "alpha"))
    (Some (JStr "index.py"))
  = Some (Errors.mkSetupError Errors.CModuleValidationError "alpha" "index.py"
            validation
            (Some (ThrownValue
                     (JStr "Entrypoint must be TypeScript or JavaScript")))).
Proof. reflexivity. Qed.

(* ------------------------------------------------------------------ *)
(** ** The diagnostics report *)

(** The counts as the specification words them. *)
Module ReportSpec.






End ReportSpec.

Lemma stage_eqb_eq (a b : ModuleSetupStage) : stage_eqb a b = true <-> a = b.
Proof. destruct a, b; simpl; split; intros H; try reflexivity; discriminate. Qed.


(** The cumulative counts decrease along the pipeline. *)
Lemma getReport_counts_monotone (st : State) :
  initialized (getReport st) <= loaded (getReport st)
  /\ loaded (getReport st) <= validated (getReport st)
  /\ validated (getReport st) <= discovered (getReport st).
Proof.
  unfold getReport; simpl.
  induction (map_values (modules st)) as [|m l IH]; simpl; [lia|].
  destruct (stage m), (success m); simpl; lia.
Qed.

(* ------------------------------------------------------------------ *)
(** ** A Hoare logic for the monad *)

(** [hoare P m Q E]: from a state satisfying [P], [m] either returns [a] in
    a state satisfying [Q a], or throws [e] in a state satisfying [E e]. *)
Definition hoare {A : Type} (P : State -> Prop) (m : M A)
    (Q : A -> State -> Prop) (E : Thrown -> State -> Prop) : Prop :=
  forall st, P st ->
    match m st with
    | Ok a st' => Q a st'
    | Throw e st' => E e st'
    end.

Section HoareRules.

Context {A B : Type}.

Lemma hoare_ret (P : State -> Prop) (a : A) Q E :
  (forall st, P st -> Q a st) -> hoare P (ret a) Q E.
Proof. intros H st HP. simpl. auto. Qed.

Lemma hoare_throw (P : State -> Prop) (e : Thrown) (Q : A -> State -> Prop) E :
  (forall st, P st -> E e st) -> hoare P (throw e) Q E.
Proof. intros H st HP. simpl. auto. Qed.

Lemma hoare_bind (P : State -> Prop) (m : M A) (f : A -> M B)
    (R : A -> State -> Prop) (Q : B -> State -> Prop) E :
  hoare P m R E ->
  (forall a, hoare (R a) (f a) Q E) ->
  hoare P (bind m f) Q E.
Proof.
  intros Hm Hf st HP. unfold bind. specialize (Hm st HP).
  destruct (m st) as [a st'|e st']; auto. now apply Hf.
Qed.

Lemma hoare_try_catch (P : State -> Prop) (body : M A)
    (handler : Thrown -> M A) (Q : A -> State -> Prop)
    (R : Thrown -> State -> Prop) E :
  hoare P body Q R ->
  (forall e, hoare (R e) (handler e) Q E) ->
  hoare P (try_catch body handler) Q E.
Proof.
  intros Hb Hh st HP. unfold try_catch. specialize (Hb st HP).
  destruct (body st) as [a st'|e st']; auto. now apply Hh.
Qed.

Lemma hoare_weaken (P P' : State -> Prop) (m : M A)
    (Q Q' : A -> State -> Prop) (E E' : Thrown -> State -> Prop) :
  hoare P' m Q' E' ->
  (forall st, P st -> P' st) ->
  (forall a st, Q' a st -> Q a st) ->
  (forall e st, E' e st -> E e st) ->
  hoare P m Q E.
Proof.
  intros H HP HQ HE st Hst. specialize (H st (HP st Hst)).
  destruct (m st); auto.
Qed.

Lemma hoare_lift (P : State -> Prop) (r : Thrown + A) Q E :
  (forall st a, P st -> r = inr a -> Q a st) ->
  (forall st e, P st -> r = inl e -> E e st) ->
  hoare P (lift r) Q E.
Proof. intros HQ HE st HP. destruct r; simpl; auto. Qed.

End HoareRules.

Lemma hoare_modify (P : State -> Prop) (f : State -> State) Q E :
  (forall st, P st -> Q tt (f st)) -> hoare P (modify f) Q E.
Proof. intros H st HP. simpl. auto. Qed.

(** Loops: the invariant is indexed by the elements still to visit. *)
Lemma hoare_foldM {A X : Type} (f : A -> X -> M A)
    (I : list X -> A -> State -> Prop) (E : Thrown -> State -> Prop) :
  (forall x rest acc,
      hoare (I (x :: rest) acc) (f acc x) (fun acc' => I rest acc') E) ->
  forall l acc, hoare (I l acc) (foldM f l acc) (fun acc' => I [] acc') E.
Proof.
  intros Hstep l. induction l as [|x l IH]; intros acc.
  - apply hoare_ret. auto.
  - simpl. eapply hoare_bind; [apply Hstep|]. intros acc'. apply IH.
Qed.

Lemma hoare_forM_ {X : Type} (f : X -> M unit)
    (I : list X -> State -> Prop) (E : Thrown -> State -> Prop) :
  (forall x rest, hoare (I (x :: rest)) (f x) (fun _ => I rest) E) ->
  forall l, hoare (I l) (forM_ f l) (fun _ => I []) E.
Proof.
  intros Hstep l. induction l as [|x l IH].
  - apply hoare_ret. auto.
  - simpl. eapply hoare_bind; [apply Hstep|]. intros ?. apply IH.
Qed.

(* ------------------------------------------------------------------ *)
(** ** Sorted lists of names *)

Definition str_lt : string -> string -> Prop := String_as_OT.lt.
Definition str_le (a b : string) : Prop := str_lt a b \/ a = b.

Lemma str_lt_irrefl (a : string) : ~ str_lt a a.
Proof. apply (StrictOrder_Irreflexive (R := String_as_OT.lt)). Qed.

Lemma str_lt_trans (a b c : string) : str_lt a b -> str_lt b c -> str_lt a c.
Proof. apply (StrictOrder_Transitive (R := String_as_OT.lt)). Qed.

Lemma str_le_trans (a b c : string) : str_le a b -> str_le b c -> str_le a c.
Proof.
  intros [H1| ->] [H2| ->]; unfold str_le; auto.
  left. eapply str_lt_trans; eauto.
Qed.

Lemma str_leb_le (a b : string) : str_leb a b = true -> str_le a b.
Proof.
  unfold str_leb, str_le, str_lt.
  destruct (String_as_OT.compare_spec a b); auto; discriminate.
Qed.

Lemma str_leb_false (a b : string) : str_leb a b = false -> str_le b a.
Proof.
  unfold str_leb, str_le, str_lt.
  destruct (String_as_OT.compare_spec a b); auto; discriminate.
Qed.

Lemma In_insert_sorted (x y : string) (l : list string) :
  In y (insert_sorted x l) <-> y = x \/ In y l.
Proof.
  induction l as [|z l IH]; simpl.
  - intuition.
  - destruct (str_leb x z); simpl; [intuition|]. rewrite IH. intuition.
Qed.

Lemma In_sort (x : string) (l : list string) : In x (sort l) <-> In x l.
Proof.
  induction l as [|y l IH]; simpl; [tauto|].
  rewrite In_insert_sorted, IH. intuition.
Qed.

Lemma insert_sorted_sorted (x : string) (l : list string) :
  StronglySorted str_le l -> StronglySorted str_le (insert_sorted x l).
Proof.
  induction l as [|y l IH]; simpl; intros Hs.
  - repeat constructor.
  - inversion Hs as [|? ? Hs' Hall]; subst.
    destruct (str_leb x y) eqn:E.
    + apply str_leb_le in E. constructor; auto. constructor; auto.
      eapply Forall_impl; [|exact Hall]. intros z Hz.
      eapply str_le_trans; eauto.
    + apply str_leb_false in E. constructor; auto.
      apply Forall_forall. intros z Hz. apply In_insert_sorted in Hz.
      destruct Hz as [->|Hz]; auto.
      rewrite Forall_forall in Hall. auto.
Qed.

Lemma sort_sorted (l : list string) : StronglySorted str_le (sort l).
Proof.
  induction l as [|x l IH]; simpl; [constructor|].
  now apply insert_sorted_sorted.
Qed.

Lemma StronglySorted_app {T : Type} (R : T -> T -> Prop) (l1 l2 : list T) :
  StronglySorted R (l1 ++ l2) <->
  StronglySorted R l1 /\ StronglySorted R l2
  /\ (forall x y, In x l1 -> In y l2 -> R x y).
Proof.
  induction l1 as [|a l1 IH]; simpl.
  - split; [intros H; repeat split; auto; try constructor; tauto | tauto].
  - split.
    + intros H. inversion H as [|? ? Hs Hall]; subst.
      apply IH in Hs. destruct Hs as (H1 & H2 & H3).
      rewrite Forall_app in Hall. destruct Hall as [Ha1 Ha2].
      repeat split; auto.
      * constructor; auto.
      * intros x y [->|Hx] Hy; auto.
        rewrite Forall_forall in Ha2. auto.
    + intros (H1 & H2 & H3). inversion H1 as [|? ? Hs Hall]; subst.
      constructor.
      * apply IH. repeat split; auto.
      * rewrite Forall_app. split; auto.
        apply Forall_forall. intros y Hy. apply H3; auto.
Qed.

(** In a strictly sorted list [done ++ k :: rest], the name [k] occurs
    nowhere else, and it may be dropped or moved to the end of [done]. *)
Lemma sorted_middle (done rest : list string) (k : string) :
  StronglySorted str_lt (done ++ k :: rest) ->
  ~ In k done /\ ~ In k rest
  /\ StronglySorted str_lt (done ++ rest)
  /\ StronglySorted str_lt ((done ++ [k]) ++ rest).
Proof.
  intros H. assert (H' := H).
  apply StronglySorted_app in H. destruct H as (H1 & H2 & H3).
  inversion H2 as [|? ? Hs Hall]; subst. rewrite Forall_forall in Hall.
  repeat split.
  - intros Hin. apply (str_lt_irrefl k). apply H3; simpl; auto.
  - intros Hin. apply (str_lt_irrefl k). auto.
  - apply StronglySorted_app. repeat split; auto.
    intros x y Hx Hy. apply H3; simpl; auto.
  - now rewrite <- app_assoc.
Qed.

Lemma StronglySorted_NoDup (l : list string) :
  StronglySorted str_lt l -> NoDup l.
Proof.
  induction 1 as [|a l Hs IH Hall]; constructor; auto.
  intros Hin. rewrite Forall_forall in Hall.
  apply (str_lt_irrefl a). auto.
Qed.

Section MapPairs.

Context {V : Type}.
Implicit Types (m : Map V) (k : string) (v : V).

Lemma In_map_set_new m k v : In (k, v) (map_set m k v).
Proof.
  unfold map_set. induction m as [|[k' v'] m IH]; simpl; auto.
  destruct (String.eqb k k') eqn:E; simpl; auto.
  apply String.eqb_eq in E. subst. auto.
Qed.

Lemma In_map_set_old m k v k' v' :
  k' <> k -> In (k', v') m -> In (k', v') (map_set m k v).
Proof.
  unfold map_set. intros Hne.
  induction m as [|[k0 v0] m IH]; simpl; [tauto|].
  intros [H|H]; destruct (String.eqb k k0) eqn:E; simpl; auto.
  apply String.eqb_eq in E. subst. injection H as -> ->. congruence.
Qed.

Lemma In_map_set_inv m k v k' v' :
  In (k', v') (map_set m k v) -> (k' = k /\ v' = v) \/ In (k', v') m.
Proof.
  unfold map_set.
  induction m as [|[k0 v0] m IH]; simpl.
  - intros [H|[]]. injection H as -> ->. auto.
  - destruct (String.eqb k k0) eqn:E; simpl.
    + apply String.eqb_eq in E. subst.
      intros [H|H]; [injection H as -> ->|]; auto.
    + intros [H|H]; auto. destruct (IH H); auto.
Qed.

Lemma In_map_keys m k v : In (k, v) m -> In k (map_keys m).
Proof.
  intros H. unfold map_keys. change k with (fst (k, v)). now apply in_map.
Qed.

Lemma map_keys_set_fresh m k v :
  ~ In k (map_keys m) -> map_keys (map_set m k v) = map_keys m ++ [k].
Proof.
  intros H. rewrite map_set_fresh by assumption.
  unfold map_keys. now rewrite map_app.
Qed.

End MapPairs.

(* ------------------------------------------------------------------ *)
(** ** What each stage decides, as functions of the environment *)

Section Stages.

Variable w : World.

(** The sorted names of the subdirectories ([[]] when [readdir] fails). *)
Definition directories : list string :=
  match fs_readdir w with
  | inr ents => sort (map d_name (filter d_isDirectory ents))
  | inl _ => []
  end.

(** The outcome of the [try] block of [discover] for the directory [d]:
    the frozen manifest it accepts, or the error it raises. *)
Definition parsed_manifest (d : string) : Thrown + Json :=
  match fs_readFile w d with
  | inl e => inl e
  | inr raw =>
      match JSON_parse w raw with
      | inl e => inl e
      | inr parsed =>
          let manifest := Object_freeze parsed in
          if negb (JsType_eqb (typeof (Some manifest)) TObject)
             || Array_isArray manifest
          then inl (ErrorObj "Error" "manifest JSON must be an object")
          else inr manifest
      end
  end.

Lemma discover_one_eq (output : Map Json) (d : string) (st : State) :
  discover_one w output d st
  = match parsed_manifest d with
    | inl e => Throw e st
    | inr m => Ok (map_set output d m) st
    end.
Proof.
  unfold discover_one, parsed_manifest, readFile, parse, bind.
  destruct (fs_readFile w d) as [e|raw]; simpl; auto.
  destruct (JSON_parse w raw) as [e|parsed]; simpl; auto.
  destruct (negb _ || _); reflexivity.
Qed.

Lemma parsed_manifest_frozen (d : string) (m : Json) :
  parsed_manifest d = inr m -> Object_isFrozen m = true.
Proof.
  unfold parsed_manifest.
  destruct (fs_readFile w d) as [e|raw]; [discriminate|].
  destruct (JSON_parse w raw) as [e|parsed]; [discriminate|].
  simpl. destruct (negb _ || _); [discriminate|].
  intros [= <-]. destruct parsed; reflexivity.
Qed.

(** [validate] passes the manifest [m] of directory [d]. *)
Definition validates (d : string) (m : Json) : bool :=
  match get_prop m "name", get_prop m "entry" with
  | Some nm, Some en =>
      match validate_error w d nm en with
      | None => true
      | Some _ => false
      end
  | _, _ => false
  end.

(** [load] obtains an initializer from the manifest [m]. *)
Definition loads (m : Json) : option ModuleInit :=
  match import_init w (manifest_name m) (manifest_entry m) with
  | inr (InitFunction f) => Some f
  | _ => None
  end.

Definition completes (f : ModuleInit) : bool :=
  match f with
  | InitCompletes => true
  | InitFails _ => false
  end.

Definition isSome {T : Type} (o : option T) : bool :=
  match o with
  | Some _ => true
  | None => false
  end.

(** A validated manifest carries the directory name as its [name]. *)
Lemma validates_name (d : string) (m : Json) :
  validates d m = true -> manifest_name m = d.
Proof.
  unfold validates, manifest_name.
  destruct (get_prop m "name") as [nm|]; [|discriminate].
  destruct (get_prop m "entry") as [en|]; [|discriminate].
  unfold validate_error.
  destruct (negb (truthy nm) || _); [discriminate|].
  destruct (negb (truthy en) || _); [discriminate|].
  destruct nm as [[| | |s| |]|]; simpl; try discriminate.
  destruct (String.eqb s d) eqn:E; simpl; [|discriminate].
  intros _. now apply String.eqb_eq.
Qed.

(** [st'] is [st] with one record written for [k] by [setModuleInfo], at
    stage [s] with outcome [b], the update carrying no manifest. *)
Definition registers (st st' : State) (k : string) (s : ModuleSetupStage)
    (b : bool) : Prop :=
  exists u,
    modules st' = modules (setModuleInfo_state k u st)
    /\ u_stage u = s /\ u_success u = b /\ u_manifest u = None.

Lemma validate_Ok (d : string) (m : Json) (st st' : State) (b : bool) :
  validate w d m st = Ok b st' ->
  b = validates d m
  /\ registers st st' d validation b
  /\ initOrder st' = initOrder st.
Proof.
  unfold validate, validates.
  destruct (get_prop m "name") as [nm|]; [|discriminate].
  destruct (get_prop m "entry") as [en|]; [|discriminate].
  destruct (validate_error w d nm en) as [e|]; simpl;
    intros [= <- <-]; (split; [reflexivity|]); (split; [|reflexivity]);
    eexists; (split; [reflexivity|]); simpl; auto.
Qed.

Lemma validate_Throw (d : string) (m : Json) (st st' : State) (e : Thrown) :
  validate w d m st = Throw e st' -> m = JNull /\ st' = st.
Proof.
  unfold validate.
  destruct (get_prop m "name") as [nm|] eqn:En;
    [destruct (get_prop m "entry") as [en|] eqn:Ee|].
  - destruct (validate_error w d nm en); discriminate.
  - destruct m; discriminate.
  - intros [= _ <-]. destruct m; try discriminate. auto.
Qed.

Lemma load_Ok (m : Json) (st : State) :
  exists st',
    load w m st = Ok (loads m) st'
    /\ registers st st' (manifest_name m) loading (isSome (loads m))
    /\ initOrder st' = initOrder st.
Proof.
  unfold load, loads.
  destruct (import_init w _ _) as [e|[|v|f]]; simpl;
    eexists; (split; [reflexivity|]); (split; [|reflexivity]);
    eexists; (split; [reflexivity|]); simpl; auto.
Qed.

Lemma initialize_Ok (k : string) (f : ModuleInit) (st : State) :
  exists st',
    initialize w k f st = Ok tt st'
    /\ registers st st' k initialization (completes f)
    /\ initOrder st'
       = if completes f then initOrder st ++ [k] else initOrder st.
Proof.
  unfold initialize.
  destruct f as [|e]; simpl;
    eexists; (split; [reflexivity|]); (split; [|reflexivity]);
    eexists; (split; [reflexivity|]); simpl; auto.
Qed.

(** *** The invariant carried through the stages *)

(** The record [discover] writes for a directory whose manifest it refuses
    with the error [e]. *)
Definition discovery_failure_record (k : string) (e : Thrown) : ModuleInfo :=
  mkModuleInfo (Some k) discovery false None
    (Some (Errors.ModuleDiscoveryError k (Some e))) None.

(** The record [r] of the module [k] agrees with the environment: it carries
    the manifest that discovery froze, every stage before [stage r] passed
    for [k], and [stage r] itself ended as [success r] tells. *)
Definition record_ok (k : string) (r : ModuleInfo) : Prop :=
  match stage r with
  | discovery =>
      if success r
      then exists m, parsed_manifest k = inr m /\ manifest r = Some m
      else exists e,
             parsed_manifest k = inl e /\ r = discovery_failure_record k e
  | validation =>
      exists m,
        parsed_manifest k = inr m /\ manifest r = Some m
        /\ validates k m = success r
  | loading =>
      exists m,
        parsed_manifest k = inr m /\ manifest r = Some m
        /\ validates k m = true /\ isSome (loads m) = success r
  | initialization =>
      exists m f,
        parsed_manifest k = inr m /\ manifest r = Some m
        /\ validates k m = true /\ loads m = Some f
        /\ completes f = success r
  end.

(** What the stage [s'] makes of the module [k]: the stages before it
    passed, and its own outcome is [b]. *)
Definition stage_outcome (k : string) (s' : ModuleSetupStage) (b : bool)
  : Prop :=
  forall m, parsed_manifest k = inr m ->
    match s' with
    | discovery => b = true
    | validation => validates k m = b
    | loading => validates k m = true /\ isSome (loads m) = b
    | initialization =>
        validates k m = true
        /\ exists f, loads m = Some f /\ completes f = b
    end.

(** [todo] are the names still to be processed by the running stage [s'],
    all of which succeeded at the stage [s] before it; [done] are the
    names that succeeded at [s']. *)
Record StageInv (s s' : ModuleSetupStage) (todo done : list string)
    (st : State) : Prop := mkStageInv {
  inv_success :
    forall k r, getModuleInfo st k = Some r -> success r = true ->
      (In k todo /\ stage r = s) \/ (In k done /\ stage r = s');
  inv_done :
    forall k, In k done ->
      exists r, getModuleInfo st k = Some r /\ success r = true;
  inv_sorted : StronglySorted str_lt (done ++ todo);
  inv_records :
    forall k r, getModuleInfo st k = Some r ->
      In k directories /\ record_ok k r;
  inv_cover :
    forall k, In k directories ->
      (exists r, getModuleInfo st k = Some r) \/ In k todo
}.

(** Every name still to be processed has a success record. *)
Definition todo_recorded (todo : list string) (st : State) : Prop :=
  forall k, In k todo ->
    exists r, getModuleInfo st k = Some r /\ success r = true.

(** One record written for the head of [todo]. *)
Lemma StageInv_write s s' k rest done st st' r :
  StageInv s s' (k :: rest) done st ->
  modules st' = map_set (modules st) k r ->
  stage r = s' ->
  In k directories ->
  record_ok k r ->
  StageInv s s' rest (if success r then done ++ [k] else done) st'.
Proof.
  intros [HA HB HC HR HV] Hmod Hst Hdir Hok.
  destruct (sorted_middle _ _ _ HC) as (Hnd & Hnr & Hs1 & Hs2).
  assert (Hsame : getModuleInfo st' k = Some r).
  { unfold getModuleInfo. rewrite Hmod. apply map_get_set_same. }
  assert (Hother : forall k', k' <> k ->
                     getModuleInfo st' k' = getModuleInfo st k').
  { intros k' Hne. unfold getModuleInfo. rewrite Hmod.
    apply map_get_set_other. congruence. }
  constructor.
  - intros k' r' Hg Hsucc.
    destruct (string_dec k' k) as [->|Hne].
    + rewrite Hsame in Hg. injection Hg as <-. right.
      rewrite Hsucc. split; auto. apply in_or_app. simpl. auto.
    + rewrite (Hother k' Hne) in Hg.
      destruct (HA k' r' Hg Hsucc) as [[[Hk|Hin] Hs]|[Hin Hs]].
      * congruence.
      * left. auto.
      * right. split; auto.
        destruct (success r); auto. apply in_or_app. auto.
  - intros k' Hin.
    assert (Hcases : In k' done \/ (k' = k /\ success r = true)).
    { destruct (success r); auto.
      apply in_app_or in Hin. destruct Hin as [Hin|[<-|[]]]; auto. }
    destruct Hcases as [Hin'|[-> Hsucc]].
    + rewrite Hother by (intros ->; tauto). auto.
    + exists r. auto.
  - destruct (success r); assumption.
  - intros k' r' Hg.
    destruct (string_dec k' k) as [->|Hne].
    + rewrite Hsame in Hg. injection Hg as <-. auto.
    + rewrite (Hother k' Hne) in Hg. auto.
  - intros k' Hin.
    destruct (string_dec k' k) as [->|Hne].
    + left. eauto.
    + rewrite (Hother k' Hne).
      destruct (HV k' Hin) as [H|[H|H]]; auto. congruence.
Qed.

(** A stage that keeps the manifest of the record it overwrites. *)
Lemma StageInv_step s s' k rest done st st' b :
  StageInv s s' (k :: rest) done st ->
  todo_recorded (k :: rest) st ->
  registers st st' k s' b ->
  s' <> discovery ->
  stage_outcome k s' b ->
  StageInv s s' rest (if b then done ++ [k] else done) st'
  /\ todo_recorded rest st'.
Proof.
  intros Hinv Htodo (u & Hmod & Hst & Hb & Hnone) Hnd Hout.
  destruct (Htodo k (or_introl eq_refl)) as (r0 & Hg0 & Hs0).
  destruct (inv_records _ _ _ _ _ Hinv k r0 Hg0) as [Hdir Hok0].
  assert (Hman : exists m, parsed_manifest k = inr m /\ manifest r0 = Some m).
  { unfold record_ok in Hok0. rewrite Hs0 in Hok0.
    destruct (stage r0).
    - exact Hok0.
    - destruct Hok0 as (m & ? & ? & _). eauto.
    - destruct Hok0 as (m & ? & ? & _). eauto.
    - destruct Hok0 as (m & f & ? & ? & _). eauto. }
  destruct Hman as (m & Hp & Hm).
  unfold getModuleInfo in Hg0.
  simpl in Hmod. rewrite Hg0 in Hmod.
  split.
  - rewrite <- Hb, <- (merge_success (Some r0) u).
    apply (StageInv_write s s' k rest done st st' (merge (Some r0) u)
             Hinv Hmod).
    + rewrite merge_stage. exact Hst.
    + exact Hdir.
    + specialize (Hout m Hp).
      unfold record_ok. rewrite merge_stage, merge_success, Hst, Hb.
      assert (Hm' : manifest (merge (Some r0) u) = Some m).
      { simpl. rewrite Hnone. exact Hm. }
      destruct s'.
      * contradiction.
      * exists m. auto.
      * exists m. destruct Hout. auto.
      * destruct Hout as (Hv & f & Hl & Hc). exists m, f. auto.
  - destruct (sorted_middle _ _ _ (inv_sorted _ _ _ _ _ Hinv))
      as (_ & Hnr & _).
    intros k' Hin.
    destruct (Htodo k' (or_intror Hin)) as (r & Hg & Hs).
    exists r. split; auto.
    unfold getModuleInfo in *. rewrite Hmod.
    rewrite map_get_set_other; auto. intros ->. tauto.
Qed.

(** Passing from one stage to the next: the names that succeeded become the
    names to process. *)
Lemma StageInv_next s0 s s2 done st :
  StageInv s0 s [] done st ->
  StageInv s s2 done [] st /\ todo_recorded done st.
Proof.
  intros [HA HB HC HR HV]. split.
  - constructor; auto.
    + intros k r Hg Hs. destruct (HA k r Hg Hs) as [[[] _]|H]; auto.
    + intros k [].
    + now rewrite app_nil_r in HC.
    + intros k Hk. destruct (HV k Hk) as [H|[]]. auto.
  - exact HB.
Qed.

End Stages.

(** Case analysis on the outcome of the run that [H] speaks of. *)
Ltac destruct_run H :=
  match type of H with
  | match ?o with Ok _ _ => _ | Throw _ _ => _ end => destruct o
  end.

Lemma hoare_pure_pre {A : Type} (phi : Prop) (P : State -> Prop) (m : M A)
    (Q : A -> State -> Prop) (E : Thrown -> State -> Prop) :
  (phi -> hoare P m Q E) -> hoare (fun st => phi /\ P st) m Q E.
Proof. intros H st [Hphi HP]. now apply H. Qed.


(* ------------------------------------------------------------------ *)
(** ** Properties kept by the stages, whatever their outcome *)

(** A state property [P] that survives the writes the stages make, given
    that every manifest written satisfies [okm]; [E] is what must hold when
    a failure escapes. *)
Record StageFrame (w : World) (P : State -> Prop) (okm : Json -> Prop)
    (E : Thrown -> State -> Prop) : Prop := mkStageFrame {
  frame_setModuleInfo :
    forall st k u, P st ->
      (forall m, u_manifest u = Some m -> okm m) ->
      P (setModuleInfo_state k u st);
  frame_initOrder : forall st l, P st -> P (set_initOrder l st);
  frame_clock : forall st n, P st -> P (set_clockReads n st);
  frame_parsed : forall d m, parsed_manifest w d = inr m -> okm m;
  frame_readdir : forall e st, fs_readdir w = inl e -> P st -> E e st;
  frame_null :
    forall st, P st -> okm JNull -> E destructuring_TypeError st
}.

Section Frame.

Variable w : World.
Variable P : State -> Prop.
Variable okm : Json -> Prop.
Variable E : Thrown -> State -> Prop.
Hypothesis HF : StageFrame w P okm E.

Lemma frame_set k u :
  (forall m, u_manifest u = Some m -> okm m) ->
  hoare P (setModuleInfo k u) (fun _ => P) E.
Proof.
  intros Hu. apply hoare_modify. intros st H.
  now apply (frame_setModuleInfo _ _ _ _ HF).
Qed.

Lemma frame_set_no_manifest k u :
  u_manifest u = None -> hoare P (setModuleInfo k u) (fun _ => P) E.
Proof. intros Hu. apply frame_set. intros m. rewrite Hu. discriminate. Qed.

Lemma frame_Date_now : hoare P (Date_now w) (fun _ => P) E.
Proof. intros st H. simpl. now apply (frame_clock _ _ _ _ HF). Qed.

Lemma frame_discover :
  hoare P (discover w)
    (fun output st => P st /\ forall k m, In (k, m) output -> okm m) E.
Proof.
  unfold discover.
  eapply hoare_bind with (R := fun _ => P).
  { apply hoare_lift; auto. intros st e H Hr.
    now apply (frame_readdir _ _ _ _ HF). }
  intros ents.
  set (I := fun (_ : list string) (output : Map Json) st =>
              P st /\ forall k m, In (k, m) output -> okm m).
  eapply hoare_bind with (R := I []).
  - apply hoare_weaken with
      (P' := I (sort (map d_name (filter d_isDirectory ents))) [])
      (Q' := I []) (E' := E); auto.
    2:{ intros st H. split; auto. intros k m []. }
    apply (hoare_foldM _ I).
    intros d rest output st [H Hout].
    unfold try_catch. rewrite discover_one_eq.
    destruct (parsed_manifest w d) as [e|m] eqn:Ep; simpl.
    + split; auto. apply (frame_setModuleInfo _ _ _ _ HF); auto.
      simpl. discriminate.
    + split; auto. intros k m' Hin.
      apply In_map_set_inv in Hin. destruct Hin as [[-> ->]|Hin].
      * now apply (frame_parsed _ _ _ _ HF) in Ep.
      * eauto.
  - intros output st [HP Hout].
    assert (H : forall rest,
               (forall k m, In (k, m) rest -> okm m) ->
               hoare P
                 (forM_
                    (fun '(name, manifest) =>
                       setModuleInfo name
                         (mkUpdate (Some name) discovery true
                            (Some manifest) None None))
                    rest)
                 (fun _ => P) E).
    { induction rest as [|[k m] rest IH]; intros Hrest.
      - apply hoare_ret. auto.
      - simpl. eapply hoare_bind.
        + apply frame_set. simpl. intros m' [= <-].
          apply (Hrest k). now left.
        + intros ?. apply IH. intros k' m' Hin.
          apply (Hrest k'). now right. }
    specialize (H output Hout st HP). unfold bind.
    destruct_run H; simpl; auto.
Qed.

Lemma frame_validate d m :
  okm m -> hoare P (validate w d m) (fun _ => P) E.
Proof.
  intros Hm st H.
  destruct (validate w d m st) as [b st'|e st'] eqn:Ev.
  - unfold validate in Ev.
    destruct (get_prop m "name") as [nm|]; [|discriminate].
    destruct (get_prop m "entry") as [en|]; [|discriminate].
    destruct (validate_error w d nm en); simpl in Ev;
      injection Ev as <- <-;
      apply (frame_setModuleInfo _ _ _ _ HF); auto; simpl; discriminate.
  - assert (He : e = destructuring_TypeError).
    { unfold validate in Ev.
      destruct (get_prop m "name") as [nm|];
        [destruct (get_prop m "entry") as [en|]|];
        try (destruct (validate_error w d nm en); discriminate);
        now injection Ev as <- _. }
    apply validate_Throw in Ev. destruct Ev as [-> ->]. subst e.
    now apply (frame_null _ _ _ _ HF).
Qed.

Lemma frame_load m : hoare P (load w m) (fun _ => P) E.
Proof.
  unfold load.
  destruct (import_init w _ _) as [e|[|v|f]];
    (eapply hoare_bind; [apply frame_set_no_manifest; reflexivity|]);
    intros ?; apply hoare_ret; auto.
Qed.

Lemma frame_initialize k f : hoare P (initialize w k f) (fun _ => P) E.
Proof.
  intros st H. unfold initialize, try_catch, bind.
  destruct f as [|e]; simpl.
  - apply (frame_setModuleInfo _ _ _ _ HF); [|simpl; discriminate].
    apply (frame_initOrder _ _ _ _ HF).
    apply (frame_clock _ _ _ _ HF). now apply (frame_clock _ _ _ _ HF).
  - apply (frame_setModuleInfo _ _ _ _ HF); [|simpl; discriminate].
    now apply (frame_clock _ _ _ _ HF).
Qed.

(** The body of [setup] after the gate and the first clock reading: the
    four stages, then a continuation [k]. *)
Lemma hoare_stages {A : Type} (k : Map ModuleInit -> M A)
    (Q : A -> State -> Prop) :
  (forall inits, hoare P (k inits) Q E) ->
  hoare P
    (discoveredModules <- discover w ;;
     moduleManifests <-
       foldM
         (fun moduleManifests '(name, manifest) =>
            valid <- validate w name manifest ;;
            ret (if valid : bool
                 then map_set moduleManifests name manifest
                 else moduleManifests))
         discoveredModules [] ;;
     moduleInits <-
       foldM
         (fun moduleInits '(name, manifest) =>
            init <- load w manifest ;;
            ret (match init with
                 | Some f => map_set moduleInits name f
                 | None => moduleInits
                 end))
         moduleManifests [] ;;
     forM_ (fun '(name, init) => initialize w name init) moduleInits ;;
     k moduleInits)
    Q E.
Proof.
  intros Hk.
  eapply hoare_bind; [apply frame_discover|]. intros output.
  eapply hoare_bind with (R := fun _ => P).
  { apply hoare_weaken with
      (P' := fun st => (forall d m, In (d, m) output -> okm m) /\ P st)
      (Q' := fun _ => P) (E' := E); [|tauto|auto|auto].
    apply hoare_pure_pre. intros Hout.
    assert (H : forall rest acc,
               (forall d m, In (d, m) rest -> okm m) ->
               hoare P
                 (foldM
                    (fun moduleManifests '(name, manifest) =>
                       valid <- validate w name manifest ;;
                       ret (if valid : bool
                            then map_set moduleManifests name manifest
                            else moduleManifests))
                    rest acc)
                 (fun _ => P) E).
    { induction rest as [|[d m] rest IH]; intros acc Hrest.
      - apply hoare_ret. auto.
      - simpl. eapply hoare_bind with (R := fun _ => P).
        + eapply hoare_bind.
          * apply frame_validate. apply (Hrest d). now left.
          * intros b. apply hoare_ret. auto.
        + intros acc'. apply IH. intros d' m' Hin.
          apply (Hrest d'). now right. }
    apply H. exact Hout. }
  intros mm. eapply hoare_bind.
  { apply (hoare_foldM _ (fun _ _ => P)). intros [d m] rest acc.
    eapply hoare_bind; [apply frame_load|].
    intros o. apply hoare_ret; auto. }
  intros mi. eapply hoare_bind.
  { apply (hoare_forM_ _ (fun _ => P)). intros [d f] rest.
    apply frame_initialize. }
  intros ?. apply Hk.
Qed.

End Frame.

(** A property of the registry alone that the stages keep is kept by
    [setup]. *)
Lemma hoare_setup (w : World) (P : State -> Prop) (okm : Json -> Prop)
    (E : Thrown -> State -> Prop) :
  StageFrame w P okm E ->
  (forall st st', modules st' = modules st -> P st -> P st') ->
  hoare P (setup w) (fun _ => P) E.
Proof.
  intros HF Hmod st HP. unfold setup.
  destruct (isSetupComplete st || isSetupInProgress st); [exact HP|].
  match goal with
  | |- match ?body st with _ => _ end =>
      assert (H : hoare P body (fun _ => P) E)
  end.
  { eapply hoare_bind with (R := fun _ => P).
    { apply hoare_modify. intros s Hs. eapply Hmod; [|exact Hs]. reflexivity. }
    intros ?. eapply hoare_bind; [apply (frame_Date_now w P okm _ HF)|].
    intros t0. apply (hoare_stages w P okm _ HF).
    intros inits s Hs. simpl. eapply Hmod; [|exact Hs]. reflexivity. }
  exact (H st HP).
Qed.

Lemma frame_setup (w : World) (P : State -> Prop) (okm : Json -> Prop) :
  StageFrame w P okm (fun _ => P) ->
  (forall st st', modules st' = modules st -> P st -> P st') ->
  forall st, P st -> P (state_of (setup w st)).
Proof.
  intros HF Hmod st HP.
  assert (H := hoare_setup w P okm _ HF Hmod st HP).
  destruct_run H; exact H.
Qed.

(* ------------------------------------------------------------------ *)
(** ** The idempotency gate *)

Definition gate_closed (st : State) : bool :=
  isSetupComplete st || isSetupInProgress st.

Lemma setup_gate (w : World) (st : State) :
  gate_closed st = true -> setup w st = Ok tt st.
Proof. unfold setup, gate_closed. now intros ->. Qed.

(** Whatever a call of [setup] does, it leaves the gate closed: on return
    [isSetupComplete] is set, and when a failure escapes [isSetupInProgress]
    is still set. *)
Lemma setup_closes_gate (w : World) (st : State) :
  gate_closed (state_of (setup w st)) = true.
Proof.
  unfold setup. destruct (isSetupComplete st || isSetupInProgress st) eqn:G.
  - exact G.
  - set (P := fun s : State => isSetupInProgress s = true).
    set (E := fun (_ : Thrown) (s : State) => gate_closed s = true).
    assert (HE : forall e s, P s -> E e s).
    { intros e s Hs. unfold E, gate_closed. rewrite Hs. apply orb_true_r. }
    assert (HF : StageFrame w P (fun _ => True) E)
      by (constructor; intros; auto; assumption).
    match goal with
    | |- gate_closed (state_of (?body st)) = true =>
        assert (H : hoare (fun _ => True) body
                      (fun _ s => gate_closed s = true)
                      (fun _ s => gate_closed s = true))
    end.
    { eapply hoare_bind.
      { apply hoare_modify with (Q := fun _ => P). intros; reflexivity. }
      intros ?. eapply hoare_bind; [apply (frame_Date_now w P _ E HF)|].
      intros t0. apply (hoare_stages w P _ E HF).
      intros inits. eapply hoare_bind; [apply (frame_Date_now w P _ E HF)|].
      intros t1. eapply hoare_bind.
      { apply hoare_modify with (Q := fun _ _ => True). auto. }
      intros ?. eapply hoare_bind.
      { apply hoare_modify with (Q := fun _ _ => True). auto. }
      intros ?. apply hoare_modify. intros; reflexivity. }
    specialize (H st I). destruct_run H; exact H.
Qed.

(** C2: after a call of [setup] from any state, whether it completed or is
    still marked in progress, a further call returns at once with the state
    unchanged, in every environment (so it reads nothing of it and runs no
    stage); the registry, the report, the load order and the recorded setup
    time are those left by the first call.  The same holds in any state in
    which a run is complete or in progress. *)
Theorem setup_idempotent (w w' : World) (st : State) :
  let st1 := state_of (setup w st) in
  let st2 := state_of (setup w' st1) in
  setup w' st1 = Ok tt st1
  /\ modules st2 = modules st1
  /\ getReport st2 = getReport st1
  /\ getLoadOrder st2 = getLoadOrder st1
  /\ setupTime st2 = setupTime st1
  /\ (forall s : State,
        isSetupComplete s = true \/ isSetupInProgress s = true ->
        setup w' s = Ok tt s).
Proof.
  cbv zeta.
  rewrite (setup_gate w' _ (setup_closes_gate w st)). simpl.
  repeat split.
  intros s Hs. apply setup_gate. unfold gate_closed.
  destruct Hs as [-> | ->]; [reflexivity | apply orb_true_r].
Qed.

(** Two calls in a row on the fixture with mixed modules. *)
Example setup_twice_mixed :
  setup Fixtures.mixed_world
    (state_of (setup Fixtures.mixed_world initial_state))
  = setup Fixtures.mixed_world initial_state.
Proof. vm_compute. reflexivity. Qed.


(** The invariant only reads the registry. *)
Lemma StageInv_same_modules (w : World) s s' todo done st st' :
  modules st' = modules st ->
  StageInv w s s' todo done st -> StageInv w s s' todo done st'.
Proof.
  intros Hm [HA HB HC HR HV].
  constructor; unfold getModuleInfo in *; rewrite ?Hm; auto.
Qed.

(** A record past a discovery failure carries the discovered manifest. *)
Lemma record_ok_manifest (w : World) (k : string) (r : ModuleInfo) :
  record_ok w k r ->
  success r = true \/ stage r <> discovery ->
  exists m, manifest r = Some m /\ parsed_manifest w k = inr m.
Proof.
  unfold record_ok. intros Hok Hcond.
  destruct (stage r).
  - destruct (success r).
    + destruct Hok as (m & ? & ?). eauto.
    + destruct Hcond; [discriminate | contradiction].
  - destruct Hok as (m & ? & ? & _). eauto.
  - destruct Hok as (m & ? & ? & _). eauto.
  - destruct Hok as (m & f & ? & ? & _). eauto.
Qed.

(* ------------------------------------------------------------------ *)
(** ** The loops of [setup] over a map: validation and loading *)

Section StageLoop.

Variable w : World.
Context {X Y : Type}.
Variables s s' : ModuleSetupStage.
(** the loop body, the payload it computes for a binding (if any), what it
    needs of a binding, and the map being iterated *)
Variable body : Map Y -> string * X -> M (Map Y).
Variable res : string -> X -> option Y.
Variable Pre : string -> X -> Prop.
Variable all : Map X.

Hypothesis stage_not_discovery : s' <> discovery.

Hypothesis outcome_spec :
  forall k x, Pre k x -> stage_outcome w k s' (isSome (res k x)).

Hypothesis body_spec :
  forall acc k x st, Pre k x ->
    match body acc (k, x) st with
    | Ok acc' st' =>
        registers st st' k s' (isSome (res k x))
        /\ initOrder st' = initOrder st
        /\ acc' = match res k x with
                  | Some y => map_set acc k y
                  | None => acc
                  end
    | Throw _ _ => True
    end.

Definition LoopInv (io : list string) (rest : Map X) (acc : Map Y)
    (st : State) : Prop :=
  StageInv w s s' (map_keys rest) (map_keys acc) st
  /\ todo_recorded (map_keys rest) st
  /\ initOrder st = io
  /\ (forall k x, In (k, x) rest -> In (k, x) all /\ Pre k x)
  /\ (forall k y, In (k, y) acc ->
        exists x, In (k, x) all /\ res k x = Some y)
  /\ (forall k x y, In (k, x) all -> res k x = Some y ->
        In (k, y) acc \/ In (k, x) rest).

Lemma stage_loop (io : list string) (rest : Map X) (acc : Map Y) :
  hoare (LoopInv io rest acc) (foldM body rest acc)
    (fun acc' => LoopInv io [] acc') (fun _ _ => True).
Proof.
  apply (hoare_foldM body (LoopInv io)). clear rest acc.
  intros [k x] rest acc st (Hinv & Htodo & Hio & Hsub & Hsound & Hcompl).
  destruct (Hsub k x (or_introl eq_refl)) as [Hall Hpre].
  specialize (body_spec acc k x st Hpre).
  destruct (body acc (k, x) st) as [acc' st'|]; [|exact I].
  destruct body_spec as (Hreg & Hio' & Hacc).
  simpl in Hinv, Htodo.
  destruct (sorted_middle _ _ _ (inv_sorted _ _ _ _ _ _ Hinv))
    as (Hnd & Hnr & _).
  destruct (StageInv_step w s s' k _ _ st st' _ Hinv Htodo Hreg
              stage_not_discovery (outcome_spec k x Hpre))
    as [Hinv' Htodo'].
  assert (Hkeys : map_keys acc'
                  = if isSome (res k x) then map_keys acc ++ [k]
                    else map_keys acc).
  { rewrite Hacc. destruct (res k x); simpl; auto.
    now apply map_keys_set_fresh. }
  unfold LoopInv. rewrite Hkeys.
  split; [exact Hinv'|]. split; [exact Htodo'|].
  split; [congruence|]. split; [|split].
  - intros k' x' Hin. apply Hsub. now right.
  - intros k' y' Hin. rewrite Hacc in Hin.
    destruct (res k x) as [y|] eqn:Er; auto.
    apply In_map_set_inv in Hin. destruct Hin as [[-> ->]|Hin]; eauto.
  - intros k' x' y' Hin Hr.
    destruct (Hcompl k' x' y' Hin Hr) as [Ha|[Heq|Hrest]]; auto; left.
    + rewrite Hacc. destruct (res k x); auto.
      apply In_map_set_old; auto.
      intros ->. apply Hnd. eapply In_map_keys; eauto.
    + injection Heq as <- <-. rewrite Hacc, Hr. apply In_map_set_new.
Qed.

End StageLoop.


(* ------------------------------------------------------------------ *)
(** ** Discovery *)

Section Discovery.

Variable w : World.
Variable io : list string.

(** The invariant of the first loop of [discover]: so far the registry
    holds the failure records of the directories refused, and [output]
    holds, in strictly increasing order of names, the directories accepted
    so far. *)
Record DiscInv (rest : list string) (output : Map Json) (st : State)
  : Prop := mkDiscInv {
  di_records :
    forall k r, getModuleInfo st k = Some r ->
      In k (directories w)
      /\ exists e, parsed_manifest w k = inl e
                  /\ r = discovery_failure_record k e;
  di_cover :
    forall k e, In k (directories w) -> parsed_manifest w k = inl e ->
      getModuleInfo st k = Some (discovery_failure_record k e) \/ In k rest;
  di_initOrder : initOrder st = io;
  di_sorted : StronglySorted str_lt (map_keys output);
  di_bound :
    forall k x, In k (map_keys output) -> In x rest -> str_le k x;
  di_rest_sorted : StronglySorted str_le rest;
  di_sound :
    forall k m, In (k, m) output ->
      In k (directories w) /\ parsed_manifest w k = inr m;
  di_complete :
    forall k m, In k (directories w) -> parsed_manifest w k = inr m ->
      In (k, m) output \/ In k rest;
  di_rest : forall k, In k rest -> In k (directories w)
}.

Lemma discovery_failure_written (st : State) (d : string) (e : Thrown) :
  (forall r, getModuleInfo st d = Some r ->
     r = discovery_failure_record d e) ->
  merge (getModuleInfo st d)
    (mkUpdate (Some d) discovery false None
       (Some (Errors.ModuleDiscoveryError d (Some e))) None)
  = discovery_failure_record d e.
Proof.
  intros H. destruct (getModuleInfo st d) as [r|]; [|reflexivity].
  rewrite (H r eq_refl). reflexivity.
Qed.

Lemma discover_first_loop (rest : list string) (output : Map Json) :
  hoare (DiscInv rest output)
    (foldM
       (fun output dir =>
          try_catch (discover_one w output dir)
            (fun error =>
               setModuleInfo dir
                 (mkUpdate (Some dir) discovery false None
                    (Some (Errors.ModuleDiscoveryError dir (Some error)))
                    None) ;;
               ret output))
       rest output)
    (fun output' => DiscInv [] output') (fun _ _ => True).
Proof.
  apply (hoare_foldM _ DiscInv). clear rest output.
  intros d rest output st
    [Hreg Hcov Hio Hsort Hbound Hrest Hsound Hcompl Hsub].
  unfold try_catch. rewrite discover_one_eq.
  inversion Hrest as [|? ? Hrest' Hd]; subst.
  rewrite Forall_forall in Hd.
  destruct (parsed_manifest w d) as [e|m] eqn:Ep; simpl.
  - (* the directory fails: a failure record is written *)
    assert (Hnew : getModuleInfo
                     (setModuleInfo_state d
                        (mkUpdate (Some d) discovery false None
                           (Some (Errors.ModuleDiscoveryError d (Some e)))
                           None) st) d
                   = Some (discovery_failure_record d e)).
    { rewrite getModuleInfo_setModuleInfo. f_equal.
      apply discovery_failure_written. intros r Hr.
      destruct (Hreg d r Hr) as (_ & e' & He' & ->). congruence. }
    constructor; auto.
    + intros k r H. destruct (string_dec d k) as [<-|Hne].
      * rewrite Hnew in H. injection H as <-.
        split; [apply Hsub; now left|]. eauto.
      * rewrite getModuleInfo_setModuleInfo_other in H by assumption.
        now apply Hreg in H.
    + intros k e' Hk Hp. destruct (string_dec d k) as [<-|Hne].
      * left. rewrite Hnew. congruence.
      * rewrite getModuleInfo_setModuleInfo_other by assumption.
        destruct (Hcov k e' Hk Hp) as [H|[H|H]]; auto. congruence.
    + intros k x Hk Hx. apply Hbound; simpl; auto.
    + intros k m Hk Hp. destruct (Hcompl k m Hk Hp) as [H|[<-|H]]; auto.
      congruence.
    + intros k Hk. apply Hsub. now right.
  - (* the directory is accepted: it enters the output map *)
    constructor; auto.
    + intros k e Hk Hp. destruct (Hcov k e Hk Hp) as [H|[H|H]]; auto.
      congruence.
    + destruct (in_dec string_dec d (map_keys output)) as [Hin|Hnin].
      * now rewrite map_keys_set_present.
      * rewrite map_keys_set_fresh by assumption.
        apply StronglySorted_app. split; [exact Hsort|].
        split; [repeat constructor|].
        intros x y Hx [<-|[]].
        destruct (Hbound x d Hx (or_introl eq_refl)) as [Hlt| ->];
          [exact Hlt | contradiction].
    + intros k x Hk Hx. apply map_keys_set in Hk. destruct Hk as [->|Hk].
      * auto.
      * apply Hbound; simpl; auto.
    + intros k m' H. apply In_map_set_inv in H. destruct H as [[-> ->]|H].
      * split; [apply Hsub; now left | exact Ep].
      * now apply Hsound in H.
    + intros k m' Hk Hp. destruct (string_dec k d) as [->|Hne].
      * left. rewrite Ep in Hp. injection Hp as <-. apply In_map_set_new.
      * destruct (Hcompl k m' Hk Hp) as [H|[H|H]]; auto; [|congruence].
        left. now apply In_map_set_old.
    + intros k Hk. apply Hsub. now right.
Qed.

(** What [discover] leaves when it returns: the names it returns are at
    discovery-success, in strictly increasing order, and they are the
    directories whose manifest was accepted. *)
Definition discovered_post (output : Map Json) (st : State) : Prop :=
  StageInv w discovery discovery [] (map_keys output) st
  /\ initOrder st = io
  /\ (forall k m, In (k, m) output <->
        In k (directories w) /\ parsed_manifest w k = inr m).

Definition SecondLoopInv (output rest : Map Json) (st : State) : Prop :=
  exists done,
    done ++ map_keys rest = map_keys output
    /\ StageInv w discovery discovery (map_keys rest) done st
    /\ initOrder st = io
    /\ (forall k m, In (k, m) rest ->
          In k (directories w) /\ parsed_manifest w k = inr m).

Lemma discover_second_loop (output rest : Map Json) :
  hoare (SecondLoopInv output rest)
    (forM_
       (fun '(name, manifest) =>
          setModuleInfo name
            (mkUpdate (Some name) discovery true (Some manifest) None None))
       rest)
    (fun _ => SecondLoopInv output []) (fun _ _ => True).
Proof.
  apply (hoare_forM_ _ (SecondLoopInv output)). clear rest.
  intros [k m] rest st (done & Hkeys & Hinv & Hio & Hp). simpl.
  exists (done ++ [k]).
  split; [rewrite <- app_assoc; exact Hkeys|].
  split; [|split; [exact Hio|]].
  - destruct (Hp k m (or_introl eq_refl)) as [Hdir Hpm].
    assert (H := StageInv_write w discovery discovery k _ done st
                   (setModuleInfo_state k
                      (mkUpdate (Some k) discovery true (Some m) None None)
                      st)
                   _ Hinv eq_refl).
    rewrite merge_success, merge_stage in H.
    apply H; [reflexivity | exact Hdir |].
    unfold record_ok. rewrite merge_stage, merge_success. simpl.
    exists m. split; [exact Hpm|].
    destruct (map_get (modules st) k); reflexivity.
  - intros k' m' Hin. apply Hp. now right.
Qed.

Lemma discover_after_readdir (ents : list Dirent) :
  fs_readdir w = inr ents ->
  hoare (fun st => modules st = [] /\ initOrder st = io)
    (output <-
       foldM
         (fun output dir =>
            try_catch (discover_one w output dir)
              (fun error =>
                 setModuleInfo dir
                   (mkUpdate (Some dir) discovery false None
                      (Some (Errors.ModuleDiscoveryError dir (Some error)))
                      None) ;;
                 ret output))
         (sort (map d_name (filter d_isDirectory ents))) [] ;;
     forM_
       (fun '(name, manifest) =>
          setModuleInfo name
            (mkUpdate (Some name) discovery true (Some manifest) None None))
       output ;;
     ret output)
    discovered_post (fun _ _ => True).
Proof.
  intros Her.
  assert (Hall : sort (map d_name (filter d_isDirectory ents))
                 = directories w).
  { unfold directories. now rewrite Her. }
  rewrite Hall.
  eapply hoare_bind with (R := DiscInv []).
  { eapply hoare_weaken;
      [apply (discover_first_loop (directories w) [])| | |]; auto.
    intros st [Hm Hio].
    constructor; auto; unfold getModuleInfo; try rewrite Hm;
      simpl; try tauto; try discriminate.
    - constructor.
    - unfold directories. rewrite Her. apply sort_sorted. }
  intros output st [Hreg Hcov Hio Hsort Hbound Hrest Hsound Hcompl Hsub].
  assert (Hpre : SecondLoopInv output output st).
  { exists []. split; [reflexivity|]. split; [|split; [exact Hio|]].
    - constructor.
      + intros k r Hg Hs. apply Hreg in Hg.
        destruct Hg as (_ & e & _ & ->). discriminate.
      + intros k [].
      + exact Hsort.
      + intros k r Hg. destruct (Hreg k r Hg) as (Hk & e & He & ->).
        split; [exact Hk|]. unfold record_ok. simpl. eauto.
      + intros k Hk.
        destruct (parsed_manifest w k) as [e|m] eqn:Ep.
        * destruct (Hcov k e Hk Ep) as [H|[]]. eauto.
        * destruct (Hcompl k m Hk Ep) as [H|[]].
          right. eapply In_map_keys; eauto.
    - exact Hsound. }
  assert (H := discover_second_loop output output st Hpre).
  unfold bind.
  destruct (forM_ _ output st) as [? st'|]; [|exact I].
  destruct H as (done & Hkeys & Hinv & Hio' & _).
  simpl in Hkeys. rewrite app_nil_r in Hkeys. subst done.
  split; [exact Hinv|]. split; [exact Hio'|].
  intros k m. split.
  - apply Hsound.
  - intros [Hk Hp]. destruct (Hcompl k m Hk Hp) as [H|[]]. exact H.
Qed.

Lemma discover_spec :
  hoare (fun st => modules st = [] /\ initOrder st = io) (discover w)
    discovered_post (fun _ _ => True).
Proof.
  unfold discover.
  eapply hoare_bind with
    (R := fun ents st =>
            fs_readdir w = inr ents
            /\ modules st = [] /\ initOrder st = io).
  { apply hoare_lift; auto. }
  intros ents st (Her & Hpre).
  exact (discover_after_readdir ents Her st Hpre).
Qed.

End Discovery.

(* ------------------------------------------------------------------ *)
(** ** The pipeline as a whole *)

Section Setup.

Variable w : World.

(** The module in directory [d] passes all four stages. *)
Definition initialized_ok (d : string) : Prop :=
  In d (directories w)
  /\ exists m f,
       parsed_manifest w d = inr m
       /\ validates w d m = true
       /\ loads w m = Some f
       /\ completes f = true.

Definition validation_result (k : string) (m : Json) : option Json :=
  if validates w k m then Some m else None.

Definition discovered_as (k : string) (m : Json) : Prop :=
  parsed_manifest w k = inr m.

Definition validated_as (k : string) (m : Json) : Prop :=
  manifest_name m = k /\ parsed_manifest w k = inr m
  /\ validates w k m = true.

Lemma validation_loop (output : Map Json) (io : list string)
    (rest acc : Map Json) :
  hoare
    (LoopInv w discovery validation validation_result discovered_as
       output io rest acc)
    (foldM
       (fun moduleManifests '(name, manifest) =>
          valid <- validate w name manifest ;;
          ret (if valid : bool
               then map_set moduleManifests name manifest
               else moduleManifests))
       rest acc)
    (fun acc' =>
       LoopInv w discovery validation validation_result discovered_as
         output io [] acc')
    (fun _ _ => True).
Proof.
  apply stage_loop.
  - discriminate.
  - intros k m Hp m' Hp'. unfold discovered_as in Hp.
    rewrite Hp in Hp'. injection Hp' as <-.
    unfold validation_result. now destruct (validates w k m).
  - intros mm k m st _. unfold bind.
    destruct (validate w k m st) as [b st'|e st'] eqn:Ev; [|exact I].
    apply validate_Ok in Ev. destruct Ev as (-> & Hreg & Hio).
    unfold validation_result. simpl.
    destruct (validates w k m); auto.
Qed.

Lemma load_loop (manifests : Map Json) (io : list string)
    (rest : Map Json) (acc : Map ModuleInit) :
  hoare
    (LoopInv w validation loading (fun _ m => loads w m) validated_as
       manifests io rest acc)
    (foldM
       (fun moduleInits '(name, manifest) =>
          init <- load w manifest ;;
          ret (match init with
               | Some f => map_set moduleInits name f
               | None => moduleInits
               end))
       rest acc)
    (fun acc' =>
       LoopInv w validation loading (fun _ m => loads w m) validated_as
         manifests io [] acc')
    (fun _ _ => True).
Proof.
  apply stage_loop.
  - discriminate.
  - intros k m (_ & Hp & Hv) m' Hp'.
    rewrite Hp in Hp'. injection Hp' as <-. auto.
  - intros mi k m st (Hname & _). unfold bind.
    destruct (load_Ok w m st) as (st' & Hrun & Hreg & Hio).
    rewrite Hrun. simpl. rewrite Hname in Hreg. auto.
Qed.

(** The invariant of the initialization loop; the names that succeeded are
    those pushed on the load order. *)
Definition InitInv (inits rest : Map ModuleInit) (st : State) : Prop :=
  StageInv w loading initialization (map_keys rest) (initOrder st) st
  /\ todo_recorded (map_keys rest) st
  /\ (forall k f, In (k, f) rest -> In (k, f) inits)
  /\ (forall k, In k (initOrder st) ->
        exists f, In (k, f) inits /\ completes f = true)
  /\ (forall k f, In (k, f) inits -> completes f = true ->
        In k (initOrder st) \/ In (k, f) rest).

Lemma init_loop (inits rest : Map ModuleInit) :
  (forall k f, In (k, f) inits ->
     stage_outcome w k initialization (completes f)) ->
  hoare (InitInv inits rest)
    (forM_ (fun '(name, init) => initialize w name init) rest)
    (fun _ => InitInv inits []) (fun _ _ => True).
Proof.
  intros Hout.
  apply (hoare_forM_ _ (InitInv inits)). clear rest.
  intros [k f] rest st (Hinv & Htodo & Hsub & Hsound & Hcompl).
  destruct (initialize_Ok w k f st) as (st' & Hrun & Hreg & Hio).
  rewrite Hrun. simpl in Hinv, Htodo.
  destruct (sorted_middle _ _ _ (inv_sorted _ _ _ _ _ _ Hinv))
    as (Hnd & Hnr & _).
  assert (Hne : initialization <> discovery) by discriminate.
  destruct (StageInv_step w _ _ k _ _ st st' _ Hinv Htodo Hreg Hne
              (Hout k f (Hsub k f (or_introl eq_refl))))
    as [Hinv' Htodo'].
  unfold InitInv. rewrite Hio.
  split; [exact Hinv'|]. split; [exact Htodo'|].
  split; [|split].
  - intros k' f' Hin. apply Hsub. now right.
  - intros k' Hin.
    destruct (completes f) eqn:Ec; auto.
    apply in_app_or in Hin. destruct Hin as [Hin|[<-|[]]]; auto.
    exists f. split; auto. apply Hsub. now left.
  - intros k' f' Hin Hc.
    destruct (Hcompl k' f' Hin Hc) as [H|[H|H]]; auto.
    + left. destruct (completes f); auto. apply in_or_app. auto.
    + injection H as <- <-. left. rewrite Hc. apply in_or_app.
      simpl. auto.
Qed.

(** What [setup] leaves when it returns from a fresh state. *)
Definition setup_post (st : State) : Prop :=
  StageInv w loading initialization [] (initOrder st) st
  /\ (forall d, In d (initOrder st) <-> initialized_ok d).

Lemma setup_post_same (st st' : State) :
  modules st' = modules st -> initOrder st' = initOrder st ->
  setup_post st -> setup_post st'.
Proof.
  intros Hm Hio [Hinv Hiff]. unfold setup_post. rewrite Hio.
  split; auto. eapply StageInv_same_modules; eauto.
Qed.

Lemma stages_spec {A : Type} (k : Map ModuleInit -> M A)
    (Q : A -> State -> Prop) :
  (forall inits, hoare setup_post (k inits) Q (fun _ _ => True)) ->
  hoare (fun st => modules st = [] /\ initOrder st = [])
    (discoveredModules <- discover w ;;
     moduleManifests <-
       foldM
         (fun moduleManifests '(name, manifest) =>
            valid <- validate w name manifest ;;
            ret (if valid : bool
                 then map_set moduleManifests name manifest
                 else moduleManifests))
         discoveredModules [] ;;
     moduleInits <-
       foldM
         (fun moduleInits '(name, manifest) =>
            init <- load w manifest ;;
            ret (match init with
                 | Some f => map_set moduleInits name f
                 | None => moduleInits
                 end))
         moduleManifests [] ;;
     forM_ (fun '(name, init) => initialize w name init) moduleInits ;;
     k moduleInits)
    Q (fun _ _ => True).
Proof.
  intros Hk.
  eapply hoare_bind; [apply (discover_spec w [])|].
  intros output.
  (* validation *)
  eapply hoare_bind with
    (R := fun mm st =>
            ((forall d m, In (d, m) output <->
                In d (directories w) /\ parsed_manifest w d = inr m)
             /\ (forall d m, In (d, m) mm <->
                   In (d, m) output /\ validates w d m = true))
            /\ LoopInv w discovery validation validation_result
                 discovered_as output [] [] mm st).
  { intros st (Hinv & Hio & Hpairs).
    destruct (StageInv_next w _ _ validation _ _ Hinv) as [Hinv' Htodo].
    assert (H := validation_loop output [] output [] st).
    match type of H with ?pre -> _ => assert (Hpre : pre) end.
    { unfold LoopInv. simpl.
      split; [exact Hinv'|]. split; [exact Htodo|]. split; [exact Hio|].
      split; [|split].
      - intros d m Hin. split; auto. now apply Hpairs in Hin.
      - intros d y [].
      - intros d x y Hin _. now right. }
    specialize (H Hpre).
    destruct_run H; [|exact I]. cbv beta in H.
    split; [|exact H]. split; [exact Hpairs|].
    destruct H as (_ & _ & _ & _ & Hs & Hc).
    unfold validation_result in Hs, Hc.
    intros d m. split.
    - intros Hin. destruct (Hs d m Hin) as (x & Hx & Hr).
      destruct (validates w d x) eqn:Ev; [|discriminate].
      injection Hr as ->. auto.
    - intros [Hin Hv].
      destruct (Hc d m m Hin) as [H|[]]; [now rewrite Hv | exact H]. }
  intros mm. apply hoare_pure_pre. intros [Hout Hmm].
  (* loading *)
  eapply hoare_bind with
    (R := fun mi st =>
            (forall d f, In (d, f) mi <->
               exists m, In (d, m) mm /\ loads w m = Some f)
            /\ LoopInv w validation loading (fun _ m => loads w m)
                 validated_as mm [] [] mi st).
  { intros st (Hinv & _ & Hio & _).
    destruct (StageInv_next w _ _ loading _ _ Hinv) as [Hinv' Htodo].
    assert (H := load_loop mm [] mm [] st).
    match type of H with ?pre -> _ => assert (Hpre : pre) end.
    { unfold LoopInv. simpl.
      split; [exact Hinv'|]. split; [exact Htodo|]. split; [exact Hio|].
      split; [|split].
      - intros d m Hin. split; auto.
        apply Hmm in Hin. destruct Hin as [Hin Hv].
        apply Hout in Hin. destruct Hin as [_ Hp].
        split; [now apply validates_name in Hv | auto].
      - intros d y [].
      - intros d x y Hin _. now right. }
    specialize (H Hpre).
    destruct_run H; [|exact I]. cbv beta in H.
    split; [|exact H].
    destruct H as (_ & _ & _ & _ & Hs & Hc).
    intros d f. split.
    - apply Hs.
    - intros (m & Hin & Hl). destruct (Hc d m f Hin Hl) as [H|[]]. exact H. }
  intros mi. apply hoare_pure_pre. intros Hmi.
  (* initialization *)
  eapply hoare_bind with (R := fun _ => setup_post).
  { intros st (Hinv & _ & Hio & _).
    destruct (StageInv_next w _ _ initialization _ _ Hinv)
      as [Hinv' Htodo].
    assert (Hfacts : forall d f, In (d, f) mi ->
                       exists m, parsed_manifest w d = inr m
                                 /\ validates w d m = true
                                 /\ loads w m = Some f).
    { intros d f Hf. apply Hmi in Hf. destruct Hf as (m & Hm & Hl).
      apply Hmm in Hm. destruct Hm as [Hm Hv].
      apply Hout in Hm. destruct Hm as [_ Hp]. eauto. }
    assert (H := init_loop mi mi).
    match type of H with ?pre -> _ => assert (Hpre0 : pre) end.
    { intros d f Hf m Hp.
      destruct (Hfacts d f Hf) as (m' & Hp' & Hv & Hl).
      rewrite Hp in Hp'. injection Hp' as <-. eauto. }
    specialize (H Hpre0 st).
    match type of H with ?pre -> _ => assert (Hpre : pre) end.
    { unfold InitInv. rewrite Hio. simpl.
      split; [exact Hinv'|]. split; [exact Htodo|].
      split; [auto|]. split; [intros d []|]. auto. }
    specialize (H Hpre).
    destruct_run H; [|exact I]. cbv beta in H.
    destruct H as (Hfin & _ & _ & Hs & Hc). simpl in Hfin.
    split; [exact Hfin|].
    intros d. unfold initialized_ok. split.
    - intros Hin. destruct (Hs d Hin) as (f & Hf & Hcf).
      destruct (Hfacts d f Hf) as (m & Hp & Hv & Hl).
      apply Hmi in Hf. destruct Hf as (m' & Hm & _).
      apply Hmm in Hm. destruct Hm as [Hm _].
      apply Hout in Hm. destruct Hm as [Hd _].
      split; [exact Hd|]. exists m, f. auto.
    - intros (Hd & m & f & Hp & Hv & Hl & Hcf).
      assert (Hm : In (d, m) mm).
      { apply Hmm. split; [apply Hout; auto | exact Hv]. }
      assert (Hf : In (d, f) mi).
      { apply Hmi. exists m. auto. }
      destruct (Hc d f Hf Hcf) as [H|[]]. exact H. }
  intros ?. apply Hk.
Qed.

(** The specification of [setup] on a fresh state: if it returns, the
    registry and the load order are as [setup_post] says. *)
Lemma setup_spec (reads : nat) :
  hoare (eq (fresh_state reads)) (setup w) (fun _ => setup_post)
    (fun _ _ => True).
Proof.
  intros st <-. unfold setup. simpl.
  match goal with
  | |- match ?body _ with _ => _ end =>
      assert (H : hoare (fun st => modules st = [] /\ initOrder st = [])
                    body (fun _ => setup_post) (fun _ _ => True))
  end.
  { eapply hoare_bind with
      (R := fun _ st => modules st = [] /\ initOrder st = []).
    { apply hoare_modify. auto. }
    intros ?. eapply hoare_bind with
      (R := fun _ st => modules st = [] /\ initOrder st = []).
    { intros st H. exact H. }
    intros t0. apply stages_spec. intros inits st H. simpl.
    eapply setup_post_same; [| |exact H]; reflexivity. }
  apply H. auto.
Qed.

End Setup.

(* ------------------------------------------------------------------ *)
(** ** The representation of JavaScript strings *)

Lemma char_compare (m n : N) :
  (m < 256)%N -> (n < 256)%N ->
  Ascii_as_OT.compare (ascii_of_N m) (ascii_of_N n) = (m ?= n)%N.
Proof.
  intros Hm Hn. unfold Ascii_as_OT.compare.
  now rewrite !N_ascii_embedding.
Qed.

Ltac split_unit u :=
  let q := fresh "q" in
  let r := fresh "r" in
  let qq := fresh "qq" in
  let rq := fresh "rq" in
  pose proof (N.div_mod u 64 ltac:(discriminate));
  pose proof (N.mod_lt u 64 ltac:(discriminate));
  pose proof (N.div_mod (u / 64) 64 ltac:(discriminate));
  pose proof (N.mod_lt (u / 64) 64 ltac:(discriminate));
  generalize dependent (u / 64 / 64)%N; intros qq;
  generalize dependent ((u / 64) mod 64)%N; intros rq;
  generalize dependent (u / 64)%N; intros q;
  generalize dependent (u mod 64)%N; intros r; intros.

(** Comparing the characters of two code units is comparing the code
    units. *)
Lemma unit_compare (u v : N) (s t : string) :
  (u < 65536)%N -> (v < 65536)%N ->
  String_as_OT.compare (unit_chars u ++ s)%string (unit_chars v ++ t)%string
  = match (u ?= v)%N with
    | Eq => String_as_OT.compare s t
    | c => c
    end.
Proof.
  intros Hu Hv. unfold unit_chars.
  destruct (N.ltb_spec u 128), (N.ltb_spec u 2048),
    (N.ltb_spec v 128), (N.ltb_spec v 2048);
    try lia; cbn [append String_as_OT.compare];
    split_unit u; split_unit v;
    rewrite ?char_compare by lia;
    repeat match goal with
           | |- context [(?a ?= ?b)%N] =>
               destruct (N.compare_spec a b)
           end;
    try reflexivity; lia.
Qed.

Lemma unit_chars_cons (u : N) :
  exists c s, unit_chars u = String c s.
Proof.
  unfold unit_chars.
  destruct (u <? 128)%N; [|destruct (u <? 2048)%N]; eauto.
Qed.

(** The order of the representations is the order of the code units. *)
Lemma js_string_compare (a b : code_units) :
  well_formed a -> well_formed b ->
  String_as_OT.compare (js_string a) (js_string b) = units_compare a b.
Proof.
  intros Ha. revert b.
  induction Ha as [|u a Hu Ha IH]; intros b Hb.
  - destruct Hb as [|v b Hv Hb]; [reflexivity|].
    cbn [js_string units_compare].
    destruct (unit_chars_cons v) as (c & s & ->). reflexivity.
  - destruct Hb as [|v b Hv Hb].
    + cbn [js_string units_compare].
      destruct (unit_chars_cons u) as (c & s & ->). reflexivity.
    + cbn [js_string units_compare].
      rewrite unit_compare by assumption.
      now rewrite IH.
Qed.

Lemma js_string_lt (a b : code_units) :
  well_formed a -> well_formed b ->
  str_lt (js_string a) (js_string b) <-> units_compare a b = Lt.
Proof.
  intros Ha Hb. unfold str_lt, String_as_OT.lt.
  now rewrite js_string_compare.
Qed.

Lemma units_compare_eq (a b : code_units) :
  units_compare a b = Eq -> a = b.
Proof.
  revert b. induction a as [|u a IH]; intros [|v b]; try discriminate; auto.
  cbn [units_compare]. destruct (N.compare_spec u v); try discriminate.
  intros H'. subst. f_equal. auto.
Qed.

(** Two strings with the same representation are the same string. *)
Lemma js_string_injective (a b : code_units) :
  well_formed a -> well_formed b ->
  js_string a = js_string b -> a = b.
Proof.
  intros Ha Hb Heq. apply units_compare_eq.
  rewrite <- js_string_compare by assumption.
  rewrite Heq.
  destruct (String_as_OT.compare_spec (js_string b) (js_string b))
    as [_|H|H]; auto; exfalso; exact (str_lt_irrefl _ H).
Qed.

Lemma string_app_assoc (s t r : string) :
  ((s ++ t) ++ r = s ++ (t ++ r))%string.
Proof. induction s as [|c s IH]; simpl; congruence. Qed.

(** Concatenation is concatenation of the representations. *)
Lemma js_string_app (a b : code_units) :
  js_string (a ++ b)%list = (js_string a ++ js_string b)%string.
Proof.
  induction a as [|u a IH]; [reflexivity|].
  cbn [js_string List.app]. now rewrite IH, string_app_assoc.
Qed.

(** Text in ASCII is its own representation. *)
Lemma js_string_ascii (t : string) :
  Forall (fun c => (N_of_ascii c < 128)%N) (list_ascii_of_string t) ->
  js_string (map N_of_ascii (list_ascii_of_string t)) = t.
Proof.
  induction t as [|c t IH]; [reflexivity|].
  cbn [list_ascii_of_string map js_string]. intros H.
  apply Forall_cons_iff in H. destruct H as [Hc Ht].
  unfold unit_chars. apply N.ltb_lt in Hc. rewrite Hc.
  now rewrite ascii_N_embedding, IH.
Qed.

(** Only the empty string has the empty representation. *)
Lemma js_string_empty (a : code_units) : js_string a = "" <-> a = [].
Proof.
  split; [|now intros ->].
  destruct a as [|u a]; auto. cbn [js_string].
  destruct (unit_chars_cons u) as (c & s & ->). discriminate.
Qed.

(** [endsWith] tells whether the one string ends the other. *)
Lemma substring_app (p t : string) :
  substring (String.length p) (String.length t) (p ++ t)%string = t.
Proof.
  induction p as [|c p IH]; [|exact IH].
  cbn [String.length append].
  induction t as [|c t IH]; [reflexivity|].
  cbn [String.length substring]. now rewrite IH.
Qed.

Lemma string_length_app (p t : string) :
  String.length (p ++ t)%string = String.length p + String.length t.
Proof. induction p as [|c p IH]; simpl; auto. Qed.

Lemma substring_split (s : string) (i : nat) :
  i <= String.length s ->
  s = (substring 0 i s ++ substring i (String.length s - i) s)%string.
Proof.
  revert i. induction s as [|c s IH]; intros i Hi.
  - destruct i; [reflexivity|simpl in Hi; lia].
  - destruct i as [|i].
    + cbn [substring append]. rewrite Nat.sub_0_r.
      cbn [String.length substring]. f_equal.
      clear. induction s as [|c s IH]; [reflexivity|].
      cbn [String.length substring]. now rewrite <- IH.
    + cbn [String.length] in *. cbn [substring append Nat.sub].
      f_equal. apply IH. lia.
Qed.

Lemma endsWith_iff (s t : string) :
  endsWith s t = true <-> exists p, s = (p ++ t)%string.
Proof.
  unfold endsWith. rewrite andb_true_iff, Nat.leb_le, String.eqb_eq.
  split.
  - intros [Hle Hsub].
    exists (substring 0 (String.length s - String.length t) s).
    pose proof (substring_split s (String.length s - String.length t)
                  ltac:(lia)) as H.
    replace (String.length s - (String.length s - String.length t))
      with (String.length t) in H by lia.
    now rewrite Hsub in H.
  - intros [p ->]. rewrite string_length_app. split; [lia|].
    replace (String.length p + String.length t - String.length t)
      with (String.length p) by lia.
    apply substring_app.
Qed.

(** The first character of a code unit is below 128 or from 192 on; the
    others are in between.  So a representation that ends another starts
    at a code unit of it. *)
Definition leading (c : ascii) : Prop :=
  (N_of_ascii c < 128)%N \/ (192 <= N_of_ascii c)%N.

Lemma unit_chars_shape (u : N) :
  (u < 65536)%N ->
  exists c s,
    unit_chars u = String c s /\ leading c
    /\ (s = ""
        \/ (exists c1, s = String c1 "" /\ ~ leading c1)
        \/ (exists c1 c2,
              s = String c1 (String c2 "") /\ ~ leading c1 /\ ~ leading c2)).
Proof.
  intros Hu. unfold unit_chars, leading.
  destruct (N.ltb_spec u 128); [|destruct (N.ltb_spec u 2048)];
    split_unit u; do 2 eexists; (split; [reflexivity|]);
    rewrite ?N_ascii_embedding by lia.
  - split; [lia|]. now left.
  - split; [lia|]. right. left. eexists. split; [reflexivity|].
    rewrite N_ascii_embedding by lia. lia.
  - split; [lia|]. right. right. do 2 eexists. split; [reflexivity|].
    rewrite !N_ascii_embedding by lia. lia.
Qed.

Lemma js_string_leading (b : code_units) (c : ascii) (s : string) :
  well_formed b -> js_string b = String c s -> leading c.
Proof.
  intros Hb. destruct Hb as [|v b Hv Hb]; [discriminate|].
  cbn [js_string].
  destruct (unit_chars_shape v Hv) as (c' & s' & -> & Hl & _).
  cbn [append]. now intros [= <- _].
Qed.

Lemma js_string_suffix (a b : code_units) (p : string) :
  well_formed a -> well_formed b ->
  js_string a = (p ++ js_string b)%string ->
  exists c, a = (c ++ b)%list.
Proof.
  intros Ha Hb. revert p.
  induction Ha as [|u a Hu Ha IH]; intros p Heq.
  - exists []. cbn [js_string] in Heq.
    destruct p; [|discriminate]. cbn [append] in Heq.
    symmetry in Heq. apply js_string_empty in Heq. now subst.
  - destruct p as [|c0 p].
    + exists []. cbn [append] in Heq.
      apply js_string_injective; auto. now constructor.
    + cbn [js_string] in Heq.
      assert (Hstep : forall p', js_string a = (p' ++ js_string b)%string ->
                exists c, u :: a = (c ++ b)%list).
      { intros p' H'. destruct (IH _ H') as [c ->]. now exists (u :: c). }
      assert (Hnot : forall c1 s1, ~ leading c1 ->
                String c1 s1 = js_string b -> False).
      { intros c1 s1 Hn H'. apply Hn.
        symmetry in H'. exact (js_string_leading b c1 s1 Hb H'). }
      destruct (unit_chars_shape u Hu)
        as (c & s & Hc & _ & [->|[(c1 & -> & Hc1)|(c1 & c2 & -> & Hc1 & Hc2)]]);
        rewrite Hc in Heq; cbn [append] in Heq; injection Heq as _ Heq.
      * exact (Hstep _ Heq).
      * destruct p as [|c1' p]; cbn [append] in Heq.
        -- exfalso. exact (Hnot _ _ Hc1 Heq).
        -- injection Heq as _ Heq. exact (Hstep _ Heq).
      * destruct p as [|c1' p]; cbn [append] in Heq.
        -- exfalso. exact (Hnot _ _ Hc1 Heq).
        -- injection Heq as _ Heq.
           destruct p as [|c2' p]; cbn [append] in Heq.
           ++ exfalso. exact (Hnot _ _ Hc2 Heq).
           ++ injection Heq as _ Heq. exact (Hstep _ Heq).
Qed.

(** [endsWith] on the representations is [endsWith] on the strings. *)
Lemma js_string_endsWith (a b : code_units) :
  well_formed a -> well_formed b ->
  endsWith (js_string a) (js_string b) = true
  <-> exists c, a = (c ++ b)%list.
Proof.
  intros Ha Hb. rewrite endsWith_iff. split.
  - intros [p Hp]. exact (js_string_suffix a b p Ha Hb Hp).
  - intros [c ->]. exists (js_string c). apply js_string_app.
Qed.

(** Within the Basic Multilingual Plane the representation is the UTF-8
    form of the name. *)
Lemma utf8_bmp (a : code_units) : in_bmp a -> utf8 a = js_string a.
Proof.
  induction 1 as [|u a [Hh Hl] Ha IH]; [reflexivity|].
  cbn [utf8 js_string]. rewrite Hh. cbn [andb].
  destruct a as [|l a]; [|now rewrite IH].
  cbn [js_string]. clear. induction (unit_chars u) as [|c s IH]; simpl; congruence.
Qed.

(** In a strictly sorted list, the order of two members is their order of
    appearance. *)
Lemma In_precedes (x y : string) (l : list string) :
  In x l -> In y l -> x = y \/ precedes x y l \/ precedes y x l.
Proof.
  intros Hx Hy. apply in_split in Hx. destruct Hx as (l1 & l2 & ->).
  apply in_app_or in Hy. destruct Hy as [Hy|[Hy|Hy]]; auto.
  - apply in_split in Hy. destruct Hy as (l3 & l4 & ->).
    right. right. exists l3, l4, l2. now rewrite <- app_assoc.
  - apply in_split in Hy. destruct Hy as (l3 & l4 & ->).
    right. left. now exists l1, l3, l4.
Qed.

Lemma sorted_precedes_lt (x y : string) (l : list string) :
  StronglySorted str_lt l -> precedes x y l -> str_lt x y.
Proof.
  intros Hs (l1 & l2 & l3 & ->).
  induction l1 as [|z l1 IH].
  - apply StronglySorted_inv in Hs. destruct Hs as [_ Hall].
    rewrite Forall_forall in Hall. apply Hall.
    apply in_or_app. right. now left.
  - apply StronglySorted_inv in Hs. destruct Hs as [Hs _]. auto.
Qed.

Lemma sorted_precedes (x y : string) (l : list string) :
  StronglySorted str_lt l -> In x l -> In y l ->
  (precedes x y l <-> str_lt x y).
Proof.
  intros Hs Hx Hy. split; [exact (sorted_precedes_lt x y l Hs)|].
  intros Hlt. destruct (In_precedes x y l Hx Hy) as [->|[H|H]]; auto.
  - exfalso. exact (str_lt_irrefl _ Hlt).
  - exfalso. apply (str_lt_irrefl x).
    eapply str_lt_trans; [exact Hlt|].
    exact (sorted_precedes_lt y x l Hs H).
Qed.

(* ------------------------------------------------------------------ *)
(** ** The load order *)

(** A strictly sorted list is determined by its members. *)
Lemma sorted_unique (l1 l2 : list string) :
  StronglySorted str_lt l1 -> StronglySorted str_lt l2 ->
  (forall x, In x l1 <-> In x l2) -> l1 = l2.
Proof.
  intros H1. revert l2.
  induction H1 as [|a l1 Hs1 IH Ha]; intros l2 H2 Hiff.
  - destruct l2 as [|b l2]; auto.
    exfalso. apply (Hiff b). now left.
  - rewrite Forall_forall in Ha.
    destruct H2 as [|b l2 Hs2 Hb].
    + exfalso. apply (Hiff a). now left.
    + rewrite Forall_forall in Hb.
      assert (Hab : a = b).
      { destruct (proj1 (Hiff a) (or_introl eq_refl)) as [Heq|Hin]; auto.
        destruct (proj2 (Hiff b) (or_introl eq_refl)) as [Heq|Hin']; auto.
        exfalso. apply (str_lt_irrefl a).
        eapply str_lt_trans; [apply Ha, Hin' | apply Hb, Hin]. }
      subst b. f_equal. apply IH; auto.
      intros x. split; intros Hx.
      * destruct (proj1 (Hiff x) (or_intror Hx)) as [<-|Hin]; auto.
        exfalso. apply (str_lt_irrefl a). auto.
      * destruct (proj2 (Hiff x) (or_intror Hx)) as [<-|Hin]; auto.
        exfalso. apply (str_lt_irrefl a). auto.
Qed.

(** Reading a hoare triple at a run that returned. *)
Lemma setup_post_of_run (w : World) (reads : nat) (st' : State) :
  setup w (fresh_state reads) = Ok tt st' -> setup_post w st'.
Proof.
  intros Hrun. assert (H := setup_spec w reads _ eq_refl).
  now rewrite Hrun in H.
Qed.

(** The load order after a run that returned. *)
Lemma load_order_spec (w : World) (reads : nat) (st' : State) :
  setup w (fresh_state reads) = Ok tt st' ->
  StronglySorted str_lt (getLoadOrder st')
  /\ (forall d, In d (getLoadOrder st') <-> initialized_ok w d).
Proof.
  intros Hrun. destruct (setup_post_of_run w reads st' Hrun) as [Hinv Hiff].
  split; [|exact Hiff].
  assert (H := inv_sorted _ _ _ _ _ _ Hinv).
  now rewrite app_nil_r in H.
Qed.

(** The entries of the modules directory that are directories, as
    [readdir] lists them. *)
Definition listed_directory (w : World) (d : string) : Prop :=
  exists ents ent,
    fs_readdir w = inr ents /\ In ent ents
    /\ d_isDirectory ent = true /\ d_name ent = d.

(** The module in directory [d] passes all four stages. *)
Definition passes_all_stages (w : World) (d : string) : Prop :=
  exists m f,
    parsed_manifest w d = inr m /\ validates w d m = true
    /\ loads w m = Some f /\ completes f = true.

Lemma directories_are_listed (w : World) (d : string) :
  In d (directories w) <-> listed_directory w d.
Proof.
  unfold directories, listed_directory.
  destruct (fs_readdir w) as [e|ents].
  - split; [intros []|]. intros (? & ? & H & _). discriminate.
  - rewrite In_sort, in_map_iff. split.
    + intros (ent & Hn & Hin). apply filter_In in Hin.
      destruct Hin as [Hin Hd]. exists ents, ent. auto.
    + intros (ents' & ent & Heq & Hin & Hd & Hn).
      injection Heq as <-. exists ent. split; auto.
      apply filter_In. auto.
Qed.

Lemma initialized_ok_listed (w : World) (d : string) :
  initialized_ok w d <-> listed_directory w d /\ passes_all_stages w d.
Proof.
  unfold initialized_ok, passes_all_stages.
  now rewrite directories_are_listed.
Qed.

(** C3: when [setup] returns, the load order holds the names of the
    directories listed by [readdir] whose module passed discovery,
    validation and loading and whose initializer completed, and nothing
    else.  It is strictly increasing in the order of
    [Array.prototype.sort], and it is the one such list of those names.
    That order is the order of the UTF-16 code units of the names: of two
    names in the load order, the one that compares smaller code unit by
    code unit comes first.  For names within the Basic Multilingual Plane
    this is the order of their UTF-8 bytes.  A module whose initializer
    throws or rejects is not in the load order. *)
Theorem load_order_is_sorted_successes (w : World) (reads : nat) (st' : State) :
  setup w (fresh_state reads) = Ok tt st' ->
  (forall d, In d (getLoadOrder st')
             <-> listed_directory w d /\ passes_all_stages w d)
  /\ StronglySorted str_lt (getLoadOrder st')
  /\ (forall l, StronglySorted str_lt l ->
        (forall d, In d l <-> listed_directory w d /\ passes_all_stages w d) ->
        getLoadOrder st' = l)
  /\ (forall a b, well_formed a -> well_formed b ->
        In (js_string a) (getLoadOrder st') ->
        In (js_string b) (getLoadOrder st') ->
        (precedes (js_string a) (js_string b) (getLoadOrder st')
         <-> units_compare a b = Lt))
  /\ (forall a b, in_bmp a -> in_bmp b ->
        In (js_string a) (getLoadOrder st') ->
        In (js_string b) (getLoadOrder st') ->
        (precedes (js_string a) (js_string b) (getLoadOrder st')
         <-> str_lt (utf8 a) (utf8 b)))
  /\ (forall d m e,
        parsed_manifest w d = inr m -> loads w m = Some (InitFails e) ->
        ~ In d (getLoadOrder st')).
Proof.
  intros Hrun. destruct (load_order_spec w reads st' Hrun) as [Hs Hiff].
  assert (Hiff' : forall d, In d (getLoadOrder st')
                    <-> listed_directory w d /\ passes_all_stages w d).
  { intros d. now rewrite Hiff, initialized_ok_listed. }
  split; [exact Hiff'|]. split; [exact Hs|]. split; [|split; [|split]].
  - intros l Hl Hl'. apply sorted_unique; auto.
    intros x. rewrite Hiff'. symmetry. apply Hl'.
  - intros a b Ha Hb Hina Hinb.
    rewrite (sorted_precedes _ _ _ Hs Hina Hinb).
    now apply js_string_lt.
  - intros a b Ha Hb Hina Hinb.
    rewrite (sorted_precedes _ _ _ Hs Hina Hinb).
    now rewrite !utf8_bmp.
  - intros d m e Hp Hl Hin. apply Hiff in Hin.
    destruct Hin as (_ & m' & f & Hp' & _ & Hl' & Hc).
    rewrite Hp in Hp'. injection Hp' as <-.
    rewrite Hl in Hl'. injection Hl' as <-. discriminate.
Qed.

Definition mixed_final : State :=
  Eval vm_compute in state_of (setup Fixtures.mixed_world initial_state).

Lemma load_order_is_sorted_successes_witness :
  (forall d, In d (getLoadOrder mixed_final)
             <-> listed_directory Fixtures.mixed_world d
                 /\ passes_all_stages Fixtures.mixed_world d)
  /\ StronglySorted str_lt (getLoadOrder mixed_final)
  /\ (forall l, StronglySorted str_lt l ->
        (forall d, In d l <-> listed_directory Fixtures.mixed_world d
                              /\ passes_all_stages Fixtures.mixed_world d) ->
        getLoadOrder mixed_final = l)
  /\ (forall a b, well_formed a -> well_formed b ->
        In (js_string a) (getLoadOrder mixed_final) ->
        In (js_string b) (getLoadOrder mixed_final) ->
        (precedes (js_string a) (js_string b) (getLoadOrder mixed_final)
         <-> units_compare a b = Lt))
  /\ (forall a b, in_bmp a -> in_bmp b ->
        In (js_string a) (getLoadOrder mixed_final) ->
        In (js_string b) (getLoadOrder mixed_final) ->
        (precedes (js_string a) (js_string b) (getLoadOrder mixed_final)
         <-> str_lt (utf8 a) (utf8 b)))
  /\ (forall d m e,
        parsed_manifest Fixtures.mixed_world d = inr m ->
        loads Fixtures.mixed_world m = Some (InitFails e) ->
        ~ In d (getLoadOrder mixed_final)).
Proof.
  apply (load_order_is_sorted_successes Fixtures.mixed_world 0 mixed_final).
  vm_compute. reflexivity.
Defined.

Example mixed_load_order : getLoadOrder mixed_final = ["alpha"; "gamma"].
Proof. reflexivity. Qed.

(** Two modules whose names are one character each: U+1F600, the code
    units D83D DE00 and the bytes F0 9F 98 80, and U+FF5E, the code unit
    FF5E and the bytes EF BD 9E.  Both are valid and initialize. *)
Definition grinning_face : code_units := [55357; 56832]%N.
Definition fullwidth_tilde : code_units := [65374]%N.

Definition wide_names_world : World :=
  let face := js_string grinning_face in
  let tilde := js_string fullwidth_tilde in
  mkWorld
    (inr [mkDirent tilde true; mkDirent face true])
    (fun dir =>
       if String.eqb dir face
       then inr (Fixtures.manifest_text face "index.ts")
       else if String.eqb dir tilde
       then inr (Fixtures.manifest_text tilde "index.ts")
       else inl Fixtures.ENOENT)
    (fun text =>
       if String.eqb text (Fixtures.manifest_text face "index.ts")
       then inr (Fixtures.manifest_object face "index.ts")
       else if String.eqb text (Fixtures.manifest_text tilde "index.ts")
       then inr (Fixtures.manifest_object tilde "index.ts")
       else inl Fixtures.SyntaxError)
    (fun dir entry => String.eqb entry "index.ts")
    (fun name entry => inr (InitFunction InitCompletes))
    (fun n => Z.of_nat n).

Definition wide_names_final : State :=
  Eval vm_compute in state_of (setup wide_names_world initial_state).

(** The load order is not in the order of the bytes of the names: both
    modules initialize, U+1F600 is loaded first, and the bytes of U+FF5E
    come first. *)
Lemma load_order_not_in_byte_order :
  setup wide_names_world initial_state = Ok tt wide_names_final
  /\ getLoadOrder wide_names_final
     = [js_string grinning_face; js_string fullwidth_tilde]
  /\ well_formed grinning_face /\ well_formed fullwidth_tilde
  /\ units_compare grinning_face fullwidth_tilde = Lt
  /\ str_lt (utf8 fullwidth_tilde) (utf8 grinning_face)
  /\ ~ StronglySorted str_lt
         (map utf8 [grinning_face; fullwidth_tilde]).
Proof.
  split; [vm_compute; reflexivity|].
  split; [vm_compute; reflexivity|].
  split; [repeat constructor|].
  split; [repeat constructor|].
  split; [reflexivity|].
  assert (Hlt : str_lt (utf8 fullwidth_tilde) (utf8 grinning_face))
    by (vm_compute; reflexivity).
  split; [exact Hlt|].
  intros Hs. apply StronglySorted_inv in Hs. destruct Hs as [_ Hall].
  apply Forall_inv in Hall.
  apply (str_lt_irrefl (utf8 fullwidth_tilde)).
  eapply str_lt_trans; [exact Hlt | exact Hall].
Qed.

Lemma sorted_NoDup_strict (l : list string) :
  StronglySorted str_le l -> NoDup l -> StronglySorted str_lt l.
Proof.
  induction 1 as [|a l Hs IH Ha]; intros Hnd; constructor.
  - inversion Hnd; auto.
  - inversion Hnd as [|? ? Hnin _]; subst.
    rewrite Forall_forall in *. intros x Hx.
    destruct (Ha x Hx) as [Hlt| ->]; [exact Hlt | contradiction].
Qed.

Lemma directories_sorted (w : World) : StronglySorted str_le (directories w).
Proof.
  unfold directories. destruct (fs_readdir w); [constructor|].
  apply sort_sorted.
Qed.

(** When every directory holds a module that passes all stages, the load
    order is the sorted list of the directory names. *)
Corollary load_order_all_valid (w : World) (reads : nat) (st' : State) :
  setup w (fresh_state reads) = Ok tt st' ->
  NoDup (directories w) ->
  (forall d, In d (directories w) -> initialized_ok w d) ->
  getLoadOrder st' = directories w.
Proof.
  intros Hrun Hnd Hall.
  destruct (load_order_spec w reads st' Hrun) as [Hs Hiff].
  apply sorted_unique; auto.
  - apply sorted_NoDup_strict; [apply directories_sorted | exact Hnd].
  - intros d. rewrite Hiff. split; [now intros [Hd _] | apply Hall].
Qed.

(* ------------------------------------------------------------------ *)
(** ** Success records after a completed run *)

(** C9: when [setup] has returned, every record whose [success] is true is
    at the initialization stage; [isModuleSetUp] is true exactly for the
    names in the load order, false for a name that is not a subdirectory of
    the modules directory, and false for a name without a record. *)
Theorem success_means_initialized (w : World) (reads : nat) (st' : State) :
  setup w (fresh_state reads) = Ok tt st' ->
  (forall k r, getModuleInfo st' k = Some r -> success r = true ->
     stage r = initialization)
  /\ (forall k, isModuleSetUp st' k = true <-> In k (getLoadOrder st'))
  /\ (forall k, ~ In k (directories w) -> isModuleSetUp st' k = false)
  /\ (forall k, getModuleInfo st' k = None -> isModuleSetUp st' k = false).
Proof.
  intros Hrun. destruct (setup_post_of_run w reads st' Hrun) as [Hinv Hiff].
  assert (Hset : forall k, isModuleSetUp st' k = true
                           <-> In k (getLoadOrder st')).
  { intros k. unfold isModuleSetUp. split.
    - destruct (map_get (modules st') k) as [r|] eqn:Eg; [|discriminate].
      intros Hs.
      destruct (inv_success _ _ _ _ _ _ Hinv k r Eg Hs) as [[[] _]|[Hin _]].
      exact Hin.
    - intros Hin.
      destruct (inv_done _ _ _ _ _ _ Hinv k Hin) as (r & Hg & Hs).
      unfold getModuleInfo in Hg. now rewrite Hg. }
  split; [|split; [exact Hset|split]].
  - intros k r Hg Hs.
    destruct (inv_success _ _ _ _ _ _ Hinv k r Hg Hs) as [[[] _]|[_ Hst]].
    exact Hst.
  - intros k Hk. destruct (isModuleSetUp st' k) eqn:E; auto.
    exfalso. apply Hk. apply Hset in E. apply Hiff in E. now destruct E.
  - intros k Hg. unfold isModuleSetUp, getModuleInfo in *. now rewrite Hg.
Qed.

Lemma success_means_initialized_witness :
  (forall k r, getModuleInfo mixed_final k = Some r -> success r = true ->
     stage r = initialization)
  /\ (forall k, isModuleSetUp mixed_final k = true
                <-> In k (getLoadOrder mixed_final))
  /\ (forall k, ~ In k (directories Fixtures.mixed_world) ->
        isModuleSetUp mixed_final k = false)
  /\ (forall k, getModuleInfo mixed_final k = None ->
        isModuleSetUp mixed_final k = false).
Proof.
  apply (success_means_initialized Fixtures.mixed_world 0 mixed_final).
  vm_compute. reflexivity.
Defined.

Example mixed_isModuleSetUp :
  map (isModuleSetUp mixed_final)
    ["alpha"; "beta"; "gamma"; "delta"; "epsilon"; "README.md"; "zeta"]
  = [true; false; true; false; false; false; false].
Proof. reflexivity. Qed.

(* ------------------------------------------------------------------ *)
(** ** Discovery and the shape of the manifest *)

(** The only parsed values [discover] accepts are objects and [null]. *)
Lemma parsed_manifest_accepts (w : World) (d : string) (m : Json) :
  parsed_manifest w d = inr m <->
  exists raw parsed,
    fs_readFile w d = inr raw
    /\ JSON_parse w raw = inr parsed
    /\ m = Object_freeze parsed
    /\ (parsed = JNull \/ exists f props, parsed = JObj f props).
Proof.
  unfold parsed_manifest. split.
  - destruct (fs_readFile w d) as [e|raw]; [discriminate|].
    destruct (JSON_parse w raw) as [e|parsed] eqn:Ep; [discriminate|].
    intros H. exists raw, parsed.
    split; [reflexivity|]. split; [exact Ep|].
    destruct parsed as [| | | | |f props]; simpl in H; try discriminate;
      injection H as <-; (split; [reflexivity|]).
    + now left.
    + right. now exists f, props.
  - intros (raw & parsed & -> & -> & -> & [->|(f & props & ->)]);
      reflexivity.
Qed.

(** A manifest that is a number, a string, a boolean or an array is
    refused with the error the source raises for it. *)
Lemma parsed_manifest_refuses (w : World) (d raw : string) (parsed : Json) :
  fs_readFile w d = inr raw ->
  JSON_parse w raw = inr parsed ->
  parsed <> JNull ->
  (forall f props, parsed <> JObj f props) ->
  parsed_manifest w d = inl (ErrorObj "Error" "manifest JSON must be an object").
Proof.
  intros Hr Hp Hn Ho. unfold parsed_manifest. rewrite Hr, Hp.
  destruct parsed; try reflexivity.
  - exfalso. now apply Hn.
  - exfalso. eapply Ho. reflexivity.
Qed.

(** C6 fails on the code: a [manifest.json] holding [null] is not a
    non-array object, yet [discover] returns it as a discovered manifest and
    records a discovery success; no failure is recorded and the directory
    goes on to validation. *)
Theorem discover_accepts_null :
  exists st',
    discover Fixtures.null_manifest_world initial_state
    = Ok [("a", JNull)] st'
    /\ getModuleInfo st' "a"
       = Some (mkModuleInfo (Some "a") discovery true (Some JNull) None None)
    /\ failed (getReport st') = 0
    /\ errors (getReport st') = [].
Proof. eexists. vm_compute. repeat split. Qed.

(* ------------------------------------------------------------------ *)
(** ** Failures that escape [setup] *)

(** C1 fails on the code: with a [manifest.json] holding [null], the
    [TypeError] raised by the destructuring in [validate] propagates out of
    [setup]; nothing about it is recorded in the registry, and the run is
    left marked as in progress. *)
Theorem setup_raises_on_null_manifest :
  exists st',
    setup Fixtures.null_manifest_world initial_state
    = Throw destructuring_TypeError st'
    /\ failed (getReport st') = 0
    /\ errors (getReport st') = []
    /\ isSetupInProgress st' = true
    /\ isSetupComplete st' = false.
Proof. eexists. vm_compute. repeat split. Qed.

(** The rejection of [readdir] escapes as well, when the modules directory
    cannot be listed. *)
Example setup_raises_on_missing_directory :
  setup Fixtures.missing_directory_world initial_state
  = Throw Fixtures.ENOENT
      (mkState [] [] 0 false true 1).
Proof. reflexivity. Qed.

(** These are the only two ways: when the directory can be listed and no
    manifest is [null], [setup] returns. *)
Lemma setup_returns (w : World) (reads : nat) (ents : list Dirent) :
  fs_readdir w = inr ents ->
  (forall d, parsed_manifest w d <> inr JNull) ->
  exists st', setup w (fresh_state reads) = Ok tt st'.
Proof.
  intros Hdir Hnull.
  assert (HF : StageFrame w (fun _ => True) (fun m => m <> JNull)
                 (fun _ _ => False)).
  { constructor; auto.
    - intros d m Hp ->. now apply (Hnull d).
    - intros e st He. congruence. }
  assert (H := hoare_setup w _ _ _ HF (fun _ _ _ _ => I)
                 (fresh_state reads) I).
  destruct (setup w (fresh_state reads)) as [[] st'|]; [|contradiction].
  now exists st'.
Qed.

(* ------------------------------------------------------------------ *)
(** ** One record per module, and the stage it shows *)

(** The registry never holds two records for one name. *)
Lemma registry_NoDup (w : World) (st : State) :
  NoDup (map_keys (modules st)) ->
  NoDup (map_keys (modules (state_of (setup w st)))).
Proof.
  apply (frame_setup w (fun s => NoDup (map_keys (modules s)))
           (fun _ => True)).
  - constructor; auto.
    intros s k u H _. simpl. now apply map_set_NoDup.
  - intros s s' ->. auto.
Qed.

(** The stage at which the pipeline stops for the directory [d], and how:
    the first stage that fails, or initialization when none does. *)
Definition final_status (w : World) (d : string) : ModuleSetupStage * bool :=
  match parsed_manifest w d with
  | inl _ => (discovery, false)
  | inr m =>
      if validates w d m
      then match loads w m with
           | Some f => (initialization, completes f)
           | None => (loading, false)
           end
      else (validation, false)
  end.

(** When [setup] returns, the registry holds exactly one record for each
    subdirectory and none for other names; each record agrees with the
    environment ([record_ok]), and its stage is the last stage the module
    was taken to, with the outcome of that stage. *)
Lemma registry_after_setup (w : World) (reads : nat) (st' : State) :
  setup w (fresh_state reads) = Ok tt st' ->
  NoDup (map_keys (modules st'))
  /\ (forall k, In k (directories w) <->
                exists r, getModuleInfo st' k = Some r)
  /\ (forall k r, getModuleInfo st' k = Some r ->
        record_ok w k r /\ (stage r, success r) = final_status w k).
Proof.
  intros Hrun. destruct (setup_post_of_run w reads st' Hrun) as [Hinv Hiff].
  split; [|split].
  - assert (H := registry_NoDup w (fresh_state reads)).
    rewrite Hrun in H. apply H. constructor.
  - intros k. split.
    + intros Hk. destruct (inv_cover _ _ _ _ _ _ Hinv k Hk) as [H|[]].
      exact H.
    + intros (r & Hg). now apply (inv_records _ _ _ _ _ _ Hinv k r).
  - intros k r Hg.
    destruct (inv_records _ _ _ _ _ _ Hinv k r Hg) as [_ Hok].
    split; [exact Hok|].
    assert (Hsucc : success r = true -> stage r = initialization).
    { intros Hs.
      destruct (inv_success _ _ _ _ _ _ Hinv k r Hg Hs) as [[[] _]|[_ H]].
      exact H. }
    unfold record_ok in Hok. unfold final_status.
    destruct (stage r) eqn:Es.
    + destruct (success r) eqn:Ess.
      * specialize (Hsucc eq_refl). discriminate.
      * destruct Hok as (e & -> & _). reflexivity.
    + destruct Hok as (m & -> & _ & ->).
      destruct (success r) eqn:Ess; [|reflexivity].
      specialize (Hsucc eq_refl). discriminate.
    + destruct Hok as (m & -> & _ & -> & Hl).
      destruct (success r) eqn:Ess.
      * specialize (Hsucc eq_refl). discriminate.
      * destruct (loads w m); [discriminate | reflexivity].
    + destruct Hok as (m & f & -> & _ & -> & -> & ->). reflexivity.
Qed.

(** X17: a directory refused by discovery keeps, to the end of a run that
    returns, the failure record with the cause that [discover] caught, and
    takes no part in the later stages. *)
Lemma discovery_failure_kept (w : World) (reads : nat) (st' : State)
    (d : string) (e : Thrown) :
  setup w (fresh_state reads) = Ok tt st' ->
  In d (directories w) ->
  parsed_manifest w d = inl e ->
  getModuleInfo st' d = Some (discovery_failure_record d e)
  /\ ~ In d (getLoadOrder st').
Proof.
  intros Hrun Hd Hp.
  destruct (registry_after_setup w reads st' Hrun) as (_ & Hcov & Hrec).
  destruct (proj1 (Hcov d) Hd) as (r & Hg).
  destruct (Hrec d r Hg) as [Hok Hfin].
  unfold final_status in Hfin. rewrite Hp in Hfin.
  injection Hfin as Hst Hsu.
  unfold record_ok in Hok. rewrite Hst, Hsu in Hok.
  destruct Hok as (e' & He' & ->).
  split; [congruence|].
  intros Hin.
  destruct (load_order_spec w reads st' Hrun) as (_ & Hiff).
  apply Hiff in Hin. destruct Hin as (_ & m & f & Hp' & _). congruence.
Qed.

Example mixed_final_statuses :
  map (final_status Fixtures.mixed_world)
    ["alpha"; "beta"; "delta"; "epsilon"; "gamma"]
  = [(initialization, true); (initialization, false); (validation, false);
     (discovery, false); (initialization, true)].
Proof. reflexivity. Qed.

(** C7 fails on the code: on a [manifest.json] holding [null], [validate]
    is called for the module and raises before it writes anything, so the
    registry goes on showing the module at discovery-success although
    validation was the last stage attempted for it. *)
Theorem record_stage_lags_on_null_manifest :
  exists output st1 st',
    discover Fixtures.null_manifest_world
      (set_clockReads 1 (set_isSetupInProgress true initial_state))
    = Ok output st1
    /\ In ("a", JNull) output
    /\ validate Fixtures.null_manifest_world "a" JNull st1
       = Throw destructuring_TypeError st1
    /\ setup Fixtures.null_manifest_world initial_state
       = Throw destructuring_TypeError st'
    /\ st' = st1
    /\ getModuleInfo st' "a"
       = Some (mkModuleInfo (Some "a") discovery true (Some JNull) None None).
Proof.
  do 3 eexists. vm_compute. repeat split. now left.
Qed.

(* ------------------------------------------------------------------ *)
(** ** Frozen manifests *)

(** What the registry can hold as a manifest: a frozen object, or the
    [null] that [discover] lets through (a primitive, which nothing can
    mutate). *)
Definition frozen_manifest (m : Json) : Prop :=
  m = JNull \/ exists props, m = JObj true props.

Definition manifests_frozen (st : State) : Prop :=
  forall k r m,
    getModuleInfo st k = Some r -> manifest r = Some m -> frozen_manifest m.

(** What a caller can try on the manifest itself has no effect. *)
Lemma frozen_immutable (m : Json) :
  frozen_manifest m ->
  Object_isFrozen m = true
  /\ forall key v, js_assign m key v = m /\ js_delete m key = m.
Proof. intros [->|(props & ->)]; auto. Qed.

Lemma parsed_manifest_frozen_object (w : World) (d : string) (m : Json) :
  parsed_manifest w d = inr m -> frozen_manifest m.
Proof.
  intros H. apply parsed_manifest_accepts in H.
  destruct H as (raw & parsed & _ & _ & -> & [->|(f & props & ->)]).
  - now left.
  - right. now exists props.
Qed.

Lemma manifests_frozen_frame (w : World) :
  StageFrame w manifests_frozen frozen_manifest (fun _ => manifests_frozen).
Proof.
  constructor; auto.
  - intros st k u H Hu k' r m Hg Hm.
    destruct (string_dec k k') as [<-|Hne].
    + rewrite getModuleInfo_setModuleInfo in Hg. injection Hg as <-.
      destruct (u_manifest u) as [m'|] eqn:Eu.
      * assert (m' = m).
        { destruct (getModuleInfo st k); simpl in Hm; rewrite Eu in Hm;
            simpl in Hm; congruence. }
        subst. auto.
      * destruct (getModuleInfo st k) as [r0|] eqn:Eg; simpl in Hm;
          rewrite Eu in Hm; simpl in Hm; [|discriminate].
        eapply H; eauto.
    + rewrite getModuleInfo_setModuleInfo_other in Hg by assumption.
      eapply H; eauto.
  - apply parsed_manifest_frozen_object.
Qed.

Lemma setup_keeps_manifests_frozen (w : World) (st : State) :
  manifests_frozen st -> manifests_frozen (state_of (setup w st)).
Proof.
  apply (frame_setup w manifests_frozen _ (manifests_frozen_frame w)).
  intros s s' Hm H k r m. unfold getModuleInfo. rewrite Hm. apply H.
Qed.

(** A caller that got a manifest from [getModuleInfo] or [getManifests]
    holds the object the registry holds, not a copy: what the caller does to
    it, or below it, is done to the manifest of the record. *)
Definition set_manifest (m : Json) (r : ModuleInfo) : ModuleInfo :=
  mkModuleInfo (name r) (stage r) (success r) (Some m) (error r) (initTime r).

Definition caller_updates (k : string) (op : Json -> Json) (st : State)
  : State :=
  match getModuleInfo st k with
  | Some r =>
      match manifest r with
      | Some m => set_modules (map_set (modules st) k (set_manifest (op m) r)) st
      | None => st
      end
  | None => st
  end.

(** [getModuleInfo(k).manifest.p1...pn[key] = v] and
    [delete getModuleInfo(k).manifest.p1...pn[key]]. *)
Definition caller_assigns (k : string) (path : list string) (key : string)
    (v : Json) (st : State) : State :=
  caller_updates k (fun m => js_assign_at path m key v) st.

Definition caller_deletes (k : string) (path : list string) (key : string)
    (st : State) : State :=
  caller_updates k (fun m => js_delete_at path m key) st.

Lemma map_set_get (V : Type) (m : Map V) (k : string) (v : V) :
  map_get m k = Some v -> map_set m k v = m.
Proof.
  unfold map_get, map_set.
  induction m as [|[k' v'] m IH]; simpl; [discriminate|].
  destruct (String.eqb k k') eqn:E.
  - now intros [= ->].
  - intros H. now rewrite IH.
Qed.

Lemma caller_updates_frozen (k : string) (op : Json -> Json) (st : State) :
  manifests_frozen st ->
  (forall m, frozen_manifest m -> op m = m) ->
  caller_updates k op st = st.
Proof.
  intros Hf Hop. unfold caller_updates.
  destruct (getModuleInfo st k) as [r|] eqn:Hg; [|reflexivity].
  destruct (manifest r) as [m|] eqn:Hm; [|reflexivity].
  rewrite (Hop m (Hf k r m Hg Hm)).
  replace (set_manifest m r) with r
    by (unfold set_manifest; destruct r; simpl in *; now subst).
  unfold getModuleInfo in Hg. rewrite (map_set_get _ _ _ _ Hg).
  now destruct st.
Qed.

(** C10: manifests are frozen by [discover], right after parsing, so every
    manifest it hands to validation and every manifest it stores is frozen;
    after [setup] (whether it returned or not) every manifest in the
    registry is frozen, so a caller's assignment to, or deletion of, a
    property of a manifest obtained from [getModuleInfo] or [getManifests]
    leaves the manifest and the registry unchanged; and when [setup] has
    returned, every record past a discovery failure, failures of later
    stages included, still carries the manifest that discovery froze.  The
    freezing is that of the manifest object alone: an object held by a
    property of a manifest is as [JSON.parse] made it. *)
Theorem manifests_are_frozen (w : World) (reads : nat) :
  let run := setup w (fresh_state reads) in
  let st' := state_of run in
  hoare manifests_frozen (discover w)
    (fun output st =>
       manifests_frozen st
       /\ forall k m, In (k, m) output -> frozen_manifest m)
    (fun _ => manifests_frozen)
  /\ manifests_frozen st'
  /\ (forall k r m key v,
        getModuleInfo st' k = Some r -> manifest r = Some m ->
        Object_isFrozen m = true
        /\ js_assign m key v = m /\ js_delete m key = m)
  /\ (forall m key v,
        In (Some m) (getManifests st') ->
        Object_isFrozen m = true
        /\ js_assign m key v = m /\ js_delete m key = m)
  /\ (forall k key v,
        caller_assigns k [] key v st' = st'
        /\ caller_deletes k [] key st' = st')
  /\ (returns run = true ->
      forall k r,
        getModuleInfo st' k = Some r ->
        success r = true \/ stage r <> discovery ->
        exists m, manifest r = Some m /\ parsed_manifest w k = inr m
                  /\ frozen_manifest m)
  /\ (forall d m p v,
        parsed_manifest w d = inr m -> get_prop m p = Some (Some v) ->
        exists raw parsed,
          fs_readFile w d = inr raw /\ JSON_parse w raw = inr parsed
          /\ get_prop parsed p = Some (Some v)).
Proof.
  cbv zeta.
  assert (Hfrozen : manifests_frozen (state_of (setup w (fresh_state reads)))).
  { apply setup_keeps_manifests_frozen. intros k r m Hg. discriminate. }
  split; [apply (frame_discover w _ _ _ (manifests_frozen_frame w))|].
  split; [exact Hfrozen|]. split; [|split; [|split; [|split]]].
  - intros k r m key v Hg Hm.
    destruct (frozen_immutable m (Hfrozen k r m Hg Hm)) as [Hf Hno].
    split; [exact Hf | apply Hno].
  - intros m key v Hin.
    assert (Hm : frozen_manifest m).
    { unfold getManifests in Hin. apply in_map_iff in Hin.
      destruct Hin as (r & Hm & Hr). apply filter_In in Hr.
      destruct Hr as [Hr _]. unfold map_values in Hr.
      apply in_map_iff in Hr. destruct Hr as ([k r'] & Heq & Hr).
      simpl in Heq. subst r'.
      assert (Hnd : NoDup (map_keys (modules
                       (state_of (setup w (fresh_state reads)))))).
      { apply registry_NoDup. constructor. }
      eapply Hfrozen; [|exact Hm].
      unfold getModuleInfo. apply In_map_get; eauto. }
    destruct (frozen_immutable m Hm) as [Hf Hno].
    split; [exact Hf | apply Hno].
  - intros k key v.
    split; apply caller_updates_frozen; try exact Hfrozen; intros m Hm;
      destruct (proj2 (frozen_immutable m Hm) key v) as [Ha Hd];
      [exact Ha | exact Hd].
  - intros Hret k r Hg Hcond.
    destruct (setup w (fresh_state reads)) as [[] st'|] eqn:Hrun;
      [|discriminate].
    destruct (setup_post_of_run w reads st' Hrun) as [Hinv _].
    destruct (record_ok_manifest w k r
                (proj2 (inv_records _ _ _ _ _ _ Hinv k r Hg)) Hcond)
      as (m & Hm & Hp).
    exists m. repeat split; auto.
    eapply parsed_manifest_frozen_object; eauto.
  - intros d m p v Hp Hv. apply parsed_manifest_accepts in Hp.
    destruct Hp as (raw & parsed & Hr & Hj & -> & [->|(f & props & ->)]);
      [discriminate|].
    exists raw, (JObj f props). auto.
Qed.

(** On the mixed fixture: the module whose entry file is missing failed
    validation, and its record keeps the frozen manifest. *)
Example failed_record_keeps_manifest :
  option_map (fun r => (stage r, success r, manifest r))
    (getModuleInfo mixed_final "delta")
  = Some (validation, false,
          Some (JObj true [("name", JStr "delta"); ("entry", JStr "index.ts")])).
Proof. reflexivity. Qed.

(** [Object.freeze] freezes the manifest object, not the values inside:
    an array held by a property keeps its own flag. *)
Example freeze_is_shallow :
  Object_freeze (JObj false [("name", JStr "a"); ("tags", JArr false [])])
  = JObj true [("name", JStr "a"); ("tags", JArr false [])].
Proof. reflexivity. Qed.

(** A module [a] whose manifest holds an object under [author]. *)
Definition author_manifest (frozen : bool) (author : string) : Json :=
  JObj frozen
    [("name", JStr "a"); ("entry", JStr "index.ts");
     ("author", JObj false [("name", JStr author)])].

Definition author_text : string :=
  "{" ++ Fixtures.q "name" ++ ":" ++ Fixtures.q "a" ++ ","
  ++ Fixtures.q "entry" ++ ":" ++ Fixtures.q "index.ts" ++ ","
  ++ Fixtures.q "author" ++ ":{" ++ Fixtures.q "name" ++ ":"
  ++ Fixtures.q "Ann" ++ "}}".

Definition author_world : World :=
  mkWorld
    (inr [mkDirent "a" true])
    (fun dir => if String.eqb dir "a" then inr author_text
                else inl Fixtures.ENOENT)
    (fun text => if String.eqb text author_text
                 then inr (author_manifest false "Ann")
                 else inl Fixtures.SyntaxError)
    (fun dir entry => String.eqb dir "a" && String.eqb entry "index.ts")
    (fun name entry => inr (InitFunction InitCompletes))
    (fun n => Z.of_nat n).

Definition author_final : State :=
  Eval vm_compute in state_of (setup author_world initial_state).

(** A manifest in the registry is not immutable to callers: the module [a]
    is set up, its manifest is frozen, and the caller's
    [getModuleInfo("a").manifest.author.name = "Bob"] changes what
    [getModuleInfo] and [getManifests] give from then on; so does deleting
    the property. *)
Lemma nested_manifest_value_mutable :
  setup author_world initial_state = Ok tt author_final
  /\ getManifests author_final = [Some (author_manifest true "Ann")]
  /\ Object_isFrozen (author_manifest true "Ann") = true
  /\ getManifests
       (caller_assigns "a" ["author"] "name" (JStr "Bob") author_final)
     = [Some (author_manifest true "Bob")]
  /\ option_map manifest
       (getModuleInfo
          (caller_assigns "a" ["author"] "name" (JStr "Bob") author_final)
          "a")
     = Some (Some (author_manifest true "Bob"))
  /\ getManifests (caller_deletes "a" ["author"] "name" author_final)
     = [Some (JObj true
                [("name", JStr "a"); ("entry", JStr "index.ts");
                 ("author", JObj false [])])]
  /\ author_manifest true "Bob" <> author_manifest true "Ann".
Proof.
  repeat split; try (vm_compute; reflexivity). discriminate.
Qed.

(* ------------------------------------------------------------------ *)
(** ** The report after a run *)

Example mixed_report_counts :
  let r := getReport mixed_final in
  (discovered r, validated r, loaded r, initialized r, failed r)
  = (5, 3, 3, 2, 3).
Proof. reflexivity. Qed.

Lemma filter_map_snd {V : Type} (p : V -> bool) (m : Map V) :
  filter p (map_values m) = map_values (filter (fun kv => p (snd kv)) m).
Proof.
  unfold map_values. induction m as [|[k v] m IH]; simpl; auto.
  destruct (p v); simpl; now rewrite IH.
Qed.

Lemma NoDup_keys_filter {V : Type} (q : string * V -> bool) (m : Map V) :
  NoDup (map_keys m) -> NoDup (map_keys (filter q m)).
Proof.
  unfold map_keys. induction m as [|[k v] m IH]; simpl; intros Hnd; auto.
  inversion Hnd as [|? ? Hnin Hnd']; subst.
  destruct (q (k, v)); simpl; auto.
  constructor; auto. intros Hin. apply Hnin.
  apply in_map_iff in Hin. destruct Hin as ([k' v'] & Hk & Hin).
  simpl in Hk. subst k'. apply filter_In in Hin. destruct Hin as [Hin _].
  change k with (fst (k, v')). now apply in_map.
Qed.

(** When [setup] returns, the count of initialized modules in the report is
    the length of the load order. *)
Lemma initialized_count (w : World) (reads : nat) (st' : State) :
  setup w (fresh_state reads) = Ok tt st' ->
  initialized (getReport st') = List.length (getLoadOrder st').
Proof.
  intros Hrun.
  destruct (setup_post_of_run w reads st' Hrun) as [Hinv _].
  destruct (registry_after_setup w reads st' Hrun) as (Hnd & _ & _).
  destruct (load_order_spec w reads st' Hrun) as [Hsorted _].
  unfold getReport. simpl. rewrite filter_map_snd.
  set (q := fun kv : string * ModuleInfo =>
              stage_eqb (stage (snd kv)) initialization && success (snd kv)).
  unfold map_values. rewrite length_map.
  rewrite <- (length_map fst).
  apply Permutation_length, NoDup_Permutation.
  - apply (NoDup_keys_filter q), Hnd.
  - apply StronglySorted_NoDup, Hsorted.
  - intros k. split.
    + intros Hin. apply in_map_iff in Hin.
      destruct Hin as ([k' r] & Hk & Hin). simpl in Hk. subst k'.
      apply filter_In in Hin. destruct Hin as [Hin Hq].
      unfold q in Hq. simpl in Hq. apply andb_true_iff in Hq.
      destruct Hq as [_ Hs].
      assert (Hg : getModuleInfo st' k = Some r)
        by (apply In_map_get; assumption).
      destruct (inv_success _ _ _ _ _ _ Hinv k r Hg Hs) as [[[] _]|[H _]].
      exact H.
    + intros Hin.
      destruct (inv_done _ _ _ _ _ _ Hinv k Hin) as (r & Hg & Hs).
      destruct (inv_success _ _ _ _ _ _ Hinv k r Hg Hs) as [[[] _]|[_ Hst]].
      apply in_map_iff. exists (k, r). split; [reflexivity|].
      apply filter_In. split; [now apply map_get_In|].
      unfold q. simpl. rewrite Hst, Hs. reflexivity.
Qed.

(* ================================================================== *)
(** * Further properties of the module system *)

(* ------------------------------------------------------------------ *)
(** ** The loader and the initializer, one call at a time *)

(** X1: [load] never throws.  It returns the initializer exactly when the
    import succeeds and exports a function, and then records a loading
    success; otherwise it returns [null] and records a loading failure whose
    error is a [ModuleLoadError] carrying the import's error as its cause,
    or an [EntryPointMissingInitError] (which is also a [ModuleLoadError])
    when nothing callable is exported.  Only the record of [manifest.name]
    changes; it keeps its manifest and name; the initializer is not run (the
    load order and the clock are untouched). *)
Theorem load_outcomes (w : World) (m : Json) (st : State) :
  let n := manifest_name m in
  exists st' r,
    load w m st = Ok (loads w m) st'
    /\ getModuleInfo st' n = Some r
    /\ stage r = loading
    /\ success r = isSome (loads w m)
    /\ (forall k, k <> n -> getModuleInfo st' k = getModuleInfo st k)
    /\ initOrder st' = initOrder st
    /\ clockReads st' = clockReads st
    /\ (forall r0, getModuleInfo st n = Some r0 ->
          manifest r = manifest r0 /\ name r = name r0)
    /\ match import_init w n (manifest_entry m) with
       | inl e => error r = Some (Errors.ModuleLoadError n (Some e))
       | inr (InitFunction f) => loads w m = Some f
       | inr _ => error r = Some (Errors.EntryPointMissingInitError n)
       end
    /\ (success r = false ->
        exists e,
          error r = Some e
          /\ Errors.instanceof e Errors.CModuleLoadError = true
          /\ Errors.stage e = loading
          /\ Errors.module e = n).
Proof.
  cbv zeta. unfold load, loads.
  destruct (import_init w (manifest_name m) (manifest_entry m))
    as [e|[|v|f]] eqn:Ei; simpl;
    eexists; eexists; (split; [reflexivity|]);
    (split; [apply getModuleInfo_setModuleInfo|]);
    rewrite merge_stage, merge_success; simpl;
    (split; [reflexivity|]); (split; [reflexivity|]);
    (split; [intros k Hk; now apply getModuleInfo_setModuleInfo_other|]);
    (split; [reflexivity|]); (split; [reflexivity|]);
    (split; [intros r0 Hr0; rewrite Hr0; simpl; auto|]);
    (split; [try reflexivity; apply merge_error; reflexivity|]);
    intros Hs; try discriminate;
    eexists; (split; [apply merge_error; reflexivity|]); auto.
Qed.

(** X2: [initialize] never throws.  When the initializer completes, the
    name is appended to the end of the load order and the record becomes an
    initialization success whose [initTime] is the difference of the two
    clock readings taken around the call; when it throws or rejects, the
    load order is unchanged, the clock is read once, and the record becomes
    an initialization failure with a [ModuleInitializationError] whose cause
    is what was thrown.  No other record changes. *)
Theorem initialize_outcomes (w : World) (k : string) (f : ModuleInit)
    (st : State) :
  exists st' r,
    initialize w k f st = Ok tt st'
    /\ getModuleInfo st' k = Some r
    /\ stage r = initialization
    /\ success r = completes f
    /\ (forall k', k' <> k -> getModuleInfo st' k' = getModuleInfo st k')
    /\ match f with
       | InitCompletes =>
           initOrder st' = initOrder st ++ [k]
           /\ clockReads st' = 2 + clockReads st
           /\ initTime r
              = Some (clock w (S (clockReads st)) - clock w (clockReads st))%Z
       | InitFails e =>
           initOrder st' = initOrder st
           /\ clockReads st' = 1 + clockReads st
           /\ error r = Some (Errors.ModuleInitializationError k (Some e))
       end.
Proof.
  unfold initialize.
  destruct f as [|e]; simpl;
    eexists; eexists; (split; [reflexivity|]).
  - split.
    { unfold getModuleInfo, setModuleInfo_state. simpl.
      apply map_get_set_same. }
    rewrite merge_stage, merge_success. simpl.
    repeat split; auto.
    + intros k' Hk. unfold getModuleInfo, setModuleInfo_state. simpl.
      now apply map_get_set_other.
    + destruct (map_get (modules st) k); reflexivity.
  - split.
    { unfold getModuleInfo, setModuleInfo_state. simpl.
      apply map_get_set_same. }
    rewrite merge_stage, merge_success. simpl.
    repeat split; auto.
    + intros k' Hk. unfold getModuleInfo, setModuleInfo_state. simpl.
      now apply map_get_set_other.
    + apply merge_error. reflexivity.
Qed.

(* ------------------------------------------------------------------ *)
(** ** The validator, complete *)

Lemma truthy_string_inv (v : JsValue) :
  truthy v = true -> JsType_eqb (typeof v) TString = true ->
  exists s, v = Some (JStr s) /\ s <> EmptyString.
Proof.
  destruct v as [[| | |s| |]|]; simpl; try discriminate.
  intros Ht _. exists s. split; auto.
  intros ->. discriminate.
Qed.

(** The conditions under which a manifest passes, in the terms of the
    source: a non-empty string [name] equal to the directory name, a
    non-empty string [entry] ending in [.ts] or [.js], and an entry file
    that exists. *)
Definition acceptable (w : World) (d : string) (m : Json) : Prop :=
  exists en,
    get_prop m "name" = Some (Some (JStr d))
    /\ d <> EmptyString
    /\ get_prop m "entry" = Some (Some (JStr en))
    /\ en <> EmptyString
    /\ (endsWith en ".ts" = true \/ endsWith en ".js" = true)
    /\ fs_existsSync w d en = true.

Lemma validate_error_None (w : World) (d : string) (nm en : JsValue) :
  validate_error w d nm en = None <->
  exists e,
    nm = Some (JStr d) /\ d <> EmptyString
    /\ en = Some (JStr e) /\ e <> EmptyString
    /\ (endsWith e ".ts" = true \/ endsWith e ".js" = true)
    /\ fs_existsSync w d e = true.
Proof.
  unfold validate_error. split.
  - destruct (truthy nm) eqn:Tn; simpl; [|discriminate].
    destruct (JsType_eqb (typeof nm) TString) eqn:Sn; simpl; [|discriminate].
    destruct (truthy en) eqn:Te; simpl; [|discriminate].
    destruct (JsType_eqb (typeof en) TString) eqn:Se; simpl; [|discriminate].
    destruct (truthy_string_inv nm Tn Sn) as (s & -> & Hs).
    destruct (truthy_string_inv en Te Se) as (e & -> & He).
    simpl. destruct (String.eqb s d) eqn:Esd; simpl; [|discriminate].
    apply String.eqb_eq in Esd. subst s.
    destruct (endsWith e ".ts" || endsWith e ".js") eqn:Ex; simpl;
      [|discriminate].
    destruct (fs_existsSync w d e) eqn:Ef; simpl; [|discriminate].
    intros _. exists e. repeat split; auto.
    now apply orb_true_iff in Ex.
  - intros (e & -> & Hd & -> & He & Hx & Hf).
    rewrite (truthy_string d Hd), (truthy_string e He). simpl.
    rewrite String.eqb_refl. simpl.
    assert (Hx' : endsWith e ".ts" || endsWith e ".js" = true)
      by now apply orb_true_iff.
    rewrite Hx', Hf. reflexivity.
Qed.

(** X3: [validate] returns [true] exactly for an acceptable manifest, and
    then the record of the directory is a validation success; for every
    other manifest that is not [null] it returns [false] and the record is
    a validation failure carrying a [ModuleValidationError]. *)
Theorem validate_accepts_iff (w : World) (d : string) (m : Json) (st : State) :
  m <> JNull ->
  exists b st' r,
    validate w d m st = Ok b st'
    /\ (b = true <-> acceptable w d m)
    /\ getModuleInfo st' d = Some r
    /\ stage r = validation
    /\ success r = b
    /\ (forall k, k <> d -> getModuleInfo st' k = getModuleInfo st k)
    /\ (b = false ->
        exists e,
          error r = Some e
          /\ Errors.instanceof e Errors.CModuleValidationError = true
          /\ Errors.stage e = validation).
Proof.
  intros Hnull. unfold validate, acceptable.
  assert (Hp : exists nm en,
             get_prop m "name" = Some nm /\ get_prop m "entry" = Some en).
  { destruct m; try (eexists; eexists; split; reflexivity).
    now contradiction Hnull. }
  destruct Hp as (nm & en & Hn & He). rewrite Hn, He.
  destruct (validate_error w d nm en) as [err|] eqn:Ev; simpl.
  - exists false. eexists. eexists. split; [reflexivity|].
    split.
    { split; [discriminate|].
      intros (e & Hn' & Hd & He' & Hne & Hx & Hf).
      assert (Hnone : validate_error w d nm en = None).
      { apply validate_error_None. exists e.
        injection Hn' as ->. injection He' as ->. repeat split; auto. }
      congruence. }
    split; [apply getModuleInfo_setModuleInfo|].
    rewrite merge_stage, merge_success. simpl.
    repeat split; auto.
    + intros k Hk. now apply getModuleInfo_setModuleInfo_other.
    + intros _. exists err. split; [apply merge_error; reflexivity|].
      unfold validate_error in Ev.
      repeat match type of Ev with
             | (if ?c then _ else _) = _ => destruct c
             end;
        try discriminate; injection Ev as <-; auto.
  - exists true. eexists. eexists. split; [reflexivity|].
    split.
    { split; [|reflexivity]. intros _.
      apply validate_error_None in Ev.
      destruct Ev as (e & -> & Hd & -> & Hne & Hx & Hf).
      exists e. repeat split; auto. }
    split; [apply getModuleInfo_setModuleInfo|].
    rewrite merge_stage, merge_success. simpl.
    repeat split; auto.
    + intros k Hk. now apply getModuleInfo_setModuleInfo_other.
    + discriminate.
Qed.

(** X4: the first violation wins.  A [name] that is absent, empty or not a
    string is reported as the missing field [name] whatever the rest of the
    manifest; with a usable [name], an [entry] that is absent, empty or not
    a string is reported as the missing field [entry]; and when [name] is
    the directory name and [entry] has a recognized extension but no file,
    the error is a [ManifestEntryNotFoundError]. *)
Theorem validate_first_violation (w : World) (d : string) (m : Json)
    (st : State) (nm en : JsValue) :
  get_prop m "name" = Some nm ->
  get_prop m "entry" = Some en ->
  (truthy nm && JsType_eqb (typeof nm) TString = false ->
   validate_error w d nm en = Some (Errors.ManifestMissingFieldError d "name")
   /\ validation_fails_with w d m st Errors.CManifestMissingFieldError)
  /\ (truthy nm && JsType_eqb (typeof nm) TString = true ->
      truthy en && JsType_eqb (typeof en) TString = false ->
      validate_error w d nm en
      = Some (Errors.ManifestMissingFieldError d "entry")
      /\ validation_fails_with w d m st Errors.CManifestMissingFieldError)
  /\ (forall e,
        nm = Some (JStr d) -> d <> EmptyString ->
        en = Some (JStr e) -> e <> EmptyString ->
        endsWith e ".ts" = true \/ endsWith e ".js" = true ->
        fs_existsSync w d e = false ->
        validation_fails_with w d m st Errors.CManifestEntryNotFoundError).
Proof.
  intros Hn He. split; [|split].
  - intros Hbad.
    assert (Hv : validate_error w d nm en
                 = Some (Errors.ManifestMissingFieldError d "name")).
    { unfold validate_error.
      destruct (truthy nm), (JsType_eqb (typeof nm) TString);
        simpl in *; try discriminate; reflexivity. }
    split; [exact Hv|].
    apply (validate_error_recorded w d m st nm en _ Hn He Hv).
  - intros Hok Hbad.
    assert (Hv : validate_error w d nm en
                 = Some (Errors.ManifestMissingFieldError d "entry")).
    { unfold validate_error.
      apply andb_true_iff in Hok. destruct Hok as [-> ->]. simpl.
      destruct (truthy en), (JsType_eqb (typeof en) TString);
        simpl in *; try discriminate; reflexivity. }
    split; [exact Hv|].
    apply (validate_error_recorded w d m st nm en _ Hn He Hv).
  - intros e -> Hd -> Hne Hx Hf.
    apply (validate_error_recorded w d m st _ _
             (Errors.ManifestEntryNotFoundError d e) Hn He).
    unfold validate_error.
    rewrite (truthy_string d Hd), (truthy_string e Hne). simpl.
    rewrite String.eqb_refl. simpl.
    assert (Hx' : endsWith e ".ts" || endsWith e ".js" = true)
      by now apply orb_true_iff.
    rewrite Hx', Hf. reflexivity.
Qed.

Lemma validate_accepts_iff_witness :
  Object_freeze (Fixtures.manifest_object "alpha" "index.ts") <> JNull
  /\ exists b st' r,
       validate Fixtures.mixed_world "alpha"
         (Object_freeze (Fixtures.manifest_object "alpha" "index.ts"))
         initial_state
       = Ok b st'
       /\ (b = true <->
           acceptable Fixtures.mixed_world "alpha"
             (Object_freeze (Fixtures.manifest_object "alpha" "index.ts")))
       /\ getModuleInfo st' "alpha" = Some r
       /\ stage r = validation
       /\ success r = b.
Proof.
  split; [discriminate|].
  destruct (validate_accepts_iff Fixtures.mixed_world "alpha"
              (Object_freeze (Fixtures.manifest_object "alpha" "index.ts"))
              initial_state)
    as (b & st' & r & Hrun & Hiff & Hg & Hst & Hs & _); [discriminate|].
  exists b, st', r. repeat split; try assumption; apply Hiff.
Defined.

Lemma validate_first_violation_witness :
  let m := JObj true [("entry", JStr "index.ts")] in
  get_prop m "name" = Some None
  /\ get_prop m "entry" = Some (Some (JStr "index.ts"))
  /\ validation_fails_with Fixtures.mixed_world "alpha" m initial_state
       Errors.CManifestMissingFieldError.
Proof.
  cbv zeta. split; [reflexivity|]. split; [reflexivity|].
  exact (proj2
           (proj1
              (validate_first_violation Fixtures.mixed_world "alpha"
                 (JObj true [("entry", JStr "index.ts")]) initial_state
                 None (Some (JStr "index.ts")) eq_refl eq_refl)
              eq_refl)).
Defined.

(* ------------------------------------------------------------------ *)
(** ** One directory in [discover], and one write of [setModuleInfo] *)

Lemma parsed_manifest_inl (w : World) (d : string) (e : Thrown) :
  parsed_manifest w d = inl e ->
  fs_readFile w d = inl e
  \/ exists raw,
       fs_readFile w d = inr raw
       /\ (JSON_parse w raw = inl e
           \/ exists parsed,
                JSON_parse w raw = inr parsed
                /\ parsed <> JNull
                /\ (forall f props, parsed <> JObj f props)
                /\ e = ErrorObj "Error" "manifest JSON must be an object").
Proof.
  unfold parsed_manifest. intros H.
  destruct (fs_readFile w d) as [e'|raw] eqn:Er;
    [left; injection H as ->; reflexivity|].
  right. exists raw. split; [reflexivity|].
  destruct (JSON_parse w raw) as [e'|parsed] eqn:Ep;
    [left; injection H as ->; reflexivity|].
  right. exists parsed. split; [reflexivity|].
  destruct parsed; simpl in H; try discriminate H; injection H as <-;
    (split; [discriminate|]); (split; [intros; discriminate | reflexivity]).
Qed.

(** X5: the [try] block of [discover] never changes the state.  It adds
    the directory to the output, with the frozen parsed value, exactly when
    [manifest.json] can be read, its text parses, and the value is an object
    that is not an array, or [null]; otherwise it throws what [readFile]
    threw, or what [JSON.parse] threw, or the error
    ["manifest JSON must be an object"] for a number, a string, a boolean or
    an array. *)
Theorem discover_one_outcomes (w : World) (output : Map Json) (d : string)
    (st : State) :
  match discover_one w output d st with
  | Ok out st' =>
      st' = st
      /\ exists raw parsed,
           fs_readFile w d = inr raw
           /\ JSON_parse w raw = inr parsed
           /\ (parsed = JNull \/ exists f props, parsed = JObj f props)
           /\ out = map_set output d (Object_freeze parsed)
           /\ Object_isFrozen (Object_freeze parsed) = true
  | Throw e st' =>
      st' = st
      /\ (fs_readFile w d = inl e
          \/ exists raw,
               fs_readFile w d = inr raw
               /\ (JSON_parse w raw = inl e
                   \/ exists parsed,
                        JSON_parse w raw = inr parsed
                        /\ parsed <> JNull
                        /\ (forall f props, parsed <> JObj f props)
                        /\ e = ErrorObj "Error"
                                 "manifest JSON must be an object"))
  end.
Proof.
  rewrite discover_one_eq.
  destruct (parsed_manifest w d) as [e|m] eqn:Ep; (split; [reflexivity|]).
  - now apply parsed_manifest_inl.
  - apply parsed_manifest_accepts in Ep.
    destruct Ep as (raw & parsed & Hr & Hp & -> & Hshape).
    exists raw, parsed. repeat split; auto.
    destruct Hshape as [->|(f & props & ->)]; reflexivity.
Qed.

Lemma map_set_twice {V : Type} (m : Map V) (k : string) (v v' : V) :
  map_set (map_set m k v) k v' = map_set m k v'.
Proof.
  unfold map_set. induction m as [|[k' x] m IH]; simpl.
  - now rewrite String.eqb_refl.
  - destruct (String.eqb k k') eqn:E; simpl; rewrite E; [reflexivity|].
    now rewrite IH.
Qed.

(** X6: [setModuleInfo] always sets [stage] and [success], sets each of
    the other fields that the update carries, and keeps a field that the
    update does not carry, so a field once present is never dropped; it
    touches no other record, keeps the place of a name that has a record and
    appends a new name at the end; and making the same write twice is the
    same as making it once. *)
Theorem setModuleInfo_accumulates (k : string) (u : ModuleInfoUpdate)
    (st : State) :
  let st' := setModuleInfo_state k u st in
  setModuleInfo k u st = Ok tt st'
  /\ (exists r,
        getModuleInfo st' k = Some r
        /\ stage r = u_stage u /\ success r = u_success u
        /\ (forall m, u_manifest u = Some m -> manifest r = Some m)
        /\ (forall e, u_error u = Some e -> error r = Some e)
        /\ (forall t, u_initTime u = Some t -> initTime r = Some t)
        /\ (forall old, getModuleInfo st k = Some old ->
              (isSome (name old) = true -> isSome (name r) = true)
              /\ (isSome (manifest old) = true ->
                  isSome (manifest r) = true)
              /\ (isSome (error old) = true -> isSome (error r) = true)
              /\ (isSome (initTime old) = true ->
                  isSome (initTime r) = true)
              /\ (u_manifest u = None -> manifest r = manifest old)
              /\ (u_error u = None -> error r = error old)))
  /\ (forall k', k' <> k -> getModuleInfo st' k' = getModuleInfo st k')
  /\ (In k (map_keys (modules st)) ->
      map_keys (modules st') = map_keys (modules st))
  /\ (~ In k (map_keys (modules st)) ->
      map_keys (modules st') = map_keys (modules st) ++ [k])
  /\ setModuleInfo_state k u st' = st'.
Proof.
  cbv zeta. split; [reflexivity|]. split; [|split; [|split; [|split]]].
  - eexists. split; [apply getModuleInfo_setModuleInfo|].
    rewrite merge_stage, merge_success.
    split; [reflexivity|]. split; [reflexivity|].
    split; [intros m Hm; destruct (getModuleInfo st k); simpl;
            now rewrite Hm|].
    split; [intros e He; now apply merge_error|].
    split; [intros t Ht; destruct (getModuleInfo st k); simpl;
            now rewrite Ht|].
    intros old ->. simpl.
    destruct u as [un us ub um ue ut], old as [on os ob om oe ot]; simpl.
    repeat split; try (intros ->; reflexivity);
      destruct un, um, ue, ut; simpl; auto.
  - intros k' Hk'. now apply getModuleInfo_setModuleInfo_other.
  - intros Hin. simpl. now apply map_keys_set_present.
  - intros Hnin. simpl. now apply map_keys_set_fresh.
  - unfold setModuleInfo_state. simpl.
    rewrite map_get_set_same, map_set_twice.
    destruct st as [ms io t c p n]; simpl. unfold set_modules. simpl.
    f_equal. f_equal.
    destruct u as [un us ub um ue ut];
      destruct (map_get ms k) as [[on os ob om oe ot]|]; simpl;
      destruct un, um, ue, ut; reflexivity.
Qed.

(* ------------------------------------------------------------------ *)
(** ** An induction principle over the writes of a run *)

Lemma bind_run {A B : Type} (m : M A) (f : A -> M B) (st : State) :
  bind m f st
  = match m st with
    | Ok a st' => f a st'
    | Throw e st' => Throw e st'
    end.
Proof. reflexivity. Qed.

Definition has_record (st : State) (k : string) : Prop :=
  exists r, getModuleInfo st k = Some r.

(** The updates [discover] passes to [setModuleInfo]. *)
Inductive discovery_write (w : World) : string -> ModuleInfoUpdate -> Prop :=
| write_discovery_failed d e :
    In d (directories w) ->
    parsed_manifest w d = inl e ->
    discovery_write w d
      (mkUpdate (Some d) discovery false None
         (Some (Errors.ModuleDiscoveryError d (Some e))) None)
| write_discovered d m :
    In d (directories w) ->
    parsed_manifest w d = inr m ->
    discovery_write w d
      (mkUpdate (Some d) discovery true (Some m) None None).

(** The updates [validate] passes to [setModuleInfo] for a directory [d]
    discovered with the manifest [m]. *)
Inductive validation_write (w : World) : string -> ModuleInfoUpdate -> Prop :=
| write_validation_failed d m nm en err :
    In d (directories w) ->
    parsed_manifest w d = inr m ->
    get_prop m "name" = Some nm ->
    get_prop m "entry" = Some en ->
    validate_error w d nm en = Some err ->
    validation_write w d
      (mkUpdate None validation false None (Some err) None)
| write_validated d m :
    In d (directories w) ->
    parsed_manifest w d = inr m ->
    validates w d m = true ->
    validation_write w d (mkUpdate None validation true None None None).

(** The updates [load] and a failing [initialize] pass to [setModuleInfo]
    for a directory [d] whose manifest [m] passed validation. *)
Inductive late_write (w : World) : string -> ModuleInfoUpdate -> Prop :=
| write_load_failed d m e :
    In d (directories w) ->
    parsed_manifest w d = inr m ->
    validates w d m = true ->
    import_init w d (manifest_entry m) = inl e ->
    late_write w d
      (mkUpdate None loading false None
         (Some (Errors.ModuleLoadError d (Some e))) None)
| write_load_no_init d m :
    In d (directories w) ->
    parsed_manifest w d = inr m ->
    validates w d m = true ->
    loads w m = None ->
    late_write w d
      (mkUpdate None loading false None
         (Some (Errors.EntryPointMissingInitError d)) None)
| write_loaded d m f :
    In d (directories w) ->
    parsed_manifest w d = inr m ->
    validates w d m = true ->
    loads w m = Some f ->
    late_write w d (mkUpdate None loading true None None None)
| write_initialization_failed d m e :
    In d (directories w) ->
    parsed_manifest w d = inr m ->
    validates w d m = true ->
    loads w m = Some (InitFails e) ->
    late_write w d
      (mkUpdate None initialization false None
         (Some (Errors.ModuleInitializationError d (Some e))) None).

Lemma has_record_setModuleInfo (st : State) (k k' : string)
    (u : ModuleInfoUpdate) :
  has_record st k' \/ k' = k -> has_record (setModuleInfo_state k u st) k'.
Proof.
  intros H. destruct (string_dec k k') as [<-|Hne].
  - eexists. apply getModuleInfo_setModuleInfo.
  - destruct H as [(r & Hr)|H]; [|congruence].
    exists r. now rewrite getModuleInfo_setModuleInfo_other.
Qed.

Lemma validates_error_None (w : World) (d : string) (m : Json)
    (nm en : JsValue) :
  get_prop m "name" = Some nm -> get_prop m "entry" = Some en ->
  validates w d m = match validate_error w d nm en with
                    | None => true
                    | Some _ => false
                    end.
Proof. intros Hn He. unfold validates. now rewrite Hn, He. Qed.

(** Only [null] has no properties to read. *)
Lemma get_prop_None (m : Json) (key : string) :
  get_prop m key = None <-> m = JNull.
Proof. destruct m; simpl; split; congruence. Qed.

Section RegistryInduction.

Variable w : World.

(** [P1] holds up to the end of validation, [P2] from then on, and [E] when
    a failure escapes. *)
Variables P1 P2 : State -> Prop.
Variable E : Thrown -> State -> Prop.

(** [P1] and [P2] speak of the registry and of the load order only. *)
Hypothesis P1_ext :
  forall st st', modules st' = modules st -> initOrder st' = initOrder st ->
    P1 st -> P1 st'.
Hypothesis P2_ext :
  forall st st', modules st' = modules st -> initOrder st' = initOrder st ->
    P2 st -> P2 st'.

Hypothesis P1_discovery :
  forall st k u, P1 st -> discovery_write w k u ->
    P1 (setModuleInfo_state k u st).

(** The writes after discovery are made on names that have a record; the
    time written by a successful initialization is the difference of two
    consecutive readings of the clock. *)
Hypothesis P1_validation :
  forall st k u, P1 st -> has_record st k -> validation_write w k u ->
    P1 (setModuleInfo_state k u st).

Hypothesis P1_P2 : forall st, P1 st -> P2 st.

Hypothesis P2_late :
  forall st k u, P2 st -> has_record st k -> late_write w k u ->
    P2 (setModuleInfo_state k u st).

Hypothesis P2_initialized :
  forall st d m t,
    P2 st -> has_record st d ->
    In d (directories w) ->
    parsed_manifest w d = inr m -> validates w d m = true ->
    loads w m = Some InitCompletes ->
    (exists n, t = (clock w (S n) - clock w n)%Z) ->
    P2 (setModuleInfo_state d
          (mkUpdate None initialization true None None (Some t))
          (set_initOrder (initOrder st ++ [d]) st)).

(** The two failures that escape. *)
Hypothesis E_readdir :
  forall e st, fs_readdir w = inl e -> P1 st -> E e st.
Hypothesis E_null :
  forall d st, In d (directories w) -> parsed_manifest w d = inr JNull ->
    has_record st d -> P1 st -> E destructuring_TypeError st.

Section Late.

Variable output : Map Json.
Hypothesis output_discovered :
  forall k m, In (k, m) output ->
    In k (directories w) /\ parsed_manifest w k = inr m.

(** Every name of [output] has a record. *)
Definition recorded (st : State) : Prop :=
  forall k, In k (map_keys output) -> has_record st k.

Lemma recorded_setModuleInfo st k u :
  recorded st -> recorded (setModuleInfo_state k u st).
Proof. intros H k' Hk'. apply has_record_setModuleInfo. auto. Qed.

Lemma recorded_ext st st' :
  modules st' = modules st -> recorded st -> recorded st'.
Proof.
  intros Hm H k Hk. destruct (H k Hk) as (r & Hr). exists r.
  unfold getModuleInfo in *. now rewrite Hm.
Qed.

Definition validated_in (k : string) (m : Json) : Prop :=
  In (k, m) output /\ validates w k m = true.

Lemma late_validation (rest acc : Map Json) (st : State) :
  (forall k m, In (k, m) rest -> In (k, m) output) ->
  (forall k m, In (k, m) acc -> validated_in k m) ->
  P1 st -> recorded st ->
  match
    foldM
      (fun moduleManifests '(name, manifest) =>
         valid <- validate w name manifest ;;
         ret (if valid : bool
              then map_set moduleManifests name manifest
              else moduleManifests))
      rest acc st
  with
  | Ok mm st' =>
      P1 st' /\ recorded st'
      /\ forall k m, In (k, m) mm -> validated_in k m
  | Throw e st' => E e st'
  end.
Proof.
  revert acc st.
  induction rest as [|[k m] rest IH]; intros acc st Hrest Hacc HP Hrec.
  - simpl. auto.
  - simpl. rewrite bind_run, bind_run.
    assert (Hin : In (k, m) output) by (apply Hrest; now left).
    destruct (output_discovered k m Hin) as [Hdir Hp].
    assert (Hk : has_record st k)
      by (apply Hrec; eapply In_map_keys; eauto).
    assert (Hrest' : forall k' m', In (k', m') rest -> In (k', m') output)
      by (intros k' m' Hin'; apply Hrest; now right).
    assert (Hnull : m = JNull -> E destructuring_TypeError st)
      by (intros ->; now apply (E_null k)).
    unfold validate.
    destruct (get_prop m "name") as [nm|] eqn:En;
      [|apply Hnull; now apply (get_prop_None m "name")].
    destruct (get_prop m "entry") as [en|] eqn:Ee;
      [|apply Hnull; now apply (get_prop_None m "entry")].
    assert (Hv := validates_error_None w k m nm en En Ee).
    destruct (validate_error w k nm en) as [err|] eqn:Ev; simpl.
    + apply IH; auto.
      * apply P1_validation; auto.
        eapply write_validation_failed; eauto.
      * now apply recorded_setModuleInfo.
    + apply IH; auto.
      * intros k' m' Hin'. apply In_map_set_inv in Hin'.
        destruct Hin' as [[-> ->]|Hin']; [now split | auto].
      * apply P1_validation; auto. eapply write_validated; eauto.
      * now apply recorded_setModuleInfo.
Qed.

(** What is known of an initializer kept for the module [k]. *)
Definition loaded_in (k : string) (f : ModuleInit) : Prop :=
  exists m, validated_in k m /\ loads w m = Some f.

(** The loading loop never throws. *)
Lemma late_loading (rest : Map Json) (acc : Map ModuleInit) (st : State) :
  (forall k m, In (k, m) rest -> validated_in k m) ->
  (forall k f, In (k, f) acc -> loaded_in k f) ->
  P2 st -> recorded st ->
  exists mi st',
    foldM
      (fun moduleInits '(name, manifest) =>
         init <- load w manifest ;;
         ret (match init with
              | Some f => map_set moduleInits name f
              | None => moduleInits
              end))
      rest acc st = Ok mi st'
    /\ P2 st' /\ recorded st'
    /\ forall k f, In (k, f) mi -> loaded_in k f.
Proof.
  revert acc st.
  induction rest as [|[k m] rest IH]; intros acc st Hrest Hacc HP Hrec.
  - exists acc, st. simpl. auto.
  - simpl. rewrite bind_run, bind_run.
    destruct (Hrest k m (or_introl eq_refl)) as [Hin Hval].
    destruct (output_discovered k m Hin) as [Hdir Hp].
    assert (Hname := validates_name w k m Hval).
    assert (Hk : has_record st k)
      by (apply Hrec; eapply In_map_keys; eauto).
    assert (Hrest' : forall k' m', In (k', m') rest -> validated_in k' m')
      by (intros k' m' Hin'; apply Hrest; now right).
    assert (Hl : loads w m
                 = match import_init w k (manifest_entry m) with
                   | inr (InitFunction f) => Some f
                   | _ => None
                   end)
      by (unfold loads; now rewrite Hname).
    unfold load. rewrite Hname.
    destruct (import_init w k (manifest_entry m)) as [e|[|v|f]] eqn:Ei;
      simpl.
    + apply IH; auto.
      * apply P2_late; auto. eapply write_load_failed; eauto.
      * now apply recorded_setModuleInfo.
    + apply IH; auto.
      * apply P2_late; auto. eapply write_load_no_init; eauto.
      * now apply recorded_setModuleInfo.
    + apply IH; auto.
      * apply P2_late; auto. eapply write_load_no_init; eauto.
      * now apply recorded_setModuleInfo.
    + apply IH; auto.
      * intros k' f' Hin'. apply In_map_set_inv in Hin'.
        destruct Hin' as [[-> ->]|Hin']; auto.
        exists m. split; [now split | exact Hl].
      * apply P2_late; auto. eapply write_loaded; eauto.
      * now apply recorded_setModuleInfo.
Qed.

(** Nor does the initialization loop. *)
Lemma late_initialization (rest : Map ModuleInit) (st : State) :
  (forall k f, In (k, f) rest -> loaded_in k f) ->
  P2 st -> recorded st ->
  exists st',
    forM_ (fun '(name, init) => initialize w name init) rest st = Ok tt st'
    /\ P2 st'.
Proof.
  revert st. induction rest as [|[k f] rest IH]; intros st Hrest HP Hrec.
  - exists st. simpl. auto.
  - simpl. rewrite bind_run.
    destruct (Hrest k f (or_introl eq_refl)) as (m & [Hin Hv] & Hl).
    destruct (output_discovered k m Hin) as [Hdir Hp].
    assert (Hhas : has_record st k)
      by (apply Hrec; eapply In_map_keys; eauto).
    assert (Hrest' : forall k' f', In (k', f') rest -> loaded_in k' f')
      by (intros k' f' Hin'; apply Hrest; now right).
    unfold initialize, try_catch, bind. destruct f as [|e]; simpl.
    + set (t := (clock w (S (clockReads st)) - clock w (clockReads st))%Z).
      set (u := mkUpdate None initialization true None None (Some t)).
      apply IH; auto.
      * eapply P2_ext;
          [| |apply (P2_initialized st k m t HP Hhas Hdir Hp Hv Hl
                       (ex_intro _ (clockReads st) eq_refl))];
          reflexivity.
      * eapply recorded_ext;
          [|apply (recorded_setModuleInfo st k u Hrec)]. reflexivity.
    + set (u := mkUpdate None initialization false None
                  (Some (Errors.ModuleInitializationError k (Some e)))
                  None).
      apply IH; auto.
      * eapply P2_ext;
          [| |apply (P2_late st k u HP Hhas)];
          [reflexivity|reflexivity|].
        eapply write_initialization_failed; eauto.
      * eapply recorded_ext;
          [|apply (recorded_setModuleInfo st k u Hrec)]. reflexivity.
Qed.

(** The three stages that follow discovery, run on [output], then a
    continuation [k]: of the stages, only validation lets a failure
    escape. *)
Lemma late_stages {A : Type} (k : M A) (Q : A -> State -> Prop)
    (st : State) :
  (forall s, P2 s ->
     match k s with
     | Ok a s' => Q a s'
     | Throw e s' => E e s'
     end) ->
  P1 st -> recorded st ->
  match
    (moduleManifests <-
       foldM
         (fun moduleManifests '(name, manifest) =>
            valid <- validate w name manifest ;;
            ret (if valid : bool
                 then map_set moduleManifests name manifest
                 else moduleManifests))
         output [] ;;
     moduleInits <-
       foldM
         (fun moduleInits '(name, manifest) =>
            init <- load w manifest ;;
            ret (match init with
                 | Some f => map_set moduleInits name f
                 | None => moduleInits
                 end))
         moduleManifests [] ;;
     forM_ (fun '(name, init) => initialize w name init) moduleInits ;;
     k) st
  with
  | Ok a st' => Q a st'
  | Throw e st' => E e st'
  end.
Proof.
  intros Hk HP Hrec. rewrite bind_run.
  assert (H1 := late_validation output [] st
                  (fun k m H => H)
                  (fun k m (H : In (k, m) []) => match H with end)
                  HP Hrec).
  destruct_run H1; [|exact H1].
  destruct H1 as (HP1 & Hrec1 & Hmm). rewrite bind_run.
  destruct (late_loading _ [] _ Hmm
              (fun k f (H : In (k, f) []) => match H with end)
              (P1_P2 _ HP1) Hrec1)
    as (mi & st2 & -> & HP2 & Hrec2 & Hmi).
  rewrite bind_run.
  destruct (late_initialization _ _ Hmi HP2 Hrec2) as (st3 & -> & HP3).
  apply Hk, HP3.
Qed.

End Late.

Lemma discovery_first_loop (dirs : list string) (acc : Map Json)
    (st : State) :
  P1 st ->
  (forall d, In d dirs -> In d (directories w)) ->
  (forall k m, In (k, m) acc ->
     In k (directories w) /\ parsed_manifest w k = inr m) ->
  exists output st',
    foldM
      (fun output dir =>
         try_catch (discover_one w output dir)
           (fun error =>
              setModuleInfo dir
                (mkUpdate (Some dir) discovery false None
                   (Some (Errors.ModuleDiscoveryError dir (Some error)))
                   None) ;;
              ret output))
      dirs acc st = Ok output st'
    /\ P1 st'
    /\ forall k m, In (k, m) output ->
         In k (directories w) /\ parsed_manifest w k = inr m.
Proof.
  revert acc st. induction dirs as [|d dirs IH]; intros acc st HP Hd Hacc.
  - exists acc, st. simpl. auto.
  - simpl. rewrite bind_run. unfold try_catch. rewrite discover_one_eq.
    assert (Hin : In d (directories w)) by (apply Hd; now left).
    destruct (parsed_manifest w d) as [e|m] eqn:Ep; simpl.
    + apply IH; auto.
      * apply P1_discovery; auto. now apply write_discovery_failed.
      * intros d' Hd'. apply Hd. now right.
    + apply IH; auto.
      * intros d' Hd'. apply Hd. now right.
      * intros k' m' Hin'. apply In_map_set_inv in Hin'.
        destruct Hin' as [[-> ->]|Hin']; auto.
Qed.

Lemma discovery_second_loop (output rest : Map Json) (st : State) :
  P1 st ->
  (forall k m, In (k, m) rest ->
     In k (directories w) /\ parsed_manifest w k = inr m) ->
  (forall k, In k (map_keys output) ->
     In k (map_keys rest) \/ has_record st k) ->
  exists st',
    forM_
      (fun '(name, manifest) =>
         setModuleInfo name
           (mkUpdate (Some name) discovery true (Some manifest) None None))
      rest st = Ok tt st'
    /\ P1 st' /\ recorded output st'.
Proof.
  revert st. induction rest as [|[k m] rest IH]; intros st HP Hrest Hrec.
  - exists st. simpl. repeat split; auto.
    intros k Hk. destruct (Hrec k Hk) as [[]|H]; auto.
  - simpl. rewrite bind_run. simpl. apply IH.
    + apply P1_discovery; auto.
      destruct (Hrest k m (or_introl eq_refl)).
      now apply write_discovered.
    + intros k' m' Hin'. apply Hrest. now right.
    + intros k' Hk'. destruct (Hrec k' Hk') as [[<-|H]|H]; auto.
      * right. apply has_record_setModuleInfo. auto.
      * right. apply has_record_setModuleInfo. auto.
Qed.

(** [discover] fails only when the directory cannot be listed. *)
Lemma discover_induction (st : State) :
  P1 st ->
  match discover w st with
  | Ok output st' =>
      P1 st' /\ recorded output st'
      /\ forall k m, In (k, m) output ->
           In k (directories w) /\ parsed_manifest w k = inr m
  | Throw e st' => E e st'
  end.
Proof.
  intros HP. unfold discover. rewrite bind_run. unfold readdir, lift.
  destruct (fs_readdir w) as [e|ents] eqn:Er; [now apply E_readdir|].
  assert (Hdirs : directories w
                  = sort (map d_name (filter d_isDirectory ents)))
    by (unfold directories; now rewrite Er).
  unfold ret at 1. cbv beta iota zeta. rewrite <- Hdirs, bind_run.
  destruct (discovery_first_loop (directories w) [] st HP
              (fun d H => H)
              (fun k m (H : In (k, m) []) => match H with end))
    as (output & st1 & -> & HP1 & Hout).
  rewrite bind_run.
  destruct (discovery_second_loop output output st1 HP1 Hout
              (fun k H => or_introl H))
    as (st2 & -> & HP2 & Hrec).
  simpl. auto.
Qed.

(** A call of [setup] that passes the gate. *)
Lemma setup_induction (st : State) :
  gate_closed st = false ->
  P1 st ->
  match setup w st with
  | Ok _ st' => P2 st'
  | Throw e st' => E e st'
  end.
Proof.
  intros Hgate HP. unfold setup. unfold gate_closed in Hgate.
  rewrite Hgate.
  rewrite bind_run. unfold modify at 1. rewrite bind_run.
  unfold Date_now at 1.
  set (st0 := set_clockReads _ _).
  assert (HP0 : P1 st0) by (eapply P1_ext; [| |exact HP]; reflexivity).
  rewrite bind_run.
  assert (Hd := discover_induction st0 HP0).
  destruct (discover w st0) as [output st1|e st1]; [|exact Hd].
  destruct Hd as (HP1 & Hrec & Hout).
  apply (late_stages output Hout); auto.
  intros s Hs. simpl. eapply P2_ext; [| |exact Hs]; reflexivity.
Qed.

End RegistryInduction.

(* ------------------------------------------------------------------ *)
(** ** Properties of every record, in every outcome *)

(** [R] holds of every record of the registry. *)
Definition registry_all (R : string -> ModuleInfo -> Prop) (st : State)
  : Prop :=
  forall k r, getModuleInfo st k = Some r -> R k r.

Lemma registry_all_ext (R : string -> ModuleInfo -> Prop) (st st' : State) :
  modules st' = modules st -> registry_all R st -> registry_all R st'.
Proof.
  intros Hm H k r. unfold getModuleInfo. rewrite Hm. apply H.
Qed.

Lemma registry_all_write (R : string -> ModuleInfo -> Prop) (st : State)
    (k : string) (u : ModuleInfoUpdate) :
  registry_all R st ->
  R k (merge (getModuleInfo st k) u) ->
  registry_all R (setModuleInfo_state k u st).
Proof.
  intros H Hk k' r. destruct (string_dec k k') as [<-|Hne].
  - rewrite getModuleInfo_setModuleInfo. now intros [= <-].
  - rewrite getModuleInfo_setModuleInfo_other by assumption. apply H.
Qed.

Lemma registry_all_fresh (R : string -> ModuleInfo -> Prop) (reads : nat) :
  registry_all R (fresh_state reads).
Proof. intros k r. discriminate. Qed.

Section RecordInduction.

Variable w : World.
Variable R : string -> ModuleInfo -> Prop.

(** [R] holds of the record each write of the pipeline leaves: a write of
    [discover] may create the record, the later ones update one. *)
Hypothesis R_discovery :
  forall k u old, discovery_write w k u ->
    (forall r, old = Some r -> R k r) -> R k (merge old u).
Hypothesis R_validation :
  forall k u r, validation_write w k u -> R k r -> R k (merge (Some r) u).
Hypothesis R_late :
  forall k u r, late_write w k u -> R k r -> R k (merge (Some r) u).
Hypothesis R_initialized :
  forall k m t r,
    In k (directories w) -> parsed_manifest w k = inr m ->
    validates w k m = true -> loads w m = Some InitCompletes ->
    (exists n, t = (clock w (S n) - clock w n)%Z) ->
    R k r ->
    R k (merge (Some r)
           (mkUpdate None initialization true None None (Some t))).

Lemma registry_all_update (st : State) (k : string) (u : ModuleInfoUpdate) :
  registry_all R st -> has_record st k ->
  (forall r, R k r -> R k (merge (Some r) u)) ->
  registry_all R (setModuleInfo_state k u st).
Proof.
  intros H (r & Hr) Hu. apply registry_all_write; auto.
  rewrite Hr. apply Hu. now apply (H k).
Qed.

(** Whatever [setup] does, and whether it returns or not, [R] still holds
    of every record. *)
Lemma setup_registry_all (st : State) :
  registry_all R st -> registry_all R (state_of (setup w st)).
Proof.
  intros H. destruct (gate_closed st) eqn:G.
  - now rewrite setup_gate.
  - assert (Hs := setup_induction w (registry_all R) (registry_all R)
                    (fun _ => registry_all R)).
    assert (Hext : forall s s' : State,
               modules s' = modules s -> initOrder s' = initOrder s ->
               registry_all R s -> registry_all R s')
      by (intros s s' Hm _; now apply registry_all_ext).
    specialize (Hs Hext Hext).
    assert (Hrun : match setup w st with
                   | Ok _ st' => registry_all R st'
                   | Throw _ st' => registry_all R st'
                   end).
    { apply Hs.
      - intros s k u Hr Hw. apply registry_all_write; [exact Hr|].
        apply R_discovery; [exact Hw|]. intros r Hg. now apply (Hr k).
      - intros s k u Hr Hk Hw.
        apply registry_all_update; [exact Hr|exact Hk|].
        intros r. now apply R_validation.
      - auto.
      - intros s k u Hr Hk Hw.
        apply registry_all_update; [exact Hr|exact Hk|].
        intros r. now apply R_late.
      - intros s d m t Hr Hk Hd Hp Hv Hl Ht.
        apply registry_all_update.
        + eapply registry_all_ext; [|exact Hr]. reflexivity.
        + exact Hk.
        + intros r. now apply (R_initialized d m t).
      - auto.
      - auto.
      - exact G.
      - exact H. }
    destruct (setup w st); exact Hrun.
Qed.

End RecordInduction.

(* ------------------------------------------------------------------ *)
(** ** Failure records and their errors *)

(** The error class each stage reports with. *)
Definition stage_class (s : ModuleSetupStage) : Errors.ErrorClass :=
  match s with
  | discovery => Errors.CModuleDiscoveryError
  | validation => Errors.CModuleValidationError
  | loading => Errors.CModuleLoadError
  | initialization => Errors.CModuleInitializationError
  end.

(** The error [e] is one the stage [s] makes for the module [k]. *)
Definition error_fits (k : string) (s : ModuleSetupStage)
    (e : Errors.SetupError) : Prop :=
  Errors.stage e = s
  /\ Errors.instanceof e (stage_class s) = true
  /\ Errors.instanceof e Errors.CModuleSetupError = true
  /\ (Errors.module e = k
      \/ Errors.class e = Errors.CModuleValidationError).

Definition failure_explained (k : string) (r : ModuleInfo) : Prop :=
  success r = false -> exists e, error r = Some e /\ error_fits k (stage r) e.

Lemma validate_error_fits (w : World) (d : string) (nm en : JsValue)
    (err : Errors.SetupError) :
  validate_error w d nm en = Some err -> error_fits d validation err.
Proof.
  unfold validate_error, error_fits.
  repeat match goal with
         | |- context [if ?c then _ else _] => destruct c
         end;
    intros [= <-]; simpl; auto 6.
Qed.

Lemma update_explained (k : string) (u : ModuleInfoUpdate)
    (old : option ModuleInfo) :
  (u_success u = false ->
   exists e, u_error u = Some e /\ error_fits k (u_stage u) e) ->
  failure_explained k (merge old u).
Proof.
  intros H Hs. rewrite merge_success in Hs.
  destruct (H Hs) as (e & He & Hfit).
  exists e. rewrite merge_stage. split; [now apply merge_error | exact Hfit].
Qed.

(** Every failure record explains itself, whether [setup] returns or not. *)
Lemma failures_explained (w : World) (st : State) :
  registry_all failure_explained st ->
  registry_all failure_explained (state_of (setup w st)).
Proof.
  apply setup_registry_all.
  - intros k u old Hw _. apply update_explained.
    destruct Hw; simpl; intros Hs; try discriminate.
    eexists. split; [reflexivity|]. unfold error_fits. simpl. auto.
  - intros k u r Hw _. apply update_explained.
    destruct Hw as [d m nm en err _ _ _ _ Hv|]; simpl; intros Hs;
      try discriminate.
    exists err. split; [reflexivity|].
    now apply (validate_error_fits w d nm en).
  - intros k u r Hw _. apply update_explained.
    destruct Hw; simpl; intros Hs; try discriminate;
      (eexists; split; [reflexivity|]; unfold error_fits; simpl; auto).
  - intros k m t r _ _ _ _ _ _. apply update_explained. simpl. discriminate.
Qed.

(** X7: whether [setup] returns or a failure escapes from it, every record
    that shows a failure carries an error; the error's [stage] is the
    record's stage, it is an instance of the error class of that stage
    ([ModuleDiscoveryError], [ModuleValidationError], [ModuleLoadError] or
    [ModuleInitializationError]) and so of [ModuleSetupError], and its
    [module] is the module's name, unless it is the plain
    [ModuleValidationError] raised for an entry that is neither [.ts] nor
    [.js].  Hence every element of the report's [errors] is an error
    object. *)
Theorem failure_records_carry_errors (w : World) (reads : nat)
    (k : string) (r : ModuleInfo) :
  let st' := state_of (setup w (fresh_state reads)) in
  (getModuleInfo st' k = Some r -> success r = false ->
   exists e,
     error r = Some e
     /\ Errors.stage e = stage r
     /\ Errors.instanceof e (stage_class (stage r)) = true
     /\ Errors.instanceof e Errors.CModuleSetupError = true
     /\ (Errors.module e = k
         \/ Errors.class e = Errors.CModuleValidationError))
  /\ Forall (fun o => o <> None) (errors (getReport st')).
Proof.
  cbv zeta.
  assert (H := failures_explained w (fresh_state reads)
                 (registry_all_fresh _ reads)).
  split.
  - intros Hg Hs. destruct (H k r Hg Hs) as (e & He & Hfit).
    exists e. split; [exact He | exact Hfit].
  - unfold getReport. simpl. apply Forall_forall. intros o Ho.
    apply in_map_iff in Ho. destruct Ho as (r' & <- & Hin).
    apply filter_In in Hin. destruct Hin as [Hin Hs].
    unfold map_values in Hin. apply in_map_iff in Hin.
    destruct Hin as ([k' r''] & Heq & Hin). simpl in Heq. subst r''.
    assert (Hnd : NoDup (map_keys
                           (modules (state_of (setup w (fresh_state reads))))))
      by (apply registry_NoDup; constructor).
    assert (Hg : getModuleInfo (state_of (setup w (fresh_state reads))) k'
                 = Some r') by (now apply In_map_get).
    destruct (H k' r' Hg) as (e & He & _).
    + now destruct (success r').
    + congruence.
Qed.

(** A failure record of the mixed fixture: [beta], whose initializer
    throws. *)
Definition mixed_beta : ModuleInfo :=
  mkModuleInfo (Some "beta") initialization false
    (Some (Object_freeze (Fixtures.manifest_object "beta" "index.ts")))
    (Some (Errors.ModuleInitializationError "beta"
             (Some (ErrorObj "Error" "boom"))))
    None.

Lemma failure_records_carry_errors_witness :
  getModuleInfo (state_of (setup Fixtures.mixed_world (fresh_state 0))) "beta"
  = Some mixed_beta
  /\ success mixed_beta = false
  /\ exists e,
       error mixed_beta = Some e
       /\ Errors.stage e = stage mixed_beta
       /\ Errors.instanceof e (stage_class (stage mixed_beta)) = true
       /\ Errors.instanceof e Errors.CModuleSetupError = true
       /\ (Errors.module e = "beta"
           \/ Errors.class e = Errors.CModuleValidationError).
Proof.
  split; [reflexivity|]. split; [reflexivity|].
  exact (proj1 (failure_records_carry_errors Fixtures.mixed_world 0 "beta"
                  mixed_beta)
           eq_refl eq_refl).
Defined.

(* ------------------------------------------------------------------ *)
(** ** Records are kept under the directory name *)

Definition named_after_directory (w : World) (k : string) (r : ModuleInfo)
  : Prop :=
  name r = Some k /\ In k (directories w).

Lemma records_named (w : World) (st : State) :
  registry_all (named_after_directory w) st ->
  registry_all (named_after_directory w) (state_of (setup w st)).
Proof.
  apply setup_registry_all; unfold named_after_directory.
  - intros k u old Hw _. destruct Hw; destruct old; simpl; auto.
  - intros k u r Hw [Hn Hd]. destruct Hw; simpl; auto.
  - intros k u r Hw [Hn Hd]. destruct Hw; simpl; auto.
  - intros k m t r _ _ _ _ _ [Hn Hd]. simpl; auto.
Qed.

Lemma map_values_keys {A : Type} (f : ModuleInfo -> A) (g : string -> A)
    (ms : Map ModuleInfo) :
  NoDup (map_keys ms) ->
  (forall k r, map_get ms k = Some r -> f r = g k) ->
  map f (map_values ms) = map g (map_keys ms).
Proof.
  intros Hnd H. unfold map_values, map_keys. rewrite !map_map.
  apply map_ext_in. intros [k r] Hin. simpl. apply H.
  now apply In_map_get.
Qed.

Lemma NoDup_map_Some {A : Type} (l : list A) :
  NoDup l -> NoDup (map Some l).
Proof.
  induction 1 as [|a l Hnin Hnd IH]; simpl; constructor; auto.
  intros Hin. apply in_map_iff in Hin. destruct Hin as (b & [= ->] & Hb).
  contradiction.
Qed.

(** X8: whether [setup] returns or not, each record is stored under the
    name of a subdirectory of the modules directory and carries that name
    in its [name] field, although only the writes of [discover] pass a
    name; so the [name]s of the report's [moduleDetails] are the keys of the
    registry, in the same order, and no name occurs twice. *)
Theorem records_carry_directory_name (w : World) (reads : nat) :
  let st' := state_of (setup w (fresh_state reads)) in
  (forall k r, getModuleInfo st' k = Some r ->
     name r = Some k /\ In k (directories w))
  /\ map name (moduleDetails (getReport st'))
     = map Some (map_keys (modules st'))
  /\ NoDup (map name (moduleDetails (getReport st'))).
Proof.
  cbv zeta.
  assert (H := records_named w (fresh_state reads)
                 (registry_all_fresh _ reads)).
  assert (Hnd : NoDup (map_keys
                         (modules (state_of (setup w (fresh_state reads))))))
    by (apply registry_NoDup; constructor).
  assert (Hmap : map name
                   (moduleDetails
                      (getReport (state_of (setup w (fresh_state reads)))))
                 = map Some
                     (map_keys
                        (modules (state_of (setup w (fresh_state reads)))))).
  { unfold getReport. simpl. apply map_values_keys; auto.
    intros k r Hg. now apply (H k r). }
  split; [exact H|]. split; [exact Hmap|].
  rewrite Hmap. now apply NoDup_map_Some.
Qed.

(* ------------------------------------------------------------------ *)
(** ** Records agree with the environment, in every outcome *)

Lemma record_ok_parsed (w : World) (k : string) (r : ModuleInfo) (m : Json) :
  record_ok w k r -> parsed_manifest w k = inr m -> manifest r = Some m.
Proof.
  unfold record_ok. intros Hok Hp.
  destruct (stage r).
  - destruct (success r).
    + destruct Hok as (m' & Hp' & ->). congruence.
    + destruct Hok as (e & Hp' & _). congruence.
  - destruct Hok as (m' & Hp' & -> & _). congruence.
  - destruct Hok as (m' & Hp' & -> & _). congruence.
  - destruct Hok as (m' & f & Hp' & -> & _). congruence.
Qed.

Definition record_agrees (w : World) (k : string) (r : ModuleInfo) : Prop :=
  In k (directories w) /\ record_ok w k r.

Lemma record_agrees_discovery (w : World) (k : string)
    (u : ModuleInfoUpdate) (old : option ModuleInfo) :
  discovery_write w k u ->
  (forall r, old = Some r -> record_agrees w k r) ->
  record_agrees w k (merge old u).
Proof.
  unfold record_agrees. intros Hw Hold.
  destruct Hw as [d e Hd Hp|d m Hd Hp]; (split; [exact Hd|]).
  - destruct old as [r|].
    + destruct (Hold r eq_refl) as [_ Hok].
      assert (Hr : r = discovery_failure_record d e).
      { unfold record_ok in Hok. destruct (stage r).
        - destruct (success r).
          + destruct Hok as (m' & Hp' & _). congruence.
          + destruct Hok as (e' & Hp' & ->). congruence.
        - destruct Hok as (m' & Hp' & _). congruence.
        - destruct Hok as (m' & Hp' & _). congruence.
        - destruct Hok as (m' & f & Hp' & _). congruence. }
      subst r. unfold record_ok. simpl. exists e. now split.
    + unfold record_ok. simpl. exists e. now split.
  - unfold record_ok. rewrite merge_stage, merge_success. simpl.
    exists m. split; [exact Hp|]. now destruct old.
Qed.

Lemma record_agrees_validation (w : World) (k : string)
    (u : ModuleInfoUpdate) (r : ModuleInfo) :
  validation_write w k u -> record_agrees w k r ->
  record_agrees w k (merge (Some r) u).
Proof.
  unfold record_agrees. intros Hw [Hd Hok].
  destruct Hw as [d m nm en err _ Hp Hn He Hv|d m _ Hp Hv];
    (split; [exact Hd|]);
    assert (Hm := record_ok_parsed w d r m Hok Hp);
    unfold record_ok; simpl; exists m; repeat split; auto.
  rewrite (validates_error_None w d m nm en Hn He), Hv. reflexivity.
Qed.

Lemma record_agrees_late (w : World) (k : string)
    (u : ModuleInfoUpdate) (r : ModuleInfo) :
  late_write w k u -> record_agrees w k r ->
  record_agrees w k (merge (Some r) u).
Proof.
  unfold record_agrees. intros Hw [Hd Hok].
  destruct Hw as [d m e _ Hp Hv Hi|d m _ Hp Hv Hl|d m f _ Hp Hv Hl
                 |d m e _ Hp Hv Hl];
    (split; [exact Hd|]);
    assert (Hm := record_ok_parsed w d r m Hok Hp);
    unfold record_ok; simpl.
  - exists m. repeat split; auto.
    unfold loads. rewrite (validates_name w d m Hv), Hi. reflexivity.
  - exists m. repeat split; auto. now rewrite Hl.
  - exists m. repeat split; auto. now rewrite Hl.
  - exists m, (InitFails e). repeat split; auto.
Qed.

Lemma record_agrees_initialized (w : World) (k : string) (m : Json) (t : Z)
    (r : ModuleInfo) :
  In k (directories w) -> parsed_manifest w k = inr m ->
  validates w k m = true -> loads w m = Some InitCompletes ->
  (exists n, t = (clock w (S n) - clock w n)%Z) ->
  record_agrees w k r ->
  record_agrees w k
    (merge (Some r) (mkUpdate None initialization true None None (Some t))).
Proof.
  unfold record_agrees. intros Hd Hp Hv Hl _ [_ Hok]. split; [exact Hd|].
  assert (Hm := record_ok_parsed w k r m Hok Hp).
  unfold record_ok; simpl. exists m, InitCompletes. repeat split; auto.
Qed.

Lemma records_agree (w : World) (st : State) :
  registry_all (record_agrees w) st ->
  registry_all (record_agrees w) (state_of (setup w st)).
Proof.
  apply setup_registry_all.
  - apply record_agrees_discovery.
  - apply record_agrees_validation.
  - apply record_agrees_late.
  - apply record_agrees_initialized.
Qed.

(** X9: whether [setup] returns or a failure escapes from it, every record
    agrees with the environment: it is the record of a subdirectory, every
    stage before the one it shows passed for that module, and that stage
    ended as [success] tells.  In particular a record has no [manifest]
    exactly when discovery refused the directory, a record that has one has
    the frozen manifest that [discover] parsed, and a record that shows a
    successful initialization is the record of a module that passes all four
    stages. *)
Theorem records_agree_in_every_outcome (w : World) (reads : nat)
    (k : string) (r : ModuleInfo) :
  getModuleInfo (state_of (setup w (fresh_state reads))) k = Some r ->
  In k (directories w)
  /\ record_ok w k r
  /\ (manifest r = None <-> exists e, parsed_manifest w k = inl e)
  /\ (forall m, manifest r = Some m ->
        parsed_manifest w k = inr m /\ Object_isFrozen m = true)
  /\ (stage r = initialization -> success r = true -> initialized_ok w k).
Proof.
  intros Hg.
  destruct (records_agree w (fresh_state reads)
              (registry_all_fresh _ reads) k r Hg) as [Hd Hok].
  split; [exact Hd|]. split; [exact Hok|].
  assert (Hcases :
            (exists e, parsed_manifest w k = inl e /\ manifest r = None)
            \/ (exists m, parsed_manifest w k = inr m /\ manifest r = Some m)).
  { unfold record_ok in Hok. destruct (stage r).
    - destruct (success r).
      + destruct Hok as (m & Hp & Hm). right. eauto.
      + destruct Hok as (e & Hp & ->). left. eauto.
    - destruct Hok as (m & Hp & Hm & _). right. eauto.
    - destruct Hok as (m & Hp & Hm & _). right. eauto.
    - destruct Hok as (m & f & Hp & Hm & _). right. eauto. }
  split; [|split].
  - destruct Hcases as [(e & Hp & Hm)|(m & Hp & Hm)].
    + split; eauto.
    + split; [congruence|]. intros (e & He). congruence.
  - intros m Hm. destruct Hcases as [(e & Hp & Hm')|(m' & Hp & Hm')].
    + congruence.
    + assert (m' = m) by congruence. subst m'.
      split; [exact Hp|]. now apply (parsed_manifest_frozen w k).
  - intros Hst Hs. unfold record_ok in Hok. rewrite Hst, Hs in Hok.
    destruct Hok as (m & f & Hp & _ & Hv & Hl & Hc).
    split; [exact Hd|]. exists m, f. auto.
Qed.

Lemma records_agree_in_every_outcome_witness :
  In "a" (directories Fixtures.null_manifest_world)
  /\ record_ok Fixtures.null_manifest_world "a"
       (mkModuleInfo (Some "a") discovery true (Some JNull) None None)
  /\ parsed_manifest Fixtures.null_manifest_world "a" = inr JNull.
Proof.
  destruct (records_agree_in_every_outcome Fixtures.null_manifest_world 0 "a"
              (mkModuleInfo (Some "a") discovery true (Some JNull) None None)
              eq_refl)
    as (Hd & Hok & _ & Hm & _).
  split; [exact Hd|]. split; [exact Hok|].
  exact (proj1 (Hm JNull eq_refl)).
Defined.

(* ------------------------------------------------------------------ *)
(** ** Records and the [ModuleInfo] union of [types.ts] *)

Module ModuleInfoTypes.

(** A value of the type [object]: a non-primitive, so not [null]. *)
Definition is_object (m : Json) : bool :=
  match m with
  | JObj _ _ | JArr _ _ => true
  | _ => false
  end.

(** The required fields of [ModuleManifest]: [name] and [entry], both
    strings. *)
Definition is_ModuleManifest (m : Json) : bool :=
  match get_prop m "name", get_prop m "entry" with
  | Some (Some (JStr _)), Some (Some (JStr _)) => is_object m
  | _, _ => false
  end.

Definition has (p : Json -> bool) (o : option Json) : bool :=
  match o with
  | Some m => p m
  | None => false
  end.

(** The required fields of the variant of [ModuleInfo] that [stage] and
    [success] select, over those of [BaseModuleInfo]. *)
Definition conforms (r : ModuleInfo) : bool :=
  isSome (name r)
  && match stage r, success r with
     | discovery, false => isSome (error r)
     | discovery, true => has is_object (manifest r)
     | validation, false => isSome (error r) && has is_object (manifest r)
     | validation, true => has is_ModuleManifest (manifest r)
     | loading, false | initialization, false =>
         isSome (error r) && has is_ModuleManifest (manifest r)
     | loading, true => has is_ModuleManifest (manifest r)
     | initialization, true =>
         has is_ModuleManifest (manifest r) && isSome (initTime r)
     end.

End ModuleInfoTypes.

(** The [initTime] of a record that shows a successful initialization is
    the difference of two consecutive readings of the clock. *)
Definition timed (w : World) (k : string) (r : ModuleInfo) : Prop :=
  stage r = initialization -> success r = true ->
  exists n, initTime r = Some (clock w (S n) - clock w n)%Z.

Lemma initialized_records_timed (w : World) (st : State) :
  registry_all (timed w) st ->
  registry_all (timed w) (state_of (setup w st)).
Proof.
  apply setup_registry_all; unfold timed.
  - intros k u old Hw _. rewrite merge_stage. destruct Hw; discriminate.
  - intros k u r Hw _. rewrite merge_stage. destruct Hw; discriminate.
  - intros k u r Hw _. rewrite merge_stage, merge_success.
    destruct Hw; discriminate.
  - intros k m t r _ _ _ _ (n & ->) _ _ _. now exists n.
Qed.

(** [validate] leaves no failure record for a manifest that is [null]: it
    throws before it writes. *)
Definition checked (w : World) (k : string) (r : ModuleInfo) : Prop :=
  record_agrees w k r
  /\ (stage r = validation -> manifest r <> Some JNull).

Lemma validated_records_checked (w : World) (st : State) :
  registry_all (checked w) st ->
  registry_all (checked w) (state_of (setup w st)).
Proof.
  apply setup_registry_all; unfold checked.
  - intros k u old Hw Hold. split.
    + apply record_agrees_discovery; [exact Hw|].
      intros r Hr. now apply Hold.
    + rewrite merge_stage. destruct Hw; discriminate.
  - intros k u r Hw [Hok _]. split.
    + now apply record_agrees_validation.
    + intros _. destruct Hok as [_ Hok].
      destruct Hw as [d m nm en err _ Hp Hn _ _|d m _ Hp Hv];
        simpl; rewrite (record_ok_parsed w d r m Hok Hp);
        intros [= ->]; discriminate.
  - intros k u r Hw [Hok _]. split.
    + now apply record_agrees_late.
    + rewrite merge_stage. destruct Hw; discriminate.
  - intros k m t r Hd Hp Hv Hl Ht [Hok _]. split.
    + now apply (record_agrees_initialized w k m t r).
    + discriminate.
Qed.

Lemma validates_ModuleManifest (w : World) (d : string) (m : Json) :
  validates w d m = true -> ModuleInfoTypes.is_ModuleManifest m = true.
Proof.
  unfold validates, ModuleInfoTypes.is_ModuleManifest.
  destruct (get_prop m "name") as [nm|] eqn:En; [|discriminate].
  destruct (get_prop m "entry") as [en|] eqn:Ee; [|discriminate].
  destruct (validate_error w d nm en) eqn:Ev; [discriminate|].
  apply validate_error_None in Ev.
  destruct Ev as (e & -> & _ & -> & _). intros _.
  destruct m; simpl in En |- *; try discriminate; reflexivity.
Qed.

Lemma parsed_manifest_object (w : World) (d : string) (m : Json) :
  parsed_manifest w d = inr m ->
  m = JNull \/ ModuleInfoTypes.is_object m = true.
Proof.
  intros Hp. apply parsed_manifest_accepts in Hp.
  destruct Hp as (raw & parsed & _ & _ & -> & [->|(f & props & ->)]);
    [now left | now right].
Qed.

(** X10: after a call of [setup] from a fresh state, in every outcome,
    every record has the fields of the variant of the [ModuleInfo] union
    that its [stage] and [success] select: a name; an error when it shows a
    failure; a manifest when discovery accepted the directory, with a string
    [name] and a string [entry] from a validation success on; and an
    [initTime] when it shows a successful initialization.  The one exception
    is a record at discovery success whose manifest is [null], which is not
    an [object]. *)
Theorem records_conform_to_ModuleInfo (w : World) (reads : nat)
    (k : string) (r : ModuleInfo) :
  getModuleInfo (state_of (setup w (fresh_state reads))) k = Some r ->
  ModuleInfoTypes.conforms r = true
  \/ (stage r = discovery /\ success r = true /\ manifest r = Some JNull
      /\ parsed_manifest w k = inr JNull).
Proof.
  intros Hg.
  destruct (records_named w _ (registry_all_fresh _ reads) k r Hg)
    as [Hname _].
  destruct (validated_records_checked w _ (registry_all_fresh _ reads)
              k r Hg)
    as [[_ Hok] Hnn].
  assert (Herr := failures_explained w _ (registry_all_fresh _ reads) k r Hg).
  assert (Htime := initialized_records_timed w _
                     (registry_all_fresh _ reads) k r Hg).
  unfold ModuleInfoTypes.conforms. rewrite Hname. simpl.
  unfold failure_explained in Herr. unfold timed in Htime.
  unfold record_ok in Hok.
  destruct (stage r) eqn:Es; destruct (success r) eqn:Ess.
  - destruct Hok as (m & Hp & Hm). rewrite Hm. simpl.
    destruct (parsed_manifest_object w k m Hp) as [->|Ho]; auto.
  - destruct (Herr eq_refl) as (e & -> & _). now left.
  - destruct Hok as (m & Hp & Hm & Hv). rewrite Hm. simpl.
    left. now apply (validates_ModuleManifest w k).
  - destruct Hok as (m & Hp & Hm & Hv).
    destruct (Herr eq_refl) as (e & -> & _). rewrite Hm. simpl. left.
    destruct (parsed_manifest_object w k m Hp) as [->|Ho]; auto.
    now contradiction (Hnn eq_refl).
  - destruct Hok as (m & Hp & Hm & Hv & _). rewrite Hm. simpl.
    left. now apply (validates_ModuleManifest w k).
  - destruct Hok as (m & Hp & Hm & Hv & _).
    destruct (Herr eq_refl) as (e & -> & _). rewrite Hm. simpl.
    left. now apply (validates_ModuleManifest w k).
  - destruct Hok as (m & f & Hp & Hm & Hv & _). rewrite Hm. simpl.
    left. rewrite (validates_ModuleManifest w k m Hv). simpl.
    destruct (Htime eq_refl eq_refl) as (n & ->). reflexivity.
  - destruct Hok as (m & f & Hp & Hm & Hv & _).
    destruct (Herr eq_refl) as (e & -> & _). rewrite Hm. simpl.
    left. now apply (validates_ModuleManifest w k).
Qed.

Lemma records_conform_to_ModuleInfo_witness :
  getModuleInfo (state_of (setup Fixtures.mixed_world (fresh_state 0))) "beta"
  = Some mixed_beta
  /\ ModuleInfoTypes.conforms mixed_beta = true.
Proof.
  split; [reflexivity|].
  destruct (records_conform_to_ModuleInfo Fixtures.mixed_world 0 "beta"
              mixed_beta eq_refl) as [H|(H & _)];
    [exact H | discriminate H].
Defined.

(* ------------------------------------------------------------------ *)
(** ** Initialization times *)



(* ------------------------------------------------------------------ *)
(** ** When a failure escapes from [setup] *)


(** The pipeline never writes past validation, nor pushes a name on the
    load order, before the validation loop has ended. *)
Definition before_loading (st : State) : Prop :=
  initOrder st = []
  /\ registry_all (fun _ r => stage r = discovery \/ stage r = validation) st.

(** What is known when the failure [e] escapes. *)
Definition escaped (w : World) (e : Thrown) (st : State) : Prop :=
  before_loading st
  /\ (fs_readdir w = inl e
      \/ (e = destructuring_TypeError
          /\ exists d, In d (directories w)
                       /\ parsed_manifest w d = inr JNull)).

Lemma setup_escape (w : World) (reads : nat) :
  match setup w (fresh_state reads) with
  | Ok _ _ => True
  | Throw e st' => escaped w e st'
  end.
Proof.
  apply (setup_induction w before_loading (fun _ => True) (escaped w)).
  - intros s s' Hm Hio [H1 H2]. split; [congruence|].
    now apply (registry_all_ext _ s).
  - auto.
  - intros s k u [H1 H2] Hw. split; [exact H1|].
    apply registry_all_write; [exact H2|].
    rewrite merge_stage. destruct Hw; simpl; auto.
  - intros s k u [H1 H2] _ Hw. split; [exact H1|].
    apply registry_all_write; [exact H2|].
    rewrite merge_stage. destruct Hw; simpl; auto.
  - auto.
  - auto.
  - auto.
  - intros e s He Hs. split; auto.
  - intros d s Hd Hp _ Hs. split; [exact Hs|]. right. eauto.
  - reflexivity.
  - split; [reflexivity|]. apply registry_all_fresh.
Qed.

(** [discover] returns when the directory can be listed, and then its
    output holds every accepted directory. *)
Lemma discover_returns (w : World) (ents : list Dirent) (st : State) :
  fs_readdir w = inr ents ->
  modules st = [] ->
  exists output st',
    discover w st = Ok output st'
    /\ forall k m, In (k, m) output <->
         In k (directories w) /\ parsed_manifest w k = inr m.
Proof.
  intros Her Hm.
  assert (HE : forall (e : Thrown) (s : State),
             fs_readdir w = inl e -> True -> False)
    by (intros e s He _; congruence).
  assert (H1 := discover_induction w (fun _ => True) (fun _ _ => False)
                  (fun _ _ _ _ _ => I) HE st I).
  assert (H2 := discover_spec w (initOrder st) st (conj Hm eq_refl)).
  destruct (discover w st) as [output st'|e st']; [|contradiction].
  exists output, st'. split; [reflexivity|]. apply H2.
Qed.




(** In every other environment [setup] returns. *)
Lemma setup_returns_without_null (w : World) (reads : nat)
    (ents : list Dirent) :
  fs_readdir w = inr ents ->
  (forall d, In d (directories w) -> parsed_manifest w d <> inr JNull) ->
  exists st', setup w (fresh_state reads) = Ok tt st'.
Proof.
  intros Her Hnull. assert (Hesc := setup_escape w reads).
  destruct (setup w (fresh_state reads)) as [[] st'|e st']; [eauto|].
  exfalso. destruct Hesc as [_ [He|[_ (d & Hd & Hp)]]].
  - congruence.
  - now apply (Hnull d).
Qed.


(* ------------------------------------------------------------------ *)
(** ** The flags and the setup time *)

(** The flags and the time as [setup] holds them while the stages run. *)
Definition in_progress (t : Z) (st : State) : Prop :=
  isSetupInProgress st = true /\ isSetupComplete st = false
  /\ setupTime st = t.

Lemma in_progress_frame (w : World) (t : Z) :
  StageFrame w (in_progress t) (fun _ => True) (fun _ => in_progress t).
Proof. constructor; auto. Qed.

(** A call of [setup] that passes the gate. *)
Lemma setup_flags (w : World) (st : State) :
  gate_closed st = false ->
  match setup w st with
  | Ok _ st' =>
      isSetupComplete st' = true /\ isSetupInProgress st' = false
      /\ setupTime st'
         = (clock w (pred (clockReads st')) - clock w (clockReads st))%Z
  | Throw _ st' => in_progress (setupTime st) st'
  end.
Proof.
  intros G. unfold setup. unfold gate_closed in G. rewrite G.
  apply orb_false_iff in G. destruct G as [Gc Gp].
  rewrite bind_run. unfold modify at 1. rewrite bind_run.
  unfold Date_now at 1.
  set (st0 := set_clockReads _ _).
  assert (H0 : in_progress (setupTime st) st0) by (repeat split; auto).
  apply (hoare_stages w (in_progress (setupTime st)) (fun _ => True)
           (fun _ => in_progress (setupTime st))
           (in_progress_frame w (setupTime st))
           (fun _ =>
              now <- Date_now w ;;
              modify (set_setupTime
                        (now - clock w
                                 (clockReads (set_isSetupInProgress true st)))%Z) ;;
              modify (set_isSetupInProgress false) ;;
              modify (set_isSetupComplete true))); [|exact H0].
  intros inits s Hs. simpl. auto.
Qed.

Lemma filter_none {A : Type} (p : A -> bool) (l : list A) :
  (forall x, In x l -> p x = false) -> filter p l = [].
Proof.
  induction l as [|a l IH]; simpl; intros H; auto.
  rewrite (H a (or_introl eq_refl)). apply IH. auto.
Qed.

Lemma registry_all_values (R : string -> ModuleInfo -> Prop) (st : State) :
  NoDup (map_keys (modules st)) ->
  registry_all R st ->
  forall r, In r (map_values (modules st)) -> exists k, R k r.
Proof.
  intros Hnd H r Hin. unfold map_values in Hin. apply in_map_iff in Hin.
  destruct Hin as ([k r'] & Heq & Hin). simpl in Heq. subst r'.
  exists k. apply H. now apply In_map_get.
Qed.

(** X13: when a failure escapes from a call of [setup] made in a fresh
    state, the system is left marked as in progress and not complete, with
    the setup time still 0, so every later call of [setup] returns at once
    without running anything; no module was loaded or initialized: the load
    order and the list of manifests are empty, every record shows the stage
    discovery or validation, and the report counts no loaded and no
    initialized module. *)
Theorem escaped_failure_leaves (w : World) (reads : nat) (e : Thrown)
    (st' : State) :
  setup w (fresh_state reads) = Throw e st' ->
  isSetupInProgress st' = true
  /\ isSetupComplete st' = false
  /\ setupTime st' = 0%Z
  /\ getLoadOrder st' = []
  /\ getManifests st' = []
  /\ (forall k r, getModuleInfo st' k = Some r ->
        stage r = discovery \/ stage r = validation)
  /\ loaded (getReport st') = 0
  /\ initialized (getReport st') = 0
  /\ (forall w', setup w' st' = Ok tt st').
Proof.
  intros Hrun.
  assert (Hf := setup_flags w (fresh_state reads) eq_refl).
  assert (He := setup_escape w reads).
  assert (Hnd := registry_NoDup w (fresh_state reads) (NoDup_nil _)).
  rewrite Hrun in Hf, He, Hnd. simpl in Hnd.
  destruct Hf as (Hp & Hc & Ht). destruct He as [[Hio Hst] _].
  assert (Hval : forall r, In r (map_values (modules st')) ->
                   stage r = discovery \/ stage r = validation).
  { intros r Hin.
    destruct (registry_all_values _ st' Hnd Hst r Hin) as (_ & H).
    exact H. }
  split; [exact Hp|]. split; [exact Hc|]. split; [exact Ht|].
  split; [exact Hio|]. split; [|split; [exact Hst|split; [|split]]].
  - unfold getManifests. rewrite filter_none; [reflexivity|].
    intros r Hin. destruct (Hval r Hin) as [-> | ->];
      now rewrite andb_false_r.
  - unfold getReport. simpl. rewrite filter_none; [reflexivity|].
    intros r Hin. destruct (Hval r Hin) as [-> | ->]; reflexivity.
  - unfold getReport. simpl. rewrite filter_none; [reflexivity|].
    intros r Hin. destruct (Hval r Hin) as [-> | ->]; reflexivity.
  - intros w'. apply setup_gate. unfold gate_closed.
    rewrite Hp. apply orb_true_r.
Qed.

Lemma escaped_failure_leaves_witness :
  let st' := state_of (setup Fixtures.null_manifest_world (fresh_state 0)) in
  setup Fixtures.null_manifest_world (fresh_state 0)
  = Throw destructuring_TypeError st'
  /\ isSetupInProgress st' = true
  /\ getManifests st' = []
  /\ setup Fixtures.mixed_world st' = Ok tt st'.
Proof.
  cbv zeta.
  destruct (escaped_failure_leaves Fixtures.null_manifest_world 0
              destructuring_TypeError
              (state_of (setup Fixtures.null_manifest_world (fresh_state 0)))
              eq_refl)
    as (Hp & _ & _ & _ & Hm & _ & _ & _ & Hs).
  split; [reflexivity|]. split; [exact Hp|]. split; [exact Hm|].
  apply Hs.
Defined.

(** X14: a call of [setup] that passes the gate and returns leaves the
    system marked as complete and no longer in progress, and the setup time
    it records, which the report gives back, is the last reading of the
    clock that the call made minus its first one, taken right after the
    gate. *)
Theorem setup_completes (w : World) (st st' : State) :
  gate_closed st = false ->
  setup w st = Ok tt st' ->
  isSetupComplete st' = true
  /\ isSetupInProgress st' = false
  /\ setupTime st'
     = (clock w (pred (clockReads st')) - clock w (clockReads st))%Z
  /\ r_setupTime (getReport st') = setupTime st'
  /\ gate_closed st' = true.
Proof.
  intros G Hrun. assert (H := setup_flags w st G). rewrite Hrun in H.
  destruct H as (Hc & Hp & Ht).
  split; [exact Hc|]. split; [exact Hp|]. split; [exact Ht|].
  split; [reflexivity|]. unfold gate_closed. now rewrite Hc.
Qed.

Lemma setup_completes_witness :
  gate_closed (fresh_state 0) = false
  /\ setup Fixtures.mixed_world (fresh_state 0) = Ok tt mixed_final
  /\ isSetupComplete mixed_final = true
  /\ setupTime mixed_final = 60%Z.
Proof.
  destruct (setup_completes Fixtures.mixed_world (fresh_state 0) mixed_final
              eq_refl eq_refl)
    as (Hc & _ & Ht & _).
  split; [reflexivity|]. split; [reflexivity|]. split; [exact Hc|].
  exact Ht.
Defined.

(* ------------------------------------------------------------------ *)
(** ** A manifest that is [null] *)

(** X15: in every outcome of a call of [setup] from a fresh state, the
    record of a directory whose manifest file holds [null] is a discovery
    success with the manifest [null]: [validate] throws before it writes
    anything for it.  So [isModuleSetUp] answers [true] for a module that
    was never validated, loaded or initialized, and that is not in the load
    order. *)
Theorem null_manifest_record (w : World) (reads : nat) (d : string)
    (r : ModuleInfo) :
  let st' := state_of (setup w (fresh_state reads)) in
  parsed_manifest w d = inr JNull ->
  getModuleInfo st' d = Some r ->
  stage r = discovery /\ success r = true /\ manifest r = Some JNull
  /\ isModuleSetUp st' d = true
  /\ ~ In d (getLoadOrder st').
Proof.
  cbv zeta. intros Hp Hg.
  destruct (validated_records_checked w _ (registry_all_fresh _ reads)
              d r Hg)
    as [[_ Hok] Hnn].
  assert (Hm := record_ok_parsed w d r JNull Hok Hp).
  assert (Hst : stage r = discovery /\ success r = true).
  { unfold record_ok in Hok. destruct (stage r) eqn:Es.
    - destruct (success r); [now split|].
      destruct Hok as (e & Hp' & _). congruence.
    - now contradiction (Hnn eq_refl).
    - destruct Hok as (m & Hp' & _ & Hv & _).
      assert (m = JNull) by congruence. subst m. discriminate.
    - destruct Hok as (m & f & Hp' & _ & Hv & _).
      assert (m = JNull) by congruence. subst m. discriminate. }
  destruct Hst as [Hst Hs].
  split; [exact Hst|]. split; [exact Hs|]. split; [exact Hm|]. split.
  - unfold isModuleSetUp. unfold getModuleInfo in Hg. now rewrite Hg.
  - intros Hin.
    destruct (setup w (fresh_state reads)) as [[] st'|e st'] eqn:Hrun;
      simpl in *.
    + destruct (load_order_spec w reads st' Hrun) as [_ Hiff].
      apply Hiff in Hin. destruct Hin as (_ & m & f & Hp' & Hv & _).
      assert (m = JNull) by congruence. subst m. discriminate.
    + assert (He := setup_escape w reads). rewrite Hrun in He.
      destruct He as [[Hio _] _]. unfold getLoadOrder in Hin.
      rewrite Hio in Hin. destruct Hin.
Qed.

Lemma null_manifest_record_witness :
  let st' := state_of (setup Fixtures.null_manifest_world (fresh_state 0)) in
  parsed_manifest Fixtures.null_manifest_world "a" = inr JNull
  /\ isModuleSetUp st' "a" = true
  /\ ~ In "a" (getLoadOrder st').
Proof.
  cbv zeta. split; [reflexivity|].
  destruct (null_manifest_record Fixtures.null_manifest_world 0 "a"
              (mkModuleInfo (Some "a") discovery true (Some JNull) None None)
              eq_refl eq_refl)
    as (_ & _ & _ & Hset & Hnot).
  split; [exact Hset | exact Hnot].
Defined.

(* ------------------------------------------------------------------ *)
(** ** The registry and the report after a run that returned *)

(** X16: when [setup] returns from a fresh state, the registry holds
    exactly one record for each subdirectory of the modules directory and
    none under any other name, and each record shows the first stage that
    fails for that module, with [success] false, or the initialization
    stage, with [success] true, when no stage fails. *)
Theorem final_records (w : World) (reads : nat) (st' : State) :
  setup w (fresh_state reads) = Ok tt st' ->
  NoDup (map_keys (modules st'))
  /\ (forall k, In k (directories w) <->
                exists r, getModuleInfo st' k = Some r)
  /\ (forall k r, getModuleInfo st' k = Some r ->
        (stage r, success r) = final_status w k)
  /\ (forall k r, getModuleInfo st' k = Some r ->
        success r = true <-> initialized_ok w k).
Proof.
  intros Hrun.
  destruct (registry_after_setup w reads st' Hrun) as (Hnd & Hcov & Hrec).
  split; [exact Hnd|]. split; [exact Hcov|]. split.
  - intros k r Hg. now destruct (Hrec k r Hg).
  - intros k r Hg. destruct (Hrec k r Hg) as [_ Hfin].
    assert (Hd : In k (directories w)) by (apply Hcov; eauto).
    unfold final_status in Hfin. split.
    + intros Hs. split; [exact Hd|].
      destruct (parsed_manifest w k) as [e|m]; [congruence|].
      destruct (validates w k m) eqn:Ev; [|congruence].
      destruct (loads w m) as [f|] eqn:El; [|congruence].
      exists m, f. repeat split; auto. congruence.
    + intros (_ & m & f & Hp & Hv & Hl & Hc).
      rewrite Hp, Hv, Hl in Hfin. congruence.
Qed.

Lemma final_records_witness :
  setup Fixtures.mixed_world (fresh_state 0) = Ok tt mixed_final
  /\ map_keys (modules mixed_final)
     = ["epsilon"; "alpha"; "beta"; "delta"; "gamma"]
  /\ (forall k r, getModuleInfo mixed_final k = Some r ->
        (stage r, success r) = final_status Fixtures.mixed_world k).
Proof.
  split; [reflexivity|]. split; [reflexivity|].
  exact (proj1 (proj2 (proj2
           (final_records Fixtures.mixed_world 0 mixed_final eq_refl)))).
Defined.

Lemma discovery_failure_kept_witness :
  setup Fixtures.mixed_world (fresh_state 0) = Ok tt mixed_final
  /\ In "epsilon" (directories Fixtures.mixed_world)
  /\ parsed_manifest Fixtures.mixed_world "epsilon" = inl Fixtures.ENOENT
  /\ getModuleInfo mixed_final "epsilon"
     = Some (discovery_failure_record "epsilon" Fixtures.ENOENT)
  /\ ~ In "epsilon" (getLoadOrder mixed_final).
Proof.
  split; [reflexivity|].
  split; [vm_compute; tauto|]. split; [reflexivity|].
  apply (discovery_failure_kept Fixtures.mixed_world 0 mixed_final
           "epsilon" Fixtures.ENOENT); [reflexivity| |reflexivity].
  vm_compute. tauto.
Defined.

Lemma partition_length (l : list ModuleInfo) :
  (forall r, In r l -> success r = true -> stage r = initialization) ->
  List.length
    (filter (fun m => stage_eqb (stage m) initialization && success m) l)
  + List.length (filter (fun m => negb (success m)) l)
  = List.length l.
Proof.
  induction l as [|r l IH]; simpl; intros H; [reflexivity|].
  assert (IH' := IH (fun r' Hin => H r' (or_intror Hin))).
  assert (Hr := H r (or_introl eq_refl)).
  destruct (success r); simpl.
  - rewrite (Hr eq_refl). simpl. lia.
  - rewrite andb_false_r. simpl. lia.
Qed.

(** X18: when [setup] returns from a fresh state, the report accounts for
    every module once: [initialized] is the length of the load order and of
    [getManifests()], [initialized + failed = discovered], [errors] has one
    element for each failed module, and [discovered] is the number of
    subdirectories when their names are pairwise distinct. *)
Theorem report_after_setup (w : World) (reads : nat) (st' : State) :
  setup w (fresh_state reads) = Ok tt st' ->
  let r := getReport st' in
  initialized r = List.length (getLoadOrder st')
  /\ List.length (getManifests st') = initialized r
  /\ initialized r + failed r = discovered r
  /\ List.length (errors r) = failed r
  /\ List.length (moduleDetails r) = discovered r
  /\ discovered r <= List.length (directories w)
  /\ (NoDup (directories w) -> discovered r = List.length (directories w)).
Proof.
  intros Hrun. cbv zeta.
  destruct (registry_after_setup w reads st' Hrun) as (Hnd & Hcov & Hrec).
  assert (Hincl : incl (map_keys (modules st')) (directories w)).
  { intros k Hk. apply Hcov.
    destruct (map_get (modules st') k) as [r|] eqn:Eg; [eauto|].
    apply map_get_None in Eg. contradiction. }
  split; [now apply (initialized_count w reads)|]. split; [|split].
  - unfold getManifests, getReport. simpl. rewrite length_map.
    f_equal. apply filter_ext. intros r. apply andb_comm.
  - unfold getReport. simpl. apply partition_length.
    intros r Hin Hs.
    assert (Hst := registry_NoDup w (fresh_state reads) (NoDup_nil _)).
    rewrite Hrun in Hst. simpl in Hst.
    unfold map_values in Hin. apply in_map_iff in Hin.
    destruct Hin as ([k r'] & Heq & Hin). simpl in Heq. subst r'.
    assert (Hg : getModuleInfo st' k = Some r) by now apply In_map_get.
    destruct (Hrec k r Hg) as [_ Hfin]. unfold final_status in Hfin.
    destruct (parsed_manifest w k) as [e|m]; [congruence|].
    destruct (validates w k m); [|congruence].
    destruct (loads w m); congruence.
  - unfold getReport. simpl. split; [apply length_map|].
    split; [reflexivity|].
    unfold map_values. rewrite length_map, <- (length_map fst).
    split.
    + now apply NoDup_incl_length.
    + intros Hnd'. apply Permutation_length, NoDup_Permutation; auto.
      intros k. split; [apply Hincl|].
      intros Hk. apply Hcov in Hk. destruct Hk as (r & Hg).
      now apply (map_get_Some_key _ _ r).
Qed.

Lemma report_after_setup_witness :
  setup Fixtures.mixed_world (fresh_state 0) = Ok tt mixed_final
  /\ initialized (getReport mixed_final) + failed (getReport mixed_final)
     = discovered (getReport mixed_final)
  /\ discovered (getReport mixed_final) = 5.
Proof.
  split; [reflexivity|].
  destruct (report_after_setup Fixtures.mixed_world 0 mixed_final eq_refl)
    as (_ & _ & Hpart & _ & _ & _ & Hall).
  split; [exact Hpart|]. exact (Hall ltac:(vm_compute; repeat constructor;
                                            simpl; intuition discriminate)).
Defined.

(** X19: in every state, the cumulative counts of the report decrease along
    the pipeline, [initialized <= loaded <= validated <= discovered]; the
    failed modules are counted apart from the initialized ones,
    [initialized + failed <= discovered]; and [errors] has one element for
    each failed module. *)
Theorem report_counts_ordered (st : State) :
  let r := getReport st in
  initialized r <= loaded r
  /\ loaded r <= validated r
  /\ validated r <= discovered r
  /\ initialized r + failed r <= discovered r
  /\ List.length (errors r) = failed r
  /\ List.length (moduleDetails r) = discovered r.
Proof.
  cbv zeta. unfold getReport; simpl.
  rewrite length_map.
  assert (H : forall l : list ModuleInfo,
             List.length
               (filter (fun m => stage_eqb (stage m) initialization
                                 && success m) l)
             + List.length (filter (fun m => negb (success m)) l)
             <= List.length l).
  { induction l as [|m l IH]; simpl; [lia|].
    destruct (stage m), (success m); simpl; lia. }
  specialize (H (map_values (modules st))).
  assert (G := getReport_counts_monotone st). unfold getReport in G.
  simpl in G. repeat split; try lia.
Qed.

(* ------------------------------------------------------------------ *)
(** ** Where validation stops *)

(** The validation loop over [rest]: it returns when no manifest is
    [null]; otherwise it stops at the first one that is, having written a
    validation record for each module before it and nothing else. *)
Lemma validation_stops (w : World) (rest acc : Map Json) (st : State) :
  NoDup (map_keys rest) ->
  match
    foldM
      (fun moduleManifests '(name, manifest) =>
         valid <- validate w name manifest ;;
         ret (if valid : bool
              then map_set moduleManifests name manifest
              else moduleManifests))
      rest acc st
  with
  | Ok _ _ => forall k, ~ In (k, JNull) rest
  | Throw e st' =>
      e = destructuring_TypeError
      /\ exists done d rest',
           rest = done ++ (d, JNull) :: rest'
           /\ (forall k, ~ In (k, JNull) done)
           /\ (forall k, In k (map_keys done) ->
                 exists r, getModuleInfo st' k = Some r
                           /\ stage r = validation)
           /\ (forall k, ~ In k (map_keys done) ->
                 getModuleInfo st' k = getModuleInfo st k)
  end.
Proof.
  revert acc st. induction rest as [|[k m] rest IH]; intros acc st Hnd.
  - simpl. intros k [].
  - simpl in Hnd. inversion Hnd as [|? ? Hnin Hnd']; subst.
    simpl. rewrite bind_run, bind_run. unfold validate.
    assert (Hnull : m = JNull ->
              destructuring_TypeError = destructuring_TypeError
              /\ exists done d rest',
                   (k, m) :: rest = done ++ (d, JNull) :: rest'
                   /\ (forall k0, ~ In (k0, JNull) done)
                   /\ (forall k0, In k0 (map_keys done) ->
                         exists r, getModuleInfo st k0 = Some r
                                   /\ stage r = validation)
                   /\ (forall k0, ~ In k0 (map_keys done) ->
                         getModuleInfo st k0 = getModuleInfo st k0)).
    { intros ->. split; [reflexivity|]. exists [], k, rest.
      split; [reflexivity|]. split; [intros k0 []|].
      split; [intros k0 []|reflexivity]. }
    destruct (get_prop m "name") as [nm|] eqn:En;
      [|apply Hnull; now apply (get_prop_None m "name")].
    destruct (get_prop m "entry") as [en|] eqn:Ee;
      [|apply Hnull; now apply (get_prop_None m "entry")].
    assert (Hm : m <> JNull) by (intros ->; discriminate).
    assert (Hstep :
              forall u acc',
                u_stage u = validation ->
                match
                  foldM
                    (fun moduleManifests '(name, manifest) =>
                       valid <- validate w name manifest ;;
                       ret (if valid : bool
                            then map_set moduleManifests name manifest
                            else moduleManifests))
                    rest acc' (setModuleInfo_state k u st)
                with
                | Ok _ _ => forall k0, ~ In (k0, JNull) ((k, m) :: rest)
                | Throw e st' =>
                    e = destructuring_TypeError
                    /\ exists done d rest',
                         (k, m) :: rest = done ++ (d, JNull) :: rest'
                         /\ (forall k0, ~ In (k0, JNull) done)
                         /\ (forall k0, In k0 (map_keys done) ->
                               exists r, getModuleInfo st' k0 = Some r
                                         /\ stage r = validation)
                         /\ (forall k0, ~ In k0 (map_keys done) ->
                               getModuleInfo st' k0 = getModuleInfo st k0)
                end).
    { intros u acc' Hu.
      assert (H := IH acc' (setModuleInfo_state k u st) Hnd').
      destruct_run H.
      - intros k0 [Heq|Hin]; [congruence | now apply (H k0)].
      - destruct H as (-> & done & d & rest' & -> & Hnn & Hdone & Hother).
        split; [reflexivity|].
        exists ((k, m) :: done), d, rest'. split; [reflexivity|].
        assert (Hk : ~ In k (map_keys done)).
        { intros Hin. apply Hnin. unfold map_keys in *.
          rewrite map_app. apply in_or_app. now left. }
        split; [intros k0 [Heq|Hin]; [congruence | now apply (Hnn k0)]|].
        split.
        + intros k0 Hk0. simpl in Hk0.
          destruct Hk0 as [<-|Hin]; [|now apply Hdone].
          rewrite (Hother k Hk), getModuleInfo_setModuleInfo.
          eexists. split; [reflexivity|]. now rewrite merge_stage.
        + intros k0 Hk0. simpl in Hk0.
          rewrite Hother by tauto.
          apply getModuleInfo_setModuleInfo_other. tauto. }
    destruct (validate_error w k nm en); simpl; now apply Hstep.
Qed.

Lemma pair_unique {V : Type} (l : Map V) (k : string) (v v' : V) :
  NoDup (map_keys l) -> In (k, v) l -> In (k, v') l -> v = v'.
Proof.
  intros Hnd H1 H2. apply (In_map_get _ _ _ Hnd) in H1, H2. congruence.
Qed.

(** X20: when the [TypeError] of a [null] manifest escapes from a call of
    [setup] made in a fresh state, validation has stopped at the first
    subdirectory, in the order of the names, whose manifest is [null]: the
    accepted subdirectories before it have their validation record, and
    those from it on, valid or not, are left with their discovery-success
    record. *)
Theorem validation_stops_at_first_null (w : World) (reads : nat)
    (ents : list Dirent) (e : Thrown) (st' : State) :
  fs_readdir w = inr ents ->
  setup w (fresh_state reads) = Throw e st' ->
  e = destructuring_TypeError
  /\ exists d0,
       In d0 (directories w)
       /\ parsed_manifest w d0 = inr JNull
       /\ (forall k, In k (directories w) -> str_lt k d0 ->
             parsed_manifest w k <> inr JNull)
       /\ (forall k m r,
             In k (directories w) -> parsed_manifest w k = inr m ->
             getModuleInfo st' k = Some r ->
             (str_lt k d0 ->
              stage r = validation /\ success r = validates w k m)
             /\ (str_le d0 k -> stage r = discovery /\ success r = true)).
Proof.
  intros Her Hrun0.
  assert (Hagree := records_agree w (fresh_state reads)
                      (registry_all_fresh _ reads)).
  rewrite Hrun0 in Hagree. simpl in Hagree.
  assert (Hrun := Hrun0). unfold setup in Hrun. simpl in Hrun.
  rewrite bind_run in Hrun. unfold modify at 1 in Hrun.
  rewrite bind_run in Hrun. unfold Date_now at 1 in Hrun.
  rewrite bind_run in Hrun.
  match type of Hrun with
  | context [discover w ?s] =>
      destruct (discover_returns w ents s Her eq_refl)
        as (output & st1 & Hd & Hout);
      assert (Hspec := discover_spec w [] s (conj eq_refl eq_refl));
      rewrite Hd in Hspec; rewrite Hd in Hrun
  end.
  destruct Hspec as (Hinv & _ & _).
  assert (Hsorted : StronglySorted str_lt (map_keys output)).
  { assert (H := inv_sorted _ _ _ _ _ _ Hinv). now rewrite app_nil_r in H. }
  assert (Hnd : NoDup (map_keys output))
    by now apply StronglySorted_NoDup.
  rewrite bind_run in Hrun.
  assert (Hv := validation_stops w output [] st1 Hnd).
  destruct_run Hv.
  - exfalso.
    destruct (setup_returns_without_null w reads ents Her) as (st'' & Hret).
    + intros d Hdir Hp. apply (Hv d). apply Hout. now split.
    + congruence.
  - destruct Hv as (-> & done & d0 & rest' & Hsplit & Hnn & Hdone & Hother).
    injection Hrun as <- <-. split; [reflexivity|].
    assert (Hkeys : map_keys output
                    = map_keys done ++ d0 :: map_keys rest')
      by (rewrite Hsplit; unfold map_keys; now rewrite map_app).
    rewrite Hkeys in Hsorted.
    apply StronglySorted_app in Hsorted.
    destruct Hsorted as (_ & Hs2 & Hlt).
    apply StronglySorted_inv in Hs2. destruct Hs2 as [_ Hgt].
    rewrite Forall_forall in Hgt.
    assert (Hin0 : In (d0, JNull) output)
      by (rewrite Hsplit; apply in_or_app; right; now left).
    destruct (proj1 (Hout d0 JNull) Hin0) as [Hdir0 Hp0].
    assert (Hplace : forall k m,
               In k (directories w) -> parsed_manifest w k = inr m ->
               In (k, m) done \/ k = d0 \/ In k (map_keys rest')).
    { intros k m Hk Hp.
      assert (Hin : In (k, m) output) by (apply Hout; now split).
      rewrite Hsplit in Hin. apply in_app_or in Hin.
      destruct Hin as [H|[H|H]]; auto.
      - right. left. congruence.
      - right. right. now apply (In_map_keys _ _ m). }
    assert (Hbefore : forall k, str_lt k d0 -> k <> d0)
      by (intros k H ->; now apply (str_lt_irrefl d0)).
    assert (Hafter : forall k, str_lt k d0 -> ~ In k (map_keys rest')).
    { intros k H Hin. apply (str_lt_irrefl k).
      eapply str_lt_trans; [exact H|]. now apply Hgt. }
    exists d0. split; [exact Hdir0|]. split; [exact Hp0|]. split.
    + intros k Hk Hlt0 Hp.
      destruct (Hplace k JNull Hk Hp) as [H|[H|H]].
      * now apply (Hnn k).
      * now apply (Hbefore k).
      * now apply (Hafter k).
    + intros k m r Hk Hp Hg. split.
      * intros Hlt0.
        destruct (Hplace k m Hk Hp) as [H|[H|H]].
        -- destruct (Hdone k (In_map_keys _ _ _ H)) as (r' & Hg' & Hst).
           assert (r' = r) by congruence. subst r'.
           split; [exact Hst|].
           destruct (Hagree k r Hg) as [_ Hok].
           unfold record_ok in Hok. rewrite Hst in Hok.
           destruct Hok as (m' & Hp' & _ & Hval). congruence.
        -- now contradiction (Hbefore k).
        -- now contradiction (Hafter k).
      * intros Hle.
        assert (Hnot : ~ In k (map_keys done)).
        { intros H. apply (str_lt_irrefl k).
          assert (Hkd : str_lt k d0) by (apply Hlt; simpl; auto).
          destruct Hle as [Hlt0| ->]; [|exact Hkd].
          eapply str_lt_trans; [exact Hkd | exact Hlt0]. }
        rewrite (Hother k Hnot) in Hg.
        assert (Hin : In k (map_keys output))
          by (apply (In_map_keys _ _ m); apply Hout; now split).
        destruct (inv_done _ _ _ _ _ _ Hinv k Hin) as (r' & Hg' & Hs).
        assert (r' = r) by congruence. subst r'.
        destruct (inv_success _ _ _ _ _ _ Hinv k r Hg Hs)
          as [[[] _]|[_ Hst]].
        now split.
Qed.

(** Two subdirectories: [a], whose manifest is [null], and [b], a valid
    module. *)
Definition null_first_world : World :=
  mkWorld
    (inr [mkDirent "b" true; mkDirent "a" true])
    (fun dir =>
       if String.eqb dir "a" then inr "null"
       else if String.eqb dir "b"
       then inr (Fixtures.manifest_text "b" "index.ts")
       else inl Fixtures.ENOENT)
    (fun text =>
       if String.eqb text "null" then inr JNull
       else if String.eqb text (Fixtures.manifest_text "b" "index.ts")
       then inr (Fixtures.manifest_object "b" "index.ts")
       else inl Fixtures.SyntaxError)
    (fun _ _ => true)
    (fun _ _ => inr (InitFunction InitCompletes))
    (fun n => Z.of_nat n).

Lemma validation_stops_at_first_null_witness :
  let st' := state_of (setup null_first_world (fresh_state 0)) in
  let mb := Object_freeze (Fixtures.manifest_object "b" "index.ts") in
  let rb := mkModuleInfo (Some "b") discovery true (Some mb) None None in
  setup null_first_world (fresh_state 0) = Throw destructuring_TypeError st'
  /\ validates null_first_world "b" mb = true
  /\ getModuleInfo st' "b" = Some rb
  /\ stage rb = discovery /\ success rb = true.
Proof.
  cbv zeta. split; [reflexivity|]. split; [reflexivity|].
  split; [reflexivity|].
  destruct (validation_stops_at_first_null null_first_world 0
              [mkDirent "b" true; mkDirent "a" true] destructuring_TypeError
              (state_of (setup null_first_world (fresh_state 0)))
              eq_refl eq_refl)
    as (_ & d0 & Hd & Hp & _ & Hrec).
  assert (Hd0 : d0 = "a").
  { destruct Hd as [<-|[<-|[]]]; [reflexivity|discriminate Hp]. }
  subst d0.
  apply (Hrec "b" (Object_freeze (Fixtures.manifest_object "b" "index.ts")));
    [simpl; auto | reflexivity | reflexivity |].
  apply str_leb_le. reflexivity.
Defined.

(* ------------------------------------------------------------------ *)
(** ** The order of the registry *)

Lemma map_set_sorted {V : Type} (ms : Map V) (d : string) (v : V) :
  StronglySorted str_lt (map_keys ms) ->
  (forall k, In k (map_keys ms) -> str_le k d) ->
  StronglySorted str_lt (map_keys (map_set ms d v)).
Proof.
  intros Hs Hb.
  destruct (in_dec string_dec d (map_keys ms)) as [Hin|Hnin].
  - now rewrite map_keys_set_present.
  - rewrite map_keys_set_fresh by assumption.
    apply StronglySorted_app. split; [exact Hs|]. split.
    + repeat constructor.
    + intros x y Hx [<-|[]].
      destruct (Hb x Hx) as [Hlt| ->]; [exact Hlt | contradiction].
Qed.

Section KeyOrder.

Variable w : World.

Definition refused (k : string) : Prop :=
  exists e, parsed_manifest w k = inl e.

Definition accepted (k : string) : Prop :=
  exists m, parsed_manifest w k = inr m.

(** The first loop of [discover]: the registry and the output both grow in
    strictly increasing order of names. *)
Lemma first_loop_keys (rest : list string) (output : Map Json)
    (st : State) :
  StronglySorted str_le rest ->
  StronglySorted str_lt (map_keys (modules st)) ->
  (forall k x, In k (map_keys (modules st)) -> In x rest -> str_le k x) ->
  StronglySorted str_lt (map_keys output) ->
  (forall k x, In k (map_keys output) -> In x rest -> str_le k x) ->
  exists output' st',
    foldM
      (fun output dir =>
         try_catch (discover_one w output dir)
           (fun error =>
              setModuleInfo dir
                (mkUpdate (Some dir) discovery false None
                   (Some (Errors.ModuleDiscoveryError dir (Some error)))
                   None) ;;
              ret output))
      rest output st = Ok output' st'
    /\ StronglySorted str_lt (map_keys (modules st'))
    /\ StronglySorted str_lt (map_keys output')
    /\ (forall k, In k (map_keys (modules st')) <->
          In k (map_keys (modules st)) \/ (In k rest /\ refused k))
    /\ (forall k, In k (map_keys output') <->
          In k (map_keys output) \/ (In k rest /\ accepted k))
    /\ (forall k m, In (k, m) output' ->
          In (k, m) output \/ parsed_manifest w k = inr m).
Proof.
  revert output st.
  induction rest as [|d rest IH]; intros output st Hrest Hs Hb Hso Hbo.
  - exists output, st. simpl. repeat split; auto; tauto.
  - inversion Hrest as [|? ? Hrest' Hd]; subst.
    rewrite Forall_forall in Hd.
    simpl. rewrite bind_run. unfold try_catch. rewrite discover_one_eq.
    destruct (parsed_manifest w d) as [e|m] eqn:Ep; simpl.
    + set (u := mkUpdate (Some d) discovery false None
                  (Some (Errors.ModuleDiscoveryError d (Some e))) None).
      destruct (IH output (setModuleInfo_state d u st)) as
        (output' & st' & Hrun & Hs' & Hso' & Hk & Hko & Hp); auto.
      * simpl. apply map_set_sorted; auto.
        intros k Hk. apply Hb; simpl; auto.
      * simpl. intros k x Hk Hx. apply map_keys_set in Hk.
        destruct Hk as [->|Hk]; [apply Hd, Hx | apply Hb; simpl; auto].
      * intros k x Hk Hx. apply Hbo; simpl; auto.
      * exists output', st'. split; [exact Hrun|].
        split; [exact Hs'|]. split; [exact Hso'|].
        split; [|split; [|exact Hp]].
        -- intros k. rewrite Hk. simpl. rewrite map_keys_set.
           split.
           ++ intros [[->|H]|[H1 H2]]; auto.
              right. split; [now left | now exists e].
           ++ intros [H|[[<-|H1] H2]]; auto.
        -- intros k. rewrite Hko. simpl. split.
           ++ intros [H|[H1 H2]]; auto.
           ++ intros [H|[[<-|H1] H2]]; auto.
              destruct H2 as (m & Hm). congruence.
    + destruct (IH (map_set output d m) st) as
        (output' & st' & Hrun & Hs' & Hso' & Hk & Hko & Hp); auto.
      * intros k x Hk Hx. apply Hb; simpl; auto.
      * apply map_set_sorted; auto.
        intros k Hk. apply Hbo; simpl; auto.
      * intros k x Hk Hx. apply map_keys_set in Hk.
        destruct Hk as [->|Hk]; [apply Hd, Hx | apply Hbo; simpl; auto].
      * exists output', st'. split; [exact Hrun|].
        split; [exact Hs'|]. split; [exact Hso'|].
        split; [|split].
        -- intros k. rewrite Hk. simpl. split.
           ++ intros [H|[H1 H2]]; auto.
           ++ intros [H|[[<-|H1] H2]]; auto.
              destruct H2 as (e & He). congruence.
        -- intros k. rewrite Hko, map_keys_set. split.
           ++ intros [[->|H]|[H1 H2]]; auto.
              right. split; [now left | now exists m].
           ++ intros [H|[[<-|H1] H2]]; auto.
        -- intros k m' Hin. destruct (Hp k m' Hin) as [H|H]; auto.
           apply In_map_set_inv in H.
           destruct H as [[-> ->]|H]; auto.
Qed.

(** The second loop of [discover] appends the accepted names, in the order
    of the output, after the names already in the registry. *)
Lemma second_loop_keys (F : list string) (done rest : Map Json)
    (st : State) :
  NoDup (F ++ map_keys (done ++ rest)) ->
  map_keys (modules st) = F ++ map_keys done ->
  exists st',
    forM_
      (fun '(name, manifest) =>
         setModuleInfo name
           (mkUpdate (Some name) discovery true (Some manifest) None None))
      rest st = Ok tt st'
    /\ map_keys (modules st') = F ++ map_keys (done ++ rest).
Proof.
  revert done st. induction rest as [|[k m] rest IH]; intros done st Hnd Hk.
  - exists st. simpl. now rewrite app_nil_r.
  - simpl. rewrite bind_run. simpl.
    replace (done ++ (k, m) :: rest) with ((done ++ [(k, m)]) ++ rest)
      in * by (now rewrite <- app_assoc).
    apply IH; [exact Hnd|].
    simpl. rewrite map_keys_set_fresh.
    + rewrite Hk. unfold map_keys. rewrite map_app, app_assoc. reflexivity.
    + rewrite Hk. unfold map_keys in *.
      rewrite !map_app in Hnd. simpl in Hnd.
      rewrite app_assoc in Hnd. rewrite app_assoc in Hnd.
      apply NoDup_app_remove_r in Hnd.
      apply NoDup_remove_2 in Hnd. now rewrite app_nil_r in Hnd.
Qed.

(** The registry after [discover]: first the refused directories, then the
    accepted ones, each group in strictly increasing order. *)
Definition ordered_registry (F S : list string) : Prop :=
  StronglySorted str_lt F
  /\ StronglySorted str_lt S
  /\ (forall k, In k F <-> In k (directories w) /\ refused k)
  /\ (forall k, In k S <-> In k (directories w) /\ accepted k).

Lemma discover_keys (st : State) :
  modules st = [] ->
  match discover w st with
  | Ok output st' =>
      exists F,
        map_keys (modules st') = F ++ map_keys output
        /\ ordered_registry F (map_keys output)
        /\ (forall k m, In (k, m) output -> parsed_manifest w k = inr m)
  | Throw e st' => modules st' = [] /\ directories w = []
  end.
Proof.
  intros Hm. unfold discover. rewrite bind_run. unfold readdir, lift.
  destruct (fs_readdir w) as [e|ents] eqn:Er.
  - split; [exact Hm|]. unfold directories. now rewrite Er.
  - assert (Hdirs : directories w
                    = sort (map d_name (filter d_isDirectory ents)))
      by (unfold directories; now rewrite Er).
    unfold ret at 1. cbv beta iota zeta. rewrite <- Hdirs, bind_run.
    destruct (first_loop_keys (directories w) [] st)
      as (output & st1 & -> & Hs & Hso & Hk & Hko & Hp).
    { apply directories_sorted. }
    { rewrite Hm. constructor. }
    { rewrite Hm. intros k x []. }
    { constructor. }
    { intros k x []. }
    rewrite bind_run.
    assert (Hnd : NoDup (map_keys (modules st1) ++ map_keys ([] ++ output))).
    { simpl. apply NoDup_app.
      - now apply StronglySorted_NoDup.
      - now apply StronglySorted_NoDup.
      - intros k Hk1 Hk2. apply Hk in Hk1. apply Hko in Hk2.
        rewrite Hm in Hk1. simpl in Hk1, Hk2.
        destruct Hk1 as [[]|[_ (e & He)]].
        destruct Hk2 as [[]|[_ (m & Hm')]]. congruence. }
    destruct (second_loop_keys (map_keys (modules st1)) [] output st1 Hnd)
      as (st2 & -> & Hk2).
    { simpl. now rewrite app_nil_r. }
    simpl. exists (map_keys (modules st1)). split; [exact Hk2|].
    split.
    + split; [exact Hs|]. split; [exact Hso|]. split.
      * intros k. rewrite Hk, Hm. simpl. tauto.
      * intros k. rewrite Hko. simpl. tauto.
    + intros k m Hin. destruct (Hp k m Hin) as [[]|H]. exact H.
Qed.

Lemma keys_kept (L : list string) (st : State) (k : string)
    (u : ModuleInfoUpdate) :
  map_keys (modules st) = L -> has_record st k ->
  map_keys (modules (setModuleInfo_state k u st)) = L.
Proof.
  intros HL (r & Hr). simpl. rewrite map_keys_set_present; [exact HL|].
  now apply (map_get_Some_key _ _ r).
Qed.

(** Nothing after [discover] adds a name to the registry or moves one. *)
Lemma setup_keys (reads : nat) :
  exists F S,
    map_keys (modules (state_of (setup w (fresh_state reads)))) = F ++ S
    /\ ordered_registry F S.
Proof.
  unfold setup. simpl.
  rewrite bind_run. unfold modify at 1. rewrite bind_run.
  unfold Date_now at 1. rewrite bind_run.
  match goal with
  | |- context [discover w ?s] =>
      assert (Hd := discover_keys s eq_refl);
      destruct (discover w s) as [output st1|e st1]
  end.
  - destruct Hd as (F & Hk & Hord & Hp).
    exists F, (map_keys output). split; [|exact Hord].
    set (L := F ++ map_keys output) in *.
    set (P := fun s : State => map_keys (modules s) = L).
    assert (Hout : forall k m, In (k, m) output ->
                     In k (directories w) /\ parsed_manifest w k = inr m).
    { intros k m Hin. split; [|now apply Hp].
      destruct Hord as (_ & _ & _ & HS).
      apply HS. eapply In_map_keys; eauto. }
    assert (Hrec : recorded output st1).
    { intros k Hin. unfold has_record, getModuleInfo.
      destruct (map_get (modules st1) k) as [r|] eqn:Eg; [eauto|].
      apply map_get_None in Eg. exfalso. apply Eg. rewrite Hk.
      apply in_or_app. now right. }
    assert (H := late_stages w P P (fun _ => P)).
    match goal with
    | |- context [state_of (?body st1)] =>
        assert (Hrun : match body st1 with
                       | Ok _ s' => P s'
                       | Throw _ s' => P s'
                       end)
    end.
    { apply H with (output := output); unfold P.
      - intros s s' Hm _ Hs. now rewrite Hm.
      - intros s k u Hs Hk' _. now apply keys_kept.
      - auto.
      - intros s k u Hs Hk' _. now apply keys_kept.
      - intros s d m t Hs Hk' _ _ _ _ _. now apply keys_kept.
      - auto.
      - exact Hout.
      - intros s Hs. simpl. exact Hs.
      - exact Hk.
      - exact Hrec. }
    match goal with
    | H : match ?o with Ok _ _ => _ | Throw _ _ => _ end |- _ =>
        destruct o; exact H
    end.
  - destruct Hd as [Hm Hdirs]. exists [], []. simpl. rewrite Hm.
    split; [reflexivity|]. unfold ordered_registry. rewrite Hdirs.
    split; [apply SSorted_nil|]. split; [apply SSorted_nil|].
    simpl. split; intros k; tauto.
Qed.

End KeyOrder.

Definition acceptedb (w : World) (d : string) : bool :=
  match parsed_manifest w d with
  | inr _ => true
  | inl _ => false
  end.

Lemma filter_sorted (p : string -> bool) (l : list string) :
  StronglySorted str_lt l -> StronglySorted str_lt (filter p l).
Proof.
  induction 1 as [|a l Hs IH Ha]; simpl; [constructor|].
  destruct (p a); auto. constructor; auto.
  rewrite Forall_forall in *. intros x Hx. apply filter_In in Hx.
  now apply Ha.
Qed.

(** X21: in every outcome of a call of [setup] from a fresh state, the
    registry, and so the report's [moduleDetails], lists first the
    directories that discovery refused and then those it accepted, each
    group in strictly increasing order of names: the failure records are
    written during the scan, the others after it, and no later stage adds
    or moves a record.  When the directory names are pairwise distinct,
    these are the two sublists of the sorted directory list. *)
Theorem registry_order (w : World) (reads : nat) :
  let st' := state_of (setup w (fresh_state reads)) in
  exists F S,
    map_keys (modules st') = F ++ S
    /\ map name (moduleDetails (getReport st')) = map Some (F ++ S)
    /\ StronglySorted str_lt F
    /\ StronglySorted str_lt S
    /\ (forall k, In k F <->
          In k (directories w) /\ exists e, parsed_manifest w k = inl e)
    /\ (forall k, In k S <->
          In k (directories w) /\ exists m, parsed_manifest w k = inr m)
    /\ (NoDup (directories w) ->
        F = filter (fun d => negb (acceptedb w d)) (directories w)
        /\ S = filter (acceptedb w) (directories w)).
Proof.
  cbv zeta.
  destruct (setup_keys w reads) as (F & S & Hk & HF & HS & HFm & HSm).
  exists F, S. split; [exact Hk|]. split.
  { rewrite <- Hk. unfold getReport. simpl. apply map_values_keys.
    - apply registry_NoDup. constructor.
    - intros k r Hg.
      now destruct (records_named w _ (registry_all_fresh _ reads) k r Hg). }
  split; [exact HF|]. split; [exact HS|].
  split; [exact HFm|]. split; [exact HSm|].
  intros Hnd.
  assert (Hsorted : StronglySorted str_lt (directories w))
    by (apply sorted_NoDup_strict; [apply directories_sorted | exact Hnd]).
  split; apply sorted_unique; auto using filter_sorted.
  - intros k. rewrite HFm, filter_In. unfold acceptedb, refused.
    destruct (parsed_manifest w k); simpl; split;
      intros [H1 H2]; split; eauto; try discriminate.
    destruct H2; discriminate.
  - intros k. rewrite HSm, filter_In. unfold acceptedb, accepted.
    destruct (parsed_manifest w k); simpl; split;
      intros [H1 H2]; split; eauto; try discriminate.
    destruct H2; discriminate.
Qed.

(* ------------------------------------------------------------------ *)
(** ** The manifests of the initialized modules *)

Lemma filter_keys_sorted {V : Type} (q : string * V -> bool) (ms : Map V) :
  StronglySorted str_lt (map_keys ms) ->
  StronglySorted str_lt (map_keys (filter q ms)).
Proof.
  unfold map_keys. induction ms as [|[k v] ms IH]; simpl; intros Hs.
  - constructor.
  - inversion Hs as [|? ? Hs' Ha]; subst.
    destruct (q (k, v)); simpl; auto.
    constructor; auto.
    rewrite Forall_forall in *. intros x Hx. apply Ha.
    apply in_map_iff in Hx. destruct Hx as ([k' v'] & <- & Hin).
    apply filter_In in Hin. destruct Hin as [Hin _].
    change k' with (fst (k', v')). now apply in_map.
Qed.

(** The manifest [discover] accepted for the directory [d]. *)
Definition discovered_manifest (w : World) (d : string) : option Json :=
  match parsed_manifest w d with
  | inr m => Some m
  | inl _ => None
  end.

(** X22: when [setup] returns from a fresh state, [getManifests()] lists
    the manifests of the initialized modules in the load order: its i-th
    element is the frozen manifest that [discover] parsed for the i-th name
    of [getLoadOrder()], so the two lists have the same length, and no
    element is missing. *)
Theorem manifests_in_load_order (w : World) (reads : nat) (st' : State) :
  setup w (fresh_state reads) = Ok tt st' ->
  getManifests st' = map (discovered_manifest w) (getLoadOrder st')
  /\ List.length (getManifests st') = List.length (getLoadOrder st')
  /\ Forall (fun o => exists m, o = Some m /\ Object_isFrozen m = true)
       (getManifests st').
Proof.
  intros Hrun.
  destruct (setup_post_of_run w reads st' Hrun) as [Hinv _].
  destruct (registry_after_setup w reads st' Hrun) as (Hnd & _ & Hrec).
  destruct (load_order_spec w reads st' Hrun) as [Hsorted Hio].
  destruct (setup_keys w reads) as (F & S & Hk & _ & HS & HFm & _).
  rewrite Hrun in Hk. simpl in Hk.
  set (q := fun kv : string * ModuleInfo =>
              success (snd kv) && stage_eqb (stage (snd kv)) initialization).
  assert (Hget : getManifests st'
                 = map (fun kv => manifest (snd kv)) (filter q (modules st'))).
  { unfold getManifests. rewrite filter_map_snd. unfold map_values.
    now rewrite map_map. }
  unfold map_keys in Hk. apply map_eq_app in Hk.
  destruct Hk as (ms1 & ms2 & Hms & HF & HS').
  assert (Hin_get : forall k r, In (k, r) (modules st') ->
                      getModuleInfo st' k = Some r)
    by (intros k r Hin; now apply In_map_get).
  assert (H1 : filter q ms1 = []).
  { apply filter_none. intros [k r] Hin.
    assert (Hg : getModuleInfo st' k = Some r)
      by (apply Hin_get; rewrite Hms; apply in_or_app; now left).
    assert (Hk : In k F)
      by (rewrite <- HF; change k with (fst (k, r)); now apply in_map).
    apply HFm in Hk. destruct Hk as [_ (e & He)].
    destruct (Hrec k r Hg) as [_ Hfin]. unfold final_status in Hfin.
    rewrite He in Hfin. injection Hfin as Hst Hs.
    unfold q. simpl. now rewrite Hs. }
  assert (Hfilter : filter q (modules st') = filter q ms2)
    by (rewrite Hms, filter_app, H1; reflexivity).
  assert (Hkeys : map_keys (filter q ms2) = getLoadOrder st').
  { apply sorted_unique; [|exact Hsorted|].
    - apply filter_keys_sorted. unfold map_keys. now rewrite HS'.
    - intros k. rewrite <- Hfilter. split.
      + intros Hin. unfold map_keys in Hin. apply in_map_iff in Hin.
        destruct Hin as ([k' r] & Hk' & Hin). simpl in Hk'. subst k'.
        apply filter_In in Hin. destruct Hin as [Hin Hq].
        unfold q in Hq. simpl in Hq. apply andb_true_iff in Hq.
        destruct Hq as [Hs _].
        destruct (inv_success _ _ _ _ _ _ Hinv k r (Hin_get k r Hin) Hs)
          as [[[] _]|[H _]].
        exact H.
      + intros Hin.
        destruct (inv_done _ _ _ _ _ _ Hinv k Hin) as (r & Hg & Hs).
        destruct (inv_success _ _ _ _ _ _ Hinv k r Hg Hs)
          as [[[] _]|[_ Hst]].
        unfold map_keys. apply in_map_iff. exists (k, r).
        split; [reflexivity|]. apply filter_In.
        split; [now apply map_get_In|].
        unfold q. simpl. now rewrite Hs, Hst. }
  assert (Hmap : getManifests st'
                 = map (discovered_manifest w) (getLoadOrder st')).
  { rewrite Hget, Hfilter, <- Hkeys. unfold map_keys. rewrite map_map.
    apply map_ext_in. intros [k r] Hin. simpl.
    apply filter_In in Hin. destruct Hin as [Hin Hq].
    assert (Hg : getModuleInfo st' k = Some r)
      by (apply Hin_get; rewrite Hms; apply in_or_app; now right).
    destruct (Hrec k r Hg) as [Hok _].
    unfold q in Hq. simpl in Hq. apply andb_true_iff in Hq.
    destruct Hq as [Hs _].
    destruct (record_ok_manifest w k r Hok (or_introl Hs))
      as (m & Hm & Hp).
    unfold discovered_manifest. now rewrite Hp. }
  split; [exact Hmap|]. split; [rewrite Hmap; apply length_map|].
  rewrite Hmap. apply Forall_forall. intros o Ho.
  apply in_map_iff in Ho. destruct Ho as (d & <- & Hd).
  apply Hio in Hd. destruct Hd as (_ & m & f & Hp & _).
  exists m. unfold discovered_manifest. rewrite Hp.
  split; [reflexivity|]. now apply (parsed_manifest_frozen w d).
Qed.

Lemma manifests_in_load_order_witness :
  setup Fixtures.mixed_world (fresh_state 0) = Ok tt mixed_final
  /\ getManifests mixed_final
     = [Some (Object_freeze (Fixtures.manifest_object "alpha" "index.ts"));
        Some (Object_freeze (Fixtures.manifest_object "gamma" "main.js"))]
  /\ getManifests mixed_final
     = map (discovered_manifest Fixtures.mixed_world)
         (getLoadOrder mixed_final).
Proof.
  split; [reflexivity|]. split; [reflexivity|].
  exact (proj1 (manifests_in_load_order Fixtures.mixed_world 0 mixed_final
                  eq_refl)).
Defined.

(* ------------------------------------------------------------------ *)
(** ** The test switch: [__test], [initTestGlobal] and [__resetState] *)

(** The property [__test] of the global object: absent ([None]), or present
    with a value, [undefined] included. *)
Definition TestGlobal : Type := option JsValue.

Definition ReferenceError : Thrown :=
  ErrorObj "ReferenceError" "__test is not defined".

(** [__test?.active], tested for truthiness: resolving the identifier
    raises a [ReferenceError] when the global object has no such property;
    the optional chain answers [undefined] for [null] and [undefined]. *)
Definition test_active (g : TestGlobal) : Thrown + bool :=
  match g with
  | None => inl ReferenceError
  | Some None => inr false
  | Some (Some v) =>
      inr (match get_prop v "active" with
           | Some x => truthy x
           | None => false
           end)
  end.

(** [__resetState()] under the global [g]. *)
Definition __resetState_under (g : TestGlobal) : M unit :=
  match test_active g with
  | inl e => throw e
  | inr b => __resetState b
  end.

(** [initTestGlobal()]: reading [global.__test] gives [undefined] when the
    property is absent. *)
Definition initTestGlobal (g : TestGlobal) : TestGlobal :=
  let v : JsValue := match g with
                     | Some v => v
                     | None => None
                     end in
  if negb (truthy v) || negb (JsType_eqb (typeof v) TObject)
  then Some (Some (JObj false [("active", JBool true)]))
  else g.

(** X23: [__resetState] with the test switch on returns the system to its
    initial state, whatever state it is in, also one left in progress by an
    escaped failure: registry, load order and manifests are empty, the
    setup time is 0, the gate is open, and the next [setup] runs the
    pipeline as from a fresh state.  With the switch off it throws
    ["Not in a testing environment!"] and changes nothing, so the gate
    closed by an earlier [setup] stays closed. *)
Theorem reset_reopens_setup (w w' : World) (st : State) :
  let st1 := state_of (setup w st) in
  let st2 := state_of (__resetState true st1) in
  gate_closed st1 = true
  /\ setup w' st1 = Ok tt st1
  /\ __resetState true st1 = Ok tt st2
  /\ st2 = fresh_state (clockReads st1)
  /\ gate_closed st2 = false
  /\ getLoadOrder st2 = [] /\ getManifests st2 = []
  /\ getReport st2 = mkDiagnostics 0 0 0 0 0 0 [] []
  /\ setup w' st2 = setup w' (fresh_state (clockReads st1))
  /\ __resetState false st1
     = Throw (ErrorObj "Error" "Not in a testing environment!") st1
  /\ setup w' (state_of (__resetState false st1)) = Ok tt st1.
Proof.
  cbv zeta.
  assert (G := setup_closes_gate w st).
  split; [exact G|]. split; [now apply setup_gate|].
  unfold __resetState, modify, throw. simpl.
  repeat split. now apply setup_gate.
Qed.

Lemma initTestGlobal_cases (g : TestGlobal) :
  initTestGlobal g
  = match g with
    | Some (Some (JArr _ _)) | Some (Some (JObj _ _)) => g
    | _ => Some (Some (JObj false [("active", JBool true)]))
    end.
Proof.
  unfold initTestGlobal.
  destruct g as [[[|b|n|s| |]|]|]; simpl; try reflexivity;
    now rewrite orb_true_r.
Qed.

(** X24: after [initTestGlobal()] the global [__test] is an object, and
    calling it again changes nothing.  When there was no [__test], or its
    value was not a truthy object, it is now [{ active: true }] and
    [__resetState] resets; but an object that was already there is kept as
    it is, so [__resetState] still throws when that object has no truthy
    [active].  Without [initTestGlobal], that is with no global [__test] at
    all, [__resetState] raises a [ReferenceError]. *)
Theorem initTestGlobal_enables_reset (g : TestGlobal) (st : State) :
  let g' := initTestGlobal g in
  (exists v, g' = Some (Some v) /\ typeof (Some v) = TObject /\ v <> JNull)
  /\ initTestGlobal g' = g'
  /\ (exists b, test_active g' = inr b)
  /\ (g' <> g ->
      __resetState_under g' st = Ok tt (fresh_state (clockReads st)))
  /\ (forall f props,
        g = Some (Some (JObj f props)) ->
        g' = g
        /\ (truthy (assoc "active" props) = false ->
            __resetState_under g' st
            = Throw (ErrorObj "Error" "Not in a testing environment!") st))
  /\ __resetState_under None st = Throw ReferenceError st.
Proof.
  cbv zeta. rewrite (initTestGlobal_cases g).
  assert (Hnew : __resetState_under
                   (Some (Some (JObj false [("active", JBool true)]))) st
                 = Ok tt (fresh_state (clockReads st))) by reflexivity.
  split; [|split; [|split; [|split; [|split; [|reflexivity]]]]].
  - destruct g as [[[| | | | |]|]|]; eexists;
      (split; [reflexivity|]); split; (reflexivity || discriminate).
  - destruct g as [[[| | | | |]|]|]; reflexivity.
  - destruct g as [[[| | | | |]|]|]; eexists; reflexivity.
  - destruct g as [[[| | | | |]|]|]; intros H; try exact Hnew;
      now contradiction H.
  - intros f props ->. split; [reflexivity|].
    intros Ha. unfold __resetState_under. simpl. now rewrite Ha.
Qed.

(* ------------------------------------------------------------------ *)
(** ** [errors.ts]: the class hierarchy *)

(** The [extends] clause of each class ([None]: the class extends the
    built-in [Error]). *)
Definition superclass (c : Errors.ErrorClass) : option Errors.ErrorClass :=
  match c with
  | Errors.CModuleSetupError => None
  | Errors.CModuleDiscoveryError => Some Errors.CModuleSetupError
  | Errors.CModuleValidationError => Some Errors.CModuleSetupError
  | Errors.CManifestMissingFieldError => Some Errors.CModuleValidationError
  | Errors.CManifestNameMismatchError => Some Errors.CModuleValidationError
  | Errors.CManifestEntryNotFoundError => Some Errors.CModuleValidationError
  | Errors.CModuleLoadError => Some Errors.CModuleSetupError
  | Errors.CEntryPointMissingInitError => Some Errors.CModuleLoadError
  | Errors.CModuleInitializationError => Some Errors.CModuleSetupError
  end.

(** [c] is [d] or was derived from it by a chain of [extends]. *)
Inductive derives : Errors.ErrorClass -> Errors.ErrorClass -> Prop :=
| derives_refl c : derives c c
| derives_step c c' d : superclass c = Some c' -> derives c' d -> derives c d.

(** The errors that the constructors of the subclasses make. *)
Inductive constructed : Errors.SetupError -> Prop :=
| new_ModuleDiscoveryError module cause :
    constructed (Errors.ModuleDiscoveryError module cause)
| new_ModuleValidationError message module cause :
    constructed (Errors.ModuleValidationError message module cause)
| new_ManifestMissingFieldError module field :
    constructed (Errors.ManifestMissingFieldError module field)
| new_ManifestNameMismatchError dirName manifestName :
    constructed (Errors.ManifestNameMismatchError dirName manifestName)
| new_ManifestEntryNotFoundError module entry :
    constructed (Errors.ManifestEntryNotFoundError module entry)
| new_ModuleLoadError module cause :
    constructed (Errors.ModuleLoadError module cause)
| new_EntryPointMissingInitError module :
    constructed (Errors.EntryPointMissingInitError module)
| new_ModuleInitializationError module cause :
    constructed (Errors.ModuleInitializationError module cause).

Lemma derives_inv (c d : Errors.ErrorClass) :
  derives c d ->
  c = d \/ exists c', superclass c = Some c' /\ derives c' d.
Proof. intros H. destruct H; eauto. Qed.

Lemma instanceof_derives (e : Errors.SetupError) (c : Errors.ErrorClass) :
  Errors.instanceof e c = true <-> derives (Errors.class e) c.
Proof.
  split.
  - intros H. unfold Errors.instanceof in H.
    destruct c, (Errors.class e); try discriminate;
      repeat first
        [ apply derives_refl
        | eapply derives_step; [reflexivity|] ].
  - intros H. unfold Errors.instanceof.
    destruct (Errors.class e), c; try reflexivity; exfalso;
      repeat match goal with
             | H : derives _ _ |- _ =>
                 apply derives_inv in H;
                 destruct H as [H|(c' & Hs & H)];
                 [discriminate H|simpl in Hs; try discriminate Hs;
                                 injection Hs as <-]
             end.
Qed.

(** X25: [instanceof] on the module errors follows the [extends] clauses of
    [errors.ts]: an error is an instance of a class exactly when its own
    class is that class or was derived from it.  For an error made by the
    constructor of any subclass of [ModuleSetupError], the [stage] field
    tells the family: it is [s] exactly when the error is an instance of the
    class of the stage [s]; and only the specific validation errors and the
    missing-[init] error carry no cause. *)
Theorem instanceof_follows_extends (e : Errors.SetupError)
    (c : Errors.ErrorClass) :
  (Errors.instanceof e c = true <-> derives (Errors.class e) c)
  /\ (constructed e ->
      (forall s, Errors.stage e = s <->
                 Errors.instanceof e (stage_class s) = true)
      /\ Errors.instanceof e Errors.CModuleSetupError = true
      /\ (derives (Errors.class e) Errors.CModuleValidationError ->
          Errors.class e <> Errors.CModuleValidationError ->
          Errors.cause e = None)
      /\ (Errors.class e = Errors.CEntryPointMissingInitError ->
          Errors.cause e = None)).
Proof.
  split; [apply instanceof_derives|].
  intros H. split; [|split; [|split]].
  - intros s. destruct H, s; simpl; split; intros X;
      first [reflexivity | discriminate X].
  - now destruct (Errors.class e).
  - intros Hd Hne. apply instanceof_derives in Hd.
    destruct H; simpl in *; try reflexivity; try discriminate Hd.
    now contradiction Hne.
  - intros Hc. destruct H; simpl in *; try reflexivity; discriminate Hc.
Qed.
(* ------------------------------------------------------------------ *)
(** ** [test-utils]: the manifests of the normal test modules *)

Section NormalManifest.

(** JavaScript numbers, and the string that [+] makes of one when the other
    operand is a string ([Number::toString]).  Nothing is assumed of
    either. *)
Variable Number : Type.
Variable Number_toString : Number -> string.

(** ["test-module-" + num] *)
Definition test_module_name (num : Number) : string :=
  "test-module-" ++ Number_toString num.

(** [createNormalManifest(num)], as an object not yet frozen. *)
Definition createNormalManifest (num : Number) : Json :=
  JObj false
    [("name", JStr (test_module_name num));
     ("description", JStr "Test module description");
     ("displayName", JStr ("Test Module " ++ Number_toString num));
     ("entry", JStr "index.ts")].

Lemma append_injective (p a b : string) : (p ++ a = p ++ b)%string -> a = b.
Proof.
  induction p as [|c p IH]; simpl; intros H; [exact H|].
  injection H as H. now apply IH.
Qed.

(** X26: the manifest that [createNormalManifest(num)] makes for the
    directory ["test-module-" + num] passes every check of [validate] but
    the last: it is valid exactly when the entry file [index.ts] exists in
    that directory, and is refused with a [ManifestEntryNotFoundError]
    otherwise; in any other directory it is refused for its name.  Two
    numbers give the same module name exactly when [+] writes them the
    same. *)
Theorem normal_manifest_validates (w : World) (num : Number) :
  let d := test_module_name num in
  let m := Object_freeze (createNormalManifest num) in
  manifest_name m = d
  /\ manifest_entry m = "index.ts"
  /\ validates w d m = fs_existsSync w d "index.ts"
  /\ (fs_existsSync w d "index.ts" = false ->
      forall st,
        validation_fails_with w d m st Errors.CManifestEntryNotFoundError)
  /\ (forall d' st, d' <> d -> d' <> EmptyString ->
        validation_fails_with w d' m st Errors.CManifestNameMismatchError)
  /\ (forall num',
        test_module_name num' = d
        <-> Number_toString num' = Number_toString num).
Proof.
  cbv zeta.
  assert (Hne : test_module_name num <> EmptyString) by discriminate.
  split; [reflexivity|]. split; [reflexivity|].
  assert (Hv : validate_error w (test_module_name num)
                 (Some (JStr (test_module_name num)))
                 (Some (JStr "index.ts"))
               = if fs_existsSync w (test_module_name num) "index.ts"
                 then None
                 else Some (Errors.ManifestEntryNotFoundError
                              (test_module_name num) "index.ts")).
  { revert Hne. generalize (test_module_name num). intros n Hne.
    unfold validate_error.
    rewrite (truthy_string _ Hne). simpl.
    rewrite String.eqb_refl. simpl.
    now destruct (fs_existsSync w n "index.ts"). }
  split; [|split; [|split]].
  - unfold validates. simpl. unfold test_module_name in *. rewrite Hv.
    now destruct (fs_existsSync w _ "index.ts").
  - intros Hf st.
    apply (validate_error_recorded w _ _ st
             (Some (JStr (test_module_name num))) (Some (JStr "index.ts"))
             (Errors.ManifestEntryNotFoundError (test_module_name num)
                "index.ts"));
      try reflexivity.
    rewrite Hv, Hf. reflexivity.
  - intros d' st Hd' Hne'.
    apply (validate_error_recorded w _ _ st
             (Some (JStr (test_module_name num))) (Some (JStr "index.ts"))
             (Errors.ManifestNameMismatchError d' (test_module_name num)));
      try reflexivity.
    clear Hv. revert Hd' Hne. generalize (test_module_name num).
    intros n Hd' Hne.
    unfold validate_error. rewrite (truthy_string _ Hne). simpl.
    apply not_eq_sym in Hd'. apply String.eqb_neq in Hd'.
    now rewrite Hd'.
  - intros num'. unfold test_module_name. split.
    + apply append_injective.
    + now intros ->.
Qed.

End NormalManifest.
